(** * halfway-db: the national rail graph builder, the graph merger and the
      shortest-path engine

    A shallow embedding of [national_graph.py], [update_national_network.py]
    and [graph_times.py], with the properties of the specification proved
    about it.

    Conventions of the embedding:
    - Python [str] is [string]; the text helpers ([strip], [upper],
      [isdigit], [casefold]) are given on ASCII, which is what the CIF
      timetable feed and the station files contain.
    - Python [float] minutes are rationals [Q].  Every time value the code
      manipulates is a multiple of one half minute, on which binary64
      addition, subtraction and comparison are exact.
    - A [dict] used as a keyed store is a [gmap]; a [dict] or [list] whose
      iteration order reaches the output is a list.
    - [None] is [None]; a [KeyError], [IndexError] or [AttributeError] is the
      [None] of an [option] result, and a [while] loop runs on fuel. *)

From Stdlib Require Import Ascii QArith Qround Lqa Qminmax.
From Stdlib Require String.
From Stdlib Require Import Sorting.Sorted Sorting.Permutation.
From stdpp Require Import base option list gmap strings pretty sorting.

Open Scope Z_scope.

(** ** Python text helpers (ASCII) *)

Module Py.

Definition chars (s : string) : list ascii := String.list_ascii_of_string s.
Definition str (l : list ascii) : string := String.string_of_list_ascii l.

(** [c.isspace()] on ASCII: tab to carriage return, the four separators
    0x1c-0x1f and the blank. *)
Definition isspace (c : ascii) : bool :=
  let n := nat_of_ascii c in
  ((9 <=? n)%nat && (n <=? 13)%nat) || ((28 <=? n)%nat && (n <=? 32)%nat).

Fixpoint lstrip_chars (l : list ascii) : list ascii :=
  match l with
  | c :: l' => if isspace c then lstrip_chars l' else l
  | [] => []
  end.

Definition strip_chars (l : list ascii) : list ascii :=
  rev (lstrip_chars (rev (lstrip_chars l))).

(** [s.strip()] *)
Definition strip (s : string) : string := str (strip_chars (chars s)).

Definition upper_char (c : ascii) : ascii :=
  let n := nat_of_ascii c in
  if ((97 <=? n)%nat && (n <=? 122)%nat)%bool then ascii_of_nat (n - 32) else c.

Definition lower_char (c : ascii) : ascii :=
  let n := nat_of_ascii c in
  if ((65 <=? n)%nat && (n <=? 90)%nat)%bool then ascii_of_nat (n + 32) else c.

(** [s.upper()], [s.lower()] and [s.casefold()] (the last two agree on
    ASCII). *)
Definition upper (s : string) : string := str (map upper_char (chars s)).
Definition lower (s : string) : string := str (map lower_char (chars s)).
Definition casefold (s : string) : string := lower s.

Definition is_digit_char (c : ascii) : bool :=
  let n := nat_of_ascii c in (48 <=? n)%nat && (n <=? 57)%nat.

(** [s.isdigit()]: every character a digit, and at least one character. *)
Definition isdigit (s : string) : bool :=
  match chars s with
  | [] => false
  | l => forallb is_digit_char l
  end.

Definition digit_value (c : ascii) : Z := Z.of_nat (nat_of_ascii c) - 48.

(** [int(s)] for a string of digits. *)
Definition int_of_digits (l : list ascii) : Z :=
  fold_left (fun acc c => 10 * acc + digit_value c) l 0.

(** [s.endswith(t)] and [s.startswith(t)] *)
Definition startswith (s t : string) : bool :=
  bool_decide (take (length (chars t)) (chars s) = chars t).
Definition endswith (s t : string) : bool :=
  bool_decide (take (length (chars t)) (rev (chars s)) = rev (chars t)).

(** [l[:-k]] and [l[-k:]] for [k > 0]. *)
Definition drop_last {A} (k : nat) (l : list A) : list A :=
  take (length l - k) l.
Definition last_n {A} (k : nat) (l : list A) : list A :=
  drop (length l - k) l.

(** Truthiness of an optional string: [None] and [""] are false. *)
Definition truthy_str (o : option string) : bool :=
  match o with
  | Some s => negb (bool_decide (s = ""%string))
  | None => false
  end.

(** [a or b] on optional strings. *)
Definition or_str (a b : option string) : option string :=
  if truthy_str a then a else b.

End Py.

(** ** Rational comparisons as the code writes them *)

Definition Qltb (x y : Q) : bool := negb (Qle_bool y x).
Definition Qleb (x y : Q) : bool := Qle_bool x y.

(** ** national_graph.py: TimeNormalizer *)

Record TimeNormalizer := mkTimeNormalizer {
  _day_offset : Z;
  _last_value : option Q
}.

(** [TimeNormalizer.__init__] *)
Definition TimeNormalizer_init : TimeNormalizer :=
  {| _day_offset := 0; _last_value := None |}.

(** Lines 63-74 of [parse], which do not touch the instance: the token is
    stripped, an [H] suffix marks the half minute, and what is left must be
    three or more digits [hh..hmm]. *)
Definition base_minutes (raw : option string) : option Q :=
  match raw with
  | None => None
  | Some r =>
    if bool_decide (r = ""%string) then None else
    let token := Py.chars (Py.strip r) in
    let half_minute := Py.endswith (Py.str token) "H" in
    let token := if half_minute then Py.drop_last 1 token else token in
    if ((length token <? 3)%nat || negb (Py.isdigit (Py.str token)))%bool then None
    else
      let hh := Py.int_of_digits (Py.drop_last 2 token) in
      let mm := Py.int_of_digits (Py.last_n 2 token) in
      Some (inject_Z (hh * 60 + mm) + (if half_minute then 1 # 2 else 0))%Q
  end.

Definition day_minutes (day_offset : Z) : Q := inject_Z (day_offset * 24 * 60).

Definition epsilon : Q := 1 # 1000000.

(** [TimeNormalizer.parse]: the returned value and the instance after the
    call. *)
Definition parse (self : TimeNormalizer) (raw : option string)
  : option Q * TimeNormalizer :=
  match base_minutes raw with
  | None => (None, self)
  | Some base =>
    let minutes := (base + day_minutes (_day_offset self))%Q in
    let rolled :=
      match _last_value self with
      | Some last => Qltb (minutes + epsilon) last
      | None => false
      end in
    let day_offset := if rolled then _day_offset self + 1 else _day_offset self in
    let minutes := if rolled then (base + day_minutes day_offset)%Q else minutes in
    let last_value :=
      match _last_value self with
      | None => Some minutes
      | Some last => if Qltb last minutes then Some minutes else Some last
      end in
    (Some minutes, {| _day_offset := day_offset; _last_value := last_value |})
  end.

(** One instance fed a sequence of tokens: the values it returns, in order. *)
Fixpoint parse_all (self : TimeNormalizer) (raws : list (option string))
  : list (option Q) :=
  match raws with
  | [] => []
  | raw :: rest =>
    let '(v, self') := parse self raw in v :: parse_all self' rest
  end.

(** The non-[None] values among them. *)
Definition returned (self : TimeNormalizer) (raws : list (option string)) : list Q :=
  omap id (parse_all self raws).

(** ** national_graph.py: constants and records *)

Definition MIN_RATIO_FOR_SLOW : Q := 7 # 10.
Definition GROUND_TO_HUB_MINUTES : Z := 2.
Definition PLATFORM_TO_HUB_MINUTES : Z := 2.
Definition MAX_WAIT_MINUTES : Q := 25.
Definition MIN_TRAVEL_MINUTES : Q := 1 # 2.

Record StopEvent := mkStopEvent {
  se_station_id : string;
  se_tiploc : string;
  se_arrival : option Q;
  se_departure : option Q
}.

(** [national_loader.StationMetadata] *)
Record StationMetadata := mkStationMetadata {
  tiploc : string;
  name : option string;
  three_alpha : option string;
  atco_code : option string;
  naptan_code : option string;
  latitude : option Q;
  longitude : option Q;
  locality_name : option string
}.

(** One entry of a schedule's [schedule_location] list.  A field is [None]
    when the key is absent or [null]: [loc.get] answers [None] for both. *)
Record schedule_location := mkLocation {
  tiploc_code : option string;
  public_arrival : option string;
  public_departure : option string;
  arrival : option string;
  departure : option string
}.

(** The [schedule_segment] of a [JsonScheduleV1] record. *)
Record schedule_segment := mkSegment {
  CIF_train_category : option string;
  schedule_location_list : option (list schedule_location)
}.

(** A line of [lines.jsonl], and the dictionaries [build_national_graph]
    appends to [platform_edges]. *)
Record edge := mkEdge {
  from_id : string;
  from_line : string;
  to_id : string;
  to_line : string;
  time : Z
}.

(** [station_id_from_tiploc] *)
Definition station_id_from_tiploc (tiploc : string) : string :=
  "910G" +:+ Py.upper tiploc.

(** ** national_graph.py: classify_service *)

(** The normalised category code: [(seg.get(..) or "").strip().upper()]. *)
Definition category_of (seg : schedule_segment) : string :=
  Py.upper (Py.strip (default "" (Py.or_str (CIF_train_category seg) (Some "")))).

Definition rejected_category (category : string) : bool :=
  bool_decide (category ∈ ["BR"; "BS"; "DD"]).

Definition classify_service (seg : schedule_segment) (stop_ratio : Q)
    (toc_code : string) : option string :=
  let category := category_of seg in
  if rejected_category category then None
  else if Qleb MIN_RATIO_FOR_SLOW stop_ratio then Some "slow"
  else Some "express".

(** ** national_graph.py: extract_stop_events *)

(** The local variables of the loop over [locations]. *)
Record extract_state := mkExtract {
  normaliser : TimeNormalizer;
  stops : list StopEvent;
  total_points : Z;
  public_stops : Z
}.

Definition loc_tiploc (loc : schedule_location) : string :=
  Py.upper (Py.strip (default "" (Py.or_str (tiploc_code loc) (Some "")))).

(** The guard [not tiploc or tiploc not in metadata], negated. *)
Definition in_catalogue (metadata : gmap string StationMetadata)
    (loc : schedule_location) : bool :=
  negb (bool_decide (loc_tiploc loc = "")) &&
  bool_decide (is_Some (metadata !! loc_tiploc loc)).

Definition has_public_time (loc : schedule_location) : bool :=
  Py.truthy_str (Py.or_str (public_arrival loc) (public_departure loc)).

(** One iteration of the loop. *)
Definition extract_step (metadata : gmap string StationMetadata)
    (st : extract_state) (loc : schedule_location) : extract_state :=
  let tiploc := loc_tiploc loc in
  if negb (in_catalogue metadata loc) then st else
  let total := total_points st + 1 in
  if negb (has_public_time loc) then
    mkExtract (normaliser st) (stops st) total (public_stops st)
  else
    let public := public_stops st + 1 in
    let arrival := Py.or_str (arrival loc) (public_arrival loc) in
    let departure := Py.or_str (departure loc) (public_departure loc) in
    let '(arrival_minutes, n1) := parse (normaliser st) arrival in
    let '(departure_minutes, n2) := parse n1 departure in
    match arrival_minutes, departure_minutes with
    | None, None => mkExtract n2 (stops st) total public
    | _, _ =>
      let stop := mkStopEvent (station_id_from_tiploc tiploc) tiploc
                    arrival_minutes departure_minutes in
      mkExtract n2 (stops st ++ [stop]) total public
    end.

Definition extract_stop_events (seg : schedule_segment)
    (metadata : gmap string StationMetadata) : list StopEvent * Q :=
  let locations := default [] (schedule_location_list seg) in
  match locations with
  | [] => ([], 0%Q)
  | _ =>
    let st := fold_left (extract_step metadata) locations
                (mkExtract TimeNormalizer_init [] 0 0) in
    let ratio :=
      if bool_decide (total_points st = 0) then 0%Q
      else (inject_Z (public_stops st) / inject_Z (total_points st))%Q in
    (stops st, ratio)
  end.

(** ** national_graph.py: the head of the schedule loop of build_national_graph *)

(** A [JsonScheduleV1] payload. *)
Record schedule := mkSchedule {
  sched_segment : option schedule_segment;
  atoc_code : option string
}.

(** Lines 242-255: the line name of a schedule and its stops, or [None] when
    the loop moves on to the next schedule. *)
Definition schedule_line (sch : schedule) (catalogue : gmap string StationMetadata)
  : option (string * list StopEvent) :=
  let seg := default (mkSegment None None) (sched_segment sch) in
  let toc_code := Py.lower (Py.strip (default "" (Py.or_str (atoc_code sch) (Some "")))) in
  if bool_decide (toc_code = "") then None else
  let '(stops_list, stop_ratio) := extract_stop_events seg catalogue in
  if (length stops_list <? 2)%nat then None else
  match classify_service seg stop_ratio toc_code with
  | None => None
  | Some line_variant =>
    if bool_decide (line_variant = "") then None
    else Some (toc_code +:+ "-" +:+ line_variant, stops_list)
  end.

(** ** national_graph.py: compute_headways *)

(** [sorted(times)]: a stable merge sort on [<=]. *)
Definition Qle_total_bool (x y : Q) : Prop := Qleb x y = true.

#[local] Instance Qle_total_bool_dec x y : Decision (Qle_total_bool x y).
Proof. unfold Qle_total_bool. apply _. Defined.

Definition sorted (times : list Q) : list Q := merge_sort Qle_total_bool times.

(** [zip(l, l[1:])] *)
Definition consecutive_pairs (l : list Q) : list (Q * Q) := zip l (tail l).

(** [min(l)] on a non-empty list: the first least element. *)
Definition py_min (l : list Q) : Q :=
  match l with
  | [] => 0%Q
  | x :: l' => fold_left (fun best y => if Qltb y best then y else best) l' x
  end.

(** The body of the loop of [compute_headways] for one key. *)
Definition headway_of (times : list Q) : Q :=
  if (length times <? 2)%nat then 30%Q
  else
    let sorted_times := sorted times in
    let diffs :=
      map (fun '(a, b) => (b - a)%Q)
          (List.filter (fun '(a, b) => Qltb a b) (consecutive_pairs sorted_times)) in
    let first := default 0%Q (head sorted_times) in
    let final := default 0%Q (last sorted_times) in
    let wrap := ((first + inject_Z (24 * 60)) - final)%Q in
    let diffs := if Qltb 0 wrap then diffs ++ [wrap] else diffs in
    match diffs with
    | [] => 30%Q
    | _ => py_min diffs
    end.

(** [compute_headways]: the [departures] dictionary in insertion order, and
    the [headways] dictionary in the same order. *)
Definition compute_headways (departures : list ((string * string) * list Q))
  : list ((string * string) * Q) :=
  map (fun '(key, times) => (key, headway_of times)) departures.

(** ** national_graph.py: the platform and hub edges of build_national_graph *)

(** [min(headway / 2.0, MAX_WAIT_MINUTES)] *)
Definition wait_minutes (headway : Q) : Q :=
  let half := (headway / 2)%Q in
  if Qltb MAX_WAIT_MINUTES half then MAX_WAIT_MINUTES else half.

(** Lines 305-328: the two edges appended for one entry of [headways]. *)
Definition hub_edges_of (station_usage : list (string * StationMetadata))
    (entry : (string * string) * Q) : list edge :=
  let '((station_id, line_name), headway) := entry in
  if negb (bool_decide (station_id ∈ map fst station_usage)) then []
  else
    [ mkEdge station_id line_name station_id "HUB" PLATFORM_TO_HUB_MINUTES;
      mkEdge station_id "HUB" station_id line_name (Qceiling (wait_minutes headway)) ].

Definition hub_edges (station_usage : list (string * StationMetadata))
    (headways : list ((string * string) * Q)) : list edge :=
  flat_map (hub_edges_of station_usage) headways.

(** The edges out of the hub onto a line: those that carry the wait. *)
Definition is_wait_edge (e : edge) : bool :=
  bool_decide (from_line e = "HUB") && negb (bool_decide (to_line e = "HUB"))
  && negb (bool_decide (to_line e = "GROUND")).

(** Lines 260-279: the travel edges of one schedule, kept at the least cost
    per key. *)
Definition EdgeKey : Type := string * string * string * string.

Definition add_travel_edge (line_name : string)
    (edge_costs : gmap EdgeKey Q) (pair : StopEvent * StopEvent) : gmap EdgeKey Q :=
  let '(current_stop, next_stop) := pair in
  match se_departure current_stop, se_arrival next_stop with
  | Some dep, Some arr =>
    let travel_minutes := (arr - dep)%Q in
    if Qltb travel_minutes MIN_TRAVEL_MINUTES then edge_costs
    else
      let key := (se_station_id current_stop, line_name,
                  se_station_id next_stop, line_name) in
      match edge_costs !! key with
      | None => <[key := travel_minutes]> edge_costs
      | Some existing =>
        if Qltb travel_minutes existing then <[key := travel_minutes]> edge_costs
        else edge_costs
      end
  | _, _ => edge_costs
  end.

Definition add_travel_edges (line_name : string) (stops_list : list StopEvent)
    (edge_costs : gmap EdgeKey Q) : gmap EdgeKey Q :=
  fold_left (add_travel_edge line_name) (zip stops_list (tail stops_list)) edge_costs.

(** ** update_national_network.py: the edge store and merge_line_edges *)

Definition edge_key (e : edge) : EdgeKey :=
  (from_id e, from_line e, to_id e, to_line e).

Definition set_time (e : edge) (t : Z) : edge :=
  mkEdge (from_id e) (from_line e) (to_id e) (to_line e) t.

(** [load_line_records] over the lines of [lines.jsonl], a blank line being
    [None]: [idx] counts every line, [records] only the decoded ones. *)
Definition load_line_step (acc : list edge * gmap EdgeKey nat)
    (item : nat * option edge) : list edge * gmap EdgeKey nat :=
  let '(records, index) := acc in
  let '(idx, line) := item in
  match line with
  | None => (records, index)
  | Some data => (records ++ [data], <[edge_key data := idx]> index)
  end.

Definition load_line_records (lines : list (option edge))
  : list edge * gmap EdgeKey nat :=
  fold_left load_line_step (imap (fun idx line => (idx, line)) lines) ([], ∅).

(** The locals of [merge_line_edges]: the two mutated arguments and the two
    counters. *)
Record merge_state := mkMerge {
  st_records : list edge;
  st_index : gmap EdgeKey nat;
  updates : Z;
  inserts : Z
}.

(** One iteration of the loop; [None] is the [IndexError] of
    [records[idx]]. *)
Definition merge_line_edge (st : merge_state) (e : edge) : option merge_state :=
  let key := edge_key e in
  let t := time e in
  match st_index st !! key with
  | Some idx =>
    match st_records st !! idx with
    | None => None
    | Some r =>
      if t <? time r then
        Some (mkMerge (<[idx := set_time r t]> (st_records st)) (st_index st)
                      (updates st + 1) (inserts st))
      else Some st
    end
  | None =>
    let records' := st_records st ++ [mkEdge (from_id e) (from_line e) (to_id e) (to_line e) t] in
    Some (mkMerge records' (<[key := (length records' - 1)%nat]> (st_index st))
                  (updates st) (inserts st + 1))
  end.

Fixpoint merge_loop (st : merge_state) (new_edges : list edge) : option merge_state :=
  match new_edges with
  | [] => Some st
  | e :: rest =>
    match merge_line_edge st e with
    | Some st' => merge_loop st' rest
    | None => None
    end
  end.

(** [merge_line_edges]: the lists after the call and the returned pair
    [(updates, inserts)]. *)
Definition merge_line_edges (records : list edge) (index : gmap EdgeKey nat)
    (new_edges : list edge) : option (list edge * gmap EdgeKey nat * (Z * Z)) :=
  match merge_loop (mkMerge records index 0 0) new_edges with
  | Some st => Some (st_records st, st_index st, (updates st, inserts st))
  | None => None
  end.

(** The weight the store holds for a key: the record the index points to. *)
Definition stored (records : list edge) (index : gmap EdgeKey nat)
    (key : EdgeKey) : option Z :=
  match index !! key with
  | Some idx => time <$> records !! idx
  | None => None
  end.

(** Every index entry points to a record of that key, as after
    [load_line_records] on a file without blank lines. *)
Definition index_ok (records : list edge) (index : gmap EdgeKey nat) : Prop :=
  ∀ key idx, index !! key = Some idx →
    ∃ r, records !! idx = Some r ∧ edge_key r = key.

(** The weights a list of edges offers for a key, in order. *)
Definition offered (key : EdgeKey) (new_edges : list edge) : list Z :=
  map time (List.filter (fun e => bool_decide (edge_key e = key)) new_edges).

(** The least weight observed: what was stored, then each offered weight. *)
Definition least_observed (before : option Z) (offers : list Z) : option Z :=
  fold_left (fun acc t => Some (match acc with Some w => Z.min w t | None => t end))
            offers before.

(** A [lines.jsonl] with a blank line inside, and an edge offered for a key
    the file holds after the blank line. *)
Definition blank_line_file : list (option edge) :=
  [ Some (mkEdge "A" "GROUND" "B" "GROUND" 10);
    None;
    Some (mkEdge "B" "GROUND" "C" "GROUND" 20);
    Some (mkEdge "C" "GROUND" "D" "GROUND" 30) ].

Definition blank_line_offer : edge := mkEdge "B" "GROUND" "C" "GROUND" 1.

(** ** update_national_network.py: station records *)

(** The scalar values of a decoded JSON object. *)
Inductive jvalue :=
  | JNull
  | JBool (b : bool)
  | JInt (z : Z)
  | JFloat (q : Q)
  | JStr (s : string).

(** A station record of [stations.jsonl]: a [dict] from field names to
    values. *)
Abbreviation record := (gmap string jvalue).

(** [bool(v)] *)
Definition truthy (v : jvalue) : bool :=
  match v with
  | JNull => false
  | JBool b => b
  | JInt z => negb (z =? 0)
  | JFloat q => negb (Qeq_bool q 0)
  | JStr s => negb (bool_decide (s = ""))
  end.

(** [a or b] *)
Definition py_or (a b : jvalue) : jvalue := if truthy a then a else b.

Definition of_str (o : option string) : jvalue :=
  match o with Some s => JStr s | None => JNull end.

Definition of_float (o : option Q) : jvalue :=
  match o with Some q => JFloat q | None => JNull end.

(** [record.get(k)] *)
Definition get (r : record) (k : string) : jvalue := default JNull (r !! k).

(** [record.setdefault(k, v)] *)
Definition setdefault (k : string) (v : jvalue) (r : record) : record :=
  match r !! k with Some _ => r | None => <[k := v]> r end.

(** [if v: record[k] = v] *)
Definition set_if (k : string) (v : jvalue) (r : record) : record :=
  if truthy v then <[k := v]> r else r.

(** [load_station_records] over the decoded lines of [stations.jsonl].  A
    record without a station id is skipped; one whose id is not a string
    cannot go through [startswith] later and is the [None] here. *)
Definition load_station_step (acc : option (gmap string record)) (data : record)
  : option (gmap string record) :=
  records ← acc;
  let station_id := get data "station_id" in
  if negb (truthy station_id) then Some records
  else match station_id with
       | JStr s => Some (<[s := data]> records)
       | _ => None
       end.

Definition load_station_records (lines : list record) : option (gmap string record) :=
  fold_left load_station_step lines (Some ∅).

(** The assignments of the first loop of [merge_station_metadata] on one
    record. *)
Definition merged_record (station_id : string) (meta : StationMetadata)
    (r : record) : record :=
  let r := <["station_name" :=
              py_or (py_or (of_str (name meta)) (get r "station_name")) (JStr station_id)]> r in
  let r := <["code" :=
              py_or (py_or (of_str (three_alpha meta)) (get r "code")) (JStr (tiploc meta))]> r in
  let r := <["latitude" := of_float (latitude meta)]> r in
  let r := <["longitude" := of_float (longitude meta)]> r in
  let r := <["tiploc" := JStr (tiploc meta)]> r in
  let r := set_if "atco_code" (of_str (atco_code meta)) r in
  let r := set_if "naptan_code" (of_str (naptan_code meta)) r in
  let r := set_if "locality" (of_str (locality_name meta)) r in
  r.

(** One iteration of the first loop of [merge_station_metadata]. *)
Definition merge_station (existing : gmap string record)
    (item : string * StationMetadata) : gmap string record :=
  let '(station_id, meta) := item in
  let r := default {[ "station_id" := JStr station_id ]} (existing !! station_id) in
  <[station_id := merged_record station_id meta r]> existing.

(** The second loop: the three defaults. *)
Definition set_defaults (r : record) : record :=
  setdefault "longitude" JNull (setdefault "latitude" JNull (setdefault "code" JNull r)).

(** [merge_station_metadata]; [national_stations] in the order of its
    items. *)
Definition merge_station_metadata (existing : gmap string record)
    (national_stations : list (string * StationMetadata)) : gmap string record :=
  set_defaults <$> fold_left merge_station national_stations existing.

(** [filter_ground_nodes] *)
Definition is_hub_id (station_id : string) : bool := Py.startswith station_id "HUB".

Definition filter_ground_nodes (records : gmap string record) : gmap string record :=
  filter (fun kv => is_hub_id kv.1 = false) records.

(** ** update_national_network.py: ensure_unique_station_names *)

(** [sorted] on strings: code point order. *)
Definition str_le (a b : string) : Prop := String.leb a b = true.

#[local] Instance str_le_dec a b : Decision (str_le a b).
Proof. unfold str_le. apply _. Defined.

Definition sorted_ids (ids : list string) : list string := merge_sort str_le ids.

(** [v.casefold()], an [AttributeError] on anything but a string. *)
Definition as_str (v : jvalue) : option string :=
  match v with JStr s => Some s | _ => None end.

Section Names.

(** [str(x)] of a float, which the f-string formatting of a numeric code
    would call. *)
Variable float_repr : Q → string.

(** [f"{v}"] *)
Definition format_value (v : jvalue) : string :=
  match v with
  | JNull => "None"
  | JBool true => "True"
  | JBool false => "False"
  | JInt z => pretty z
  | JFloat q => float_repr q
  | JStr s => s
  end.

(** First loop: every record gets its name written back, and the station
    ids are grouped by folded name. *)
Definition group_step
    (acc : option (gmap string record * gmap string (list string)))
    (item : string * record)
  : option (gmap string record * gmap string (list string)) :=
  '(records, name_groups) ← acc;
  let '(station_id, r) := item in
  let name := py_or (get r "station_name") (JStr station_id) in
  key ← Py.casefold <$> as_str name;
  Some (<[station_id := <["station_name" := name]> r]> records,
        <[key := default [] (name_groups !! key) ++ [station_id]]> name_groups).

(** The [while] loop: the first of [new_name], [new_name #1], [new_name #2],
    ... whose folded form is not in [seen].  [rename_step] gives it one unit
    of fuel more than [seen] has elements, which is enough
    ([find_candidate_total]). *)
Fixpoint find_candidate (fuel : nat) (seen : gset string) (new_name : string)
    (candidate : string) (counter : Z) : option string :=
  if bool_decide (Py.casefold candidate ∈ seen) then
    match fuel with
    | O => None
    | S fuel' =>
      find_candidate fuel' seen new_name
        (new_name +:+ " #" +:+ pretty counter) (counter + 1)
    end
  else Some candidate.

(** The body of the loop over [enumerate(sorted(station_ids))]. *)
Definition rename_step (acc : option (gmap string record * gset string))
    (item : nat * string) : option (gmap string record * gset string) :=
  '(records, seen) ← acc;
  let '(idx, station_id) := item in
  r ← records !! station_id;
  let base := py_or (get r "station_name") (JStr station_id) in
  new_name ←
    (if bool_decide (idx = 0%nat) then as_str base
     else
       let suffix := py_or (py_or (get r "code") (get r "tiploc")) (JStr station_id) in
       Some (format_value base +:+ " [" +:+ format_value suffix +:+ "]"));
  candidate ← find_candidate (S (size seen)) seen new_name new_name 1;
  Some (<[station_id := <["station_name" := JStr candidate]> r]> records,
        {[ Py.casefold candidate ]} ∪ seen).

(** The body of the loop over [name_groups.values()]. *)
Definition rename_group (acc : option (gmap string record))
    (station_ids : list string) : option (gmap string record) :=
  records ← acc;
  if (length station_ids <=? 1)%nat then Some records
  else
    fst <$> fold_left rename_step
              (imap (fun idx station_id => (idx, station_id)) (sorted_ids station_ids))
              (Some (records, ∅)).

Definition ensure_unique_station_names (records : gmap string record)
  : option (gmap string record) :=
  '(records, name_groups) ←
     fold_left group_step (map_to_list records) (Some (records, ∅));
  fold_left rename_group (snd <$> map_to_list name_groups) (Some records).

(** [write_station_records]: the lines written, in the order of the sorted
    ids. *)
Definition write_station_records (records : gmap string record) : list record :=
  omap (fun station_id => records !! station_id)
       (sorted_ids (fst <$> map_to_list records)).

(** The station half of [main]: what is written to [stations.jsonl], from
    the decoded lines of the file and the stations of the national graph. *)
Definition main_stations (lines : list record)
    (national_stations : list (string * StationMetadata)) : option (list record) :=
  station_records ← load_station_records lines;
  let station_records := merge_station_metadata station_records national_stations in
  let station_records := filter_ground_nodes station_records in
  station_records ← ensure_unique_station_names station_records;
  Some (write_station_records station_records).

End Names.

(** ** graph_times.py *)

(** A node is the pair [(station_id, line_token)]. *)
Definition node : Type := string * string.

(** The inner dictionaries of the graph keep their insertion order, which is
    the order [dijkstra] relaxes the neighbours in. *)
Definition adjacency : Type := list (node * Z).

(** [d[k] = v] on an ordered dictionary. *)
Fixpoint assoc_set (k : node) (v : Z) (d : adjacency) : adjacency :=
  match d with
  | [] => [(k, v)]
  | (k', v') :: d' =>
    if bool_decide (k' = k) then (k, v) :: d' else (k', v') :: assoc_set k v d'
  end.

(** [build_graph] over the decoded lines of [lines.jsonl]. *)
Definition build_graph_step (graph : gmap node adjacency) (data : edge)
  : gmap node adjacency :=
  let key1 := (from_id data, from_line data) in
  let key2 := (to_id data, to_line data) in
  <[key1 := assoc_set key2 (time data) (default [] (graph !! key1))]> graph.

Definition build_graph (lines : list edge) : gmap node adjacency :=
  fold_left build_graph_step lines ∅.

(** [distances]: a missing key reads as [float('inf')], here [None]. *)
Definition dist_lt (d : Z) (current : option Z) : bool :=
  match current with Some c => d <? c | None => true end.

Definition dist_gt (d : Z) (current : option Z) : bool :=
  match current with Some c => c <? d | None => false end.

(** The order of the heap entries [(distance, node)]: tuple comparison. *)
Definition node_leb (a b : node) : bool :=
  match String.compare a.1 b.1 with
  | Lt => true
  | Gt => false
  | Eq => String.leb a.2 b.2
  end.

Definition entry_leb (a b : Z * node) : bool :=
  (a.1 <? b.1) || ((a.1 =? b.1) && node_leb a.2 b.2).

(** [heappop]: the least entry and the entries left. *)
Fixpoint heappop (pq : list (Z * node)) : option ((Z * node) * list (Z * node)) :=
  match pq with
  | [] => None
  | x :: pq' =>
    match heappop pq' with
    | None => Some (x, [])
    | Some (y, rest) =>
      if entry_leb x y then Some (x, pq') else Some (y, x :: rest)
    end
  end.

(** [heappush] *)
Definition heappush (pq : list (Z * node)) (x : Z * node) : list (Z * node) := x :: pq.

(** The body of the loop over [graph[current].items()]. *)
Definition relax (current_distance : Z)
    (acc : gmap node Z * list (Z * node)) (item : node * Z)
  : gmap node Z * list (Z * node) :=
  let '(distances, pq) := acc in
  let '(neighbor, weight) := item in
  let distance := current_distance + weight in
  if dist_lt distance (distances !! neighbor) then
    (<[neighbor := distance]> distances, heappush pq (distance, neighbor))
  else (distances, pq).

(** The [while pq] loop, one iteration per unit of fuel; [None] when the
    fuel runs out before the queue does. *)
Fixpoint dijkstra_loop (fuel : nat) (graph : gmap node adjacency)
    (distances : gmap node Z) (pq : list (Z * node)) : option (gmap node Z) :=
  match heappop pq with
  | None => Some distances
  | Some ((current_distance, current), pq) =>
    match fuel with
    | O => None
    | S fuel =>
      if dist_gt current_distance (distances !! current) then
        dijkstra_loop fuel graph distances pq
      else
        let '(distances, pq) :=
          fold_left (relax current_distance) (default [] (graph !! current))
                    (distances, pq) in
        dijkstra_loop fuel graph distances pq
    end
  end.

Definition dijkstra (fuel : nat) (graph : gmap node adjacency) (start : node)
  : option (gmap node Z) :=
  dijkstra_loop fuel graph {[ start := 0 ]} [(0, start)].

(** [is_ground_node] *)
Definition is_ground_node (n : node) : bool := bool_decide (n.2 = "GROUND").

(** A line of [shortest_paths.jsonl]. *)
Record path_row := mkRow {
  from_station : string;
  to_station : string;
  row_time : Z
}.

(** The nodes collected by [main]: the keys of the graph and their
    neighbours. *)
Definition graph_nodes (graph : gmap node adjacency) : gset node :=
  dom graph ∪ ⋃ ((fun adj : adjacency => list_to_set (fst <$> adj)) <$> (snd <$> map_to_list graph)).

(** The rows written for one source. *)
Definition rows_from (nodes : list node) (start : node) (distances : gmap node Z)
  : list path_row :=
  omap (fun stop : node =>
          match distances !! stop with
          | Some d =>
            if negb (bool_decide (start = stop)) && is_ground_node stop
            then Some (mkRow start.1 stop.1 d) else None
          | None => None
          end) nodes.

(** The loop of [main] over the sources, in the order the set is iterated.
    The rows are written as they are found: when a run of [dijkstra] does
    not return within the fuel, the rows of the earlier sources are what the
    file holds, and the flag is [false]. *)
Fixpoint main_loop (fuel : nat) (graph : gmap node adjacency) (nodes : list node)
    (sources : list node) : list path_row * bool :=
  match sources with
  | [] => ([], true)
  | start :: rest =>
    if negb (is_ground_node start) then main_loop fuel graph nodes rest
    else
      match dijkstra fuel graph start with
      | None => ([], false)
      | Some distances =>
        let '(rows, finished) := main_loop fuel graph nodes rest in
        (rows_from nodes start distances ++ rows, finished)
      end
  end.

Definition main (fuel : nat) (lines : list edge) : list path_row * bool :=
  let graph := build_graph lines in
  let nodes := elements (graph_nodes graph) in
  main_loop fuel graph nodes nodes.

(** ** The specification's own formulas, for comparison *)

(** The headway in the words of the specification: the least of all the
    consecutive gaps of the sorted departures and the wrap-around gap. *)
Definition headway_as_specified (times : list Q) : Q :=
  if (length times <? 2)%nat then 30%Q
  else
    let sorted_times := sorted times in
    let gaps := map (fun '(a, b) => (b - a)%Q) (consecutive_pairs sorted_times) in
    let wrap := ((default 0%Q (head sorted_times) + inject_Z (24 * 60))
                 - default 0%Q (last sorted_times))%Q in
    py_min (gaps ++ [wrap]).


(** ** Predicates of the statements *)

(** A token as [parse] receives it. *)
Definition tok (s : string) : option string := Some s.

(** A value is a whole number of half minutes. *)
Definition half_integral (q : Q) : Prop := ∃ z : Z, (q == inject_Z z * (1 # 2))%Q.

(** A token whose same-day value, when it has one, is below one day. *)
Definition time_of_day (raw : option string) : Prop :=
  ∀ b, base_minutes raw = Some b → (b < 1440)%Q.

(** What holds of an instance between two calls when it is fed times of
    day: the last value is a number of half minutes before the end of the
    current day. *)
Definition normalizer_ok (self : TimeNormalizer) : Prop :=
  match _last_value self with
  | None => True
  | Some last => (last < day_minutes (_day_offset self + 1))%Q ∧ half_integral last
  end.

(** A lower bound on a list of values, [None] bounding nothing. *)
Definition bounded_below (bound : option Q) (l : list Q) : Prop :=
  match bound with
  | None => True
  | Some b => Forall (Qle b) l
  end.

(** The timing points of a schedule that the catalogue knows, and the
    public stops among them. *)
Definition known_points (metadata : gmap string StationMetadata)
    (seg : schedule_segment) : list schedule_location :=
  List.filter (in_catalogue metadata) (default [] (schedule_location_list seg)).

Definition known_ratio (metadata : gmap string StationMetadata)
    (seg : schedule_segment) : Q :=
  let known := known_points metadata seg in
  if bool_decide (length known = 0%nat) then 0%Q
  else (inject_Z (Z.of_nat (length (List.filter has_public_time known)))
        / inject_Z (Z.of_nat (length known)))%Q.

(** The gaps of the specification: the consecutive gaps of the sorted
    departures, then the wrap-around gap. *)
Definition all_gaps (times : list Q) : list Q :=
  let sorted_times := sorted times in
  map (fun '(a, b) => (b - a)%Q) (consecutive_pairs sorted_times)
  ++ [((default 0%Q (head sorted_times) + inject_Z (24 * 60))
       - default 0%Q (last sorted_times))%Q].

Definition positive_gaps (times : list Q) : list Q :=
  List.filter (Qltb 0) (all_gaps times).

(** [h] is the least element of [l]. *)
Definition is_least (h : Q) (l : list Q) : Prop :=
  In h l ∧ Forall (Qle h) l.



(** Every record sits under its own station id, and no id is that of a
    hub. *)
Definition stations_ok (records : gmap string record) : Prop :=
  ∀ station_id r, records !! station_id = Some r →
    r !! "station_id" = Some (JStr station_id) ∧ is_hub_id station_id = false.

Definition keyed (records : gmap string record) : Prop :=
  ∀ station_id r, records !! station_id = Some r →
    r !! "station_id" = Some (JStr station_id).

(** The graph of the specification's example: GROUND_A, HUB_A, LINE1_A,
    LINE1_B, HUB_B, GROUND_B as the nodes of stations A and B. *)
Definition four_station_lines : list edge :=
  [ mkEdge "A" "GROUND" "A" "HUB" 2;
    mkEdge "A" "HUB" "A" "LINE1" 3;
    mkEdge "A" "LINE1" "B" "LINE1" 10;
    mkEdge "B" "LINE1" "B" "HUB" 2;
    mkEdge "B" "HUB" "B" "GROUND" 2 ].

(** Two persisted stations, one of them a hub placeholder, for the
    examples. *)
Definition example_station_lines : list record :=
  [ {[ "station_id" := JStr "HUBPAD"; "station_name" := JStr "Paddington" ]};
    {[ "station_id" := JStr "940GZZLUPAC"; "station_name" := JStr "Paddington" ]} ].

Definition example_written_station : record :=
  {[ "station_id" := JStr "940GZZLUPAC"; "station_name" := JStr "Paddington";
     "code" := JNull; "latitude" := JNull; "longitude" := JNull ]}.

(** A value that is a string, or that [or] skips. *)
Definition str_or_unset (v : jvalue) : Prop :=
  match v with
  | JStr _ => True
  | _ => truthy v = false
  end.

(** The station names of a catalogue are strings where they are set. *)
Definition names_ok (records : gmap string record) : Prop :=
  ∀ station_id r, records !! station_id = Some r →
    str_or_unset (get r "station_name").

(** A decoded line of [stations.jsonl] whose id and name are strings where
    they are set. *)
Definition typed_line (data : record) : Prop :=
  str_or_unset (get data "station_id") ∧ str_or_unset (get data "station_name").

(** *** The measure of the [while] loop of [dijkstra] *)

(** No edge of the graph has a negative weight. *)
Definition nonneg_graph (graph : gmap node adjacency) : Prop :=
  ∀ u adj v w, graph !! u = Some adj → (v, w) ∈ adj → 0 <= w.

(** The sum of the finite distances. *)
Definition dist_total (distances : gmap node Z) : Z :=
  map_fold (fun _ d acc => d + acc) 0 distances.

(** The number of nodes still at infinity. *)
Definition unreached (nodes : gset node) (distances : gmap node Z) : nat :=
  size (nodes ∖ dom distances).

(** What holds of [distances] and [pq] at the head of the loop, on a graph
    without negative weights. *)
Definition loop_ok (nodes : gset node) (distances : gmap node Z)
    (pq : list (Z * node)) : Prop :=
  (∀ v d, distances !! v = Some d → 0 <= d) ∧
  (∀ d v, (d, v) ∈ pq → 0 <= d) ∧
  dom distances ⊆ nodes.

(** A relaxation that changes [distances] reaches a new node or lowers the
    sum of the distances. *)
Definition relaxed (nodes : gset node) (after before : gmap node Z) : Prop :=
  (unreached nodes after < unreached nodes before)%nat ∨
  (unreached nodes after = unreached nodes before ∧
   dist_total after < dist_total before).

(** The nodes a run from [start] can touch. *)
Definition reachable_nodes (graph : gmap node adjacency) (start : node) : gset node :=
  graph_nodes graph ∪ {[ start ]}.

(** *** Walks of the graph *)

(** [walk graph u v len]: edges of the graph lead from [u] to [v] and their
    weights add up to [len]. *)
Inductive walk (graph : gmap node adjacency) (u : node) : node → Z → Prop :=
  | walk_here : walk graph u u 0
  | walk_step v x adj w len :
      walk graph u v len → graph !! v = Some adj → (x, w) ∈ adj →
      walk graph u x (len + w).

(** Every edge out of [u] has been relaxed from the distance [d]. *)
Definition settled (graph : gmap node adjacency) (distances : gmap node Z)
    (u : node) (d : Z) : Prop :=
  ∀ adj v w, graph !! u = Some adj → (v, w) ∈ adj →
    ∃ d', distances !! v = Some d' ∧ d' <= d + w.

(** No distance went up or back to infinity. *)
Definition lowered (before after : gmap node Z) : Prop :=
  ∀ v d, before !! v = Some d → ∃ d', after !! v = Some d' ∧ d' <= d.

(** What holds of [distances] and [pq] at the head of the loop of
    [dijkstra], on any graph: the distances are weights of walks, the queue
    holds no entry below the distance of its node, and a node whose edges
    are not all relaxed is in the queue at its distance. *)
Definition loop_inv (graph : gmap node adjacency) (start : node)
    (distances : gmap node Z) (pq : list (Z * node)) : Prop :=
  (∀ v d, distances !! v = Some d → walk graph start v d) ∧
  (∀ d v, (d, v) ∈ pq → ∃ d', distances !! v = Some d' ∧ d' <= d) ∧
  (∃ d0, distances !! start = Some d0 ∧ d0 <= 0) ∧
  (∀ u d, distances !! u = Some d → (d, u) ∈ pq ∨ settled graph distances u d).

(** The same in the middle of the loop over the neighbours of [current],
    [relaxed_edges] being the edges already gone through. *)
Definition relax_inv (graph : gmap node adjacency) (start current : node)
    (current_distance : Z) (relaxed_edges : adjacency)
    (distances : gmap node Z) (pq : list (Z * node)) : Prop :=
  (∀ v d, distances !! v = Some d → walk graph start v d) ∧
  (∀ d v, (d, v) ∈ pq → ∃ d', distances !! v = Some d' ∧ d' <= d) ∧
  (∃ d0, distances !! start = Some d0 ∧ d0 <= 0) ∧
  (∀ u d, distances !! u = Some d → (u, d) ≠ (current, current_distance) →
     (d, u) ∈ pq ∨ settled graph distances u d) ∧
  (∀ v w, (v, w) ∈ relaxed_edges →
     ∃ d', distances !! v = Some d' ∧ d' <= current_distance + w).

(** *** The graph as a table of weights *)

(** [d[k]] on an ordered dictionary: the first entry under [k]. *)
Fixpoint assoc_get (k : node) (d : adjacency) : option Z :=
  match d with
  | [] => None
  | (k', v) :: d' => if bool_decide (k' = k) then Some v else assoc_get k d'
  end.

(** [graph[u][v]] where both keys are present. *)
Definition graph_weight (graph : gmap node adjacency) (u v : node) : option Z :=
  match graph !! u with
  | Some adj => assoc_get v adj
  | None => None
  end.

(** The weight of the last line that goes from [u] to [v]. *)
Definition last_weight (lines : list edge) (u v : node) : option Z :=
  fold_left (fun acc data =>
               if bool_decide ((from_id data, from_line data) = u
                               ∧ (to_id data, to_line data) = v)
               then Some (time data) else acc)
            lines None.

(** *** How merge_line_edges grows the store *)

(** From [st] to [st']: the records keep their places and keys and no weight
    goes up, the index keeps its entries, the counters do not go down, and
    the list has grown by the number of inserts. *)
Definition grown (st st' : merge_state) : Prop :=
  (∀ i r, st_records st !! i = Some r →
     ∃ r', st_records st' !! i = Some r' ∧ edge_key r' = edge_key r ∧ time r' <= time r) ∧
  (∀ key idx, st_index st !! key = Some idx → st_index st' !! key = Some idx) ∧
  updates st <= updates st' ∧ inserts st <= inserts st' ∧
  Z.of_nat (length (st_records st')) =
    Z.of_nat (length (st_records st)) + (inserts st' - inserts st).

(** *** update_national_network.py: the line half of main *)

(** [write_line_records]: the lines written, one per record, in order. *)
Definition write_line_records (records : list edge) : list edge := records.

(** Lines 215-220 of [main]: the lines written to [lines.jsonl] and the
    counts printed, from the lines of the file and the national edges. *)
Definition main_lines (lines : list (option edge)) (new_edges : list edge)
  : option (list edge * (Z * Z)) :=
  let '(line_records, line_index) := load_line_records lines in
  match merge_line_edges line_records line_index new_edges with
  | Some (line_records, _, counts) => Some (write_line_records line_records, counts)
  | None => None
  end.

(** The place of the last of [keys] that is [key]. *)
Definition last_pos_keys (keys : list EdgeKey) (key : EdgeKey) : option nat :=
  fold_left (fun acc item => if bool_decide (item.2 = key) then Some item.1 else acc)
            (imap (fun i k => (i, k)) keys) None.

Definition last_pos (records : list edge) (key : EdgeKey) : option nat :=
  last_pos_keys (edge_key <$> records) key.

(** The index holds, for every key, the place of the last record of that
    key: what [load_line_records] builds and [merge_line_edges] keeps. *)
Definition index_last (records : list edge) (index : gmap EdgeKey nat) : Prop :=
  ∀ key, index !! key = last_pos records key.

(** The two nodes of an edge key. *)
Definition key_from (key : EdgeKey) : node := (key.1.1.1, key.1.1.2).
Definition key_to (key : EdgeKey) : node := (key.1.2, key.2).

(** *** The tokens and the times of one schedule *)

(** The instance after a sequence of calls. *)
Definition feed (self : TimeNormalizer) (raws : list (option string)) : TimeNormalizer :=
  fold_left (fun s raw => (parse s raw).2) raws self.

(** The two tokens [extract_stop_events] parses for a location, and none
    for a location it skips before parsing. *)
Definition tokens_of (metadata : gmap string StationMetadata)
    (loc : schedule_location) : list (option string) :=
  if in_catalogue metadata loc && has_public_time loc then
    [ Py.or_str (arrival loc) (public_arrival loc);
      Py.or_str (departure loc) (public_departure loc) ]
  else [].

(** The times of a list of stops, in the order they were parsed. *)
Definition stop_times (stops : list StopEvent) : list Q :=
  flat_map (fun s => option_list (se_arrival s) ++ option_list (se_departure s)) stops.

(** What [extract_stop_events] guarantees of each stop it returns. *)
Definition stop_ok (metadata : gmap string StationMetadata) (s : StopEvent) : Prop :=
  is_Some (metadata !! se_tiploc s) ∧
  se_station_id s = station_id_from_tiploc (se_tiploc s) ∧
  (is_Some (se_arrival s) ∨ is_Some (se_departure s)).

(** *** national_graph.py: hub_id_for_station *)

Definition LONDON_LAT_RANGE : Q * Q := (505 # 10, 522 # 10).
Definition LONDON_LON_RANGE : Q * Q := (-6 # 10, 3 # 10).

(** [hub_id_for_station] *)
Definition hub_id_for_station (meta : StationMetadata) : string :=
  match three_alpha meta, latitude meta, longitude meta with
  | Some alpha, Some lat, Some lon =>
    if Py.truthy_str (Some alpha)
       && Qleb LONDON_LAT_RANGE.1 lat && Qleb lat LONDON_LAT_RANGE.2
       && Qleb LONDON_LON_RANGE.1 lon && Qleb lon LONDON_LON_RANGE.2
    then "HUB" +:+ Py.upper alpha
    else "HUBNR_" +:+ Py.upper (tiploc meta)
  | _, _, _ => "HUBNR_" +:+ Py.upper (tiploc meta)
  end.

(** An example schedule and catalogue. *)
Definition example_catalogue : gmap string StationMetadata :=
  {[ "PADTON" := mkStationMetadata "PADTON" (Some "London Paddington") (Some "PAD")
                   None None (Some (515 # 10)) (Some (-2 # 10)) None;
     "RDNGSTN" := mkStationMetadata "RDNGSTN" (Some "Reading") (Some "RDG")
                   None None (Some (514 # 10)) (Some (-97 # 100)) None ]}.

Definition example_segment : schedule_segment :=
  mkSegment (Some "OO") (Some
    [ mkLocation (Some "PADTON") None (Some "2350") None (Some "2350");
      mkLocation (Some "ACTONW") None None None (Some "2356H");
      mkLocation (Some "RDNGSTN") (Some "0015") None (Some "0014H") None ]).

(** [ensure_unique_station_names] relative to the catalogue it was given:
    no station is lost, none is added, and no field but the name is
    touched. *)
Definition renamed_from (records current : gmap string record) : Prop :=
  (∀ sid, is_Some (records !! sid) → is_Some (current !! sid)) ∧
  (∀ sid r', current !! sid = Some r' →
     ∃ r, records !! sid = Some r ∧ ∀ f, f ≠ "station_name" → r' !! f = r !! f).

(** *** national_graph.py: build_national_graph as a whole *)

(** A [dict] in insertion order. *)
Section OrderedDict.

Context {K V : Type} `{EqDecision K}.

(** [d.get(k)] *)
Fixpoint od_get (k : K) (d : list (K * V)) : option V :=
  match d with
  | [] => None
  | (k', v) :: d' => if decide (k' = k) then Some v else od_get k d'
  end.

(** [d[k] = v]: in place when the key is there, at the end otherwise. *)
Fixpoint od_set (k : K) (v : V) (d : list (K * V)) : list (K * V) :=
  match d with
  | [] => [(k, v)]
  | (k', v') :: d' =>
    if decide (k' = k) then (k, v) :: d' else (k', v') :: od_set k v d'
  end.

(** [d.setdefault(k, v)] *)
Definition od_setdefault (k : K) (v : V) (d : list (K * V)) : list (K * V) :=
  match od_get k d with
  | Some _ => d
  | None => od_set k v d
  end.

End OrderedDict.

(** [x % (24 * 60)] on a float: the remainder has the sign of the
    divisor. *)
Definition mod_day (x : Q) : Q :=
  (x - inject_Z (24 * 60) * inject_Z (Qfloor (x / inject_Z (24 * 60))))%Q.

(** The three dictionaries of [build_national_graph] and its counter. *)
Record build_state := mkBuild {
  edge_costs : list (EdgeKey * Q);
  departures : list ((string * string) * list Q);
  station_usage : list (string * StationMetadata);
  processed : Z
}.

Record NationalGraphResult := mkResult {
  edges : list edge;
  headways : list ((string * string) * Q);
  stations : list (string * StationMetadata)
}.

(** Lines 257-258; [None] is the [KeyError] of [catalogue[stop.tiploc]]. *)
Definition register_stop (catalogue : gmap string StationMetadata)
    (usage : option (list (string * StationMetadata))) (stop : StopEvent)
  : option (list (string * StationMetadata)) :=
  usage ← usage;
  meta ← catalogue !! se_tiploc stop;
  Some (od_setdefault (se_station_id stop) meta usage).

(** Lines 260-279 on the ordered dictionary. *)
Definition record_travel (line_name : string)
    (costs : list (EdgeKey * Q)) (pair : StopEvent * StopEvent) : list (EdgeKey * Q) :=
  let '(current_stop, next_stop) := pair in
  match se_departure current_stop, se_arrival next_stop with
  | Some dep, Some arr =>
    let travel_minutes := (arr - dep)%Q in
    if Qltb travel_minutes MIN_TRAVEL_MINUTES then costs
    else
      let key := (se_station_id current_stop, line_name,
                  se_station_id next_stop, line_name) in
      match od_get key costs with
      | None => od_set key travel_minutes costs
      | Some existing =>
        if Qltb travel_minutes existing then od_set key travel_minutes costs
        else costs
      end
  | _, _ => costs
  end.

(** Lines 280-284. *)
Definition record_departure (line_name : string)
    (deps : list ((string * string) * list Q)) (stop : StopEvent)
  : list ((string * string) * list Q) :=
  match se_departure stop with
  | Some dep =>
    let key := (se_station_id stop, line_name) in
    od_set key (default [] (od_get key deps) ++ [mod_day dep]) deps
  | None => deps
  end.

(** The body of the loop over the schedules for a schedule that is kept. *)
Definition process_schedule (catalogue : gmap string StationMetadata)
    (st : build_state) (line_name : string) (stops_list : list StopEvent)
  : option build_state :=
  usage ← fold_left (register_stop catalogue) stops_list (Some (station_usage st));
  let costs := fold_left (record_travel line_name)
                 (zip stops_list (tail stops_list)) (edge_costs st) in
  let deps := fold_left (record_departure line_name) stops_list (departures st) in
  Some (mkBuild costs deps usage (processed st + 1)).

(** The loop over the schedules, with its [continue]s and its [break]. *)
Fixpoint schedule_loop (catalogue : gmap string StationMetadata) (limit : option Z)
    (schedules : list schedule) (st : build_state) : option build_state :=
  match schedules with
  | [] => Some st
  | sch :: rest =>
    match schedule_line sch catalogue with
    | None => schedule_loop catalogue limit rest st
    | Some (line_name, stops_list) =>
      match process_schedule catalogue st line_name stops_list with
      | None => None
      | Some st' =>
        match limit with
        | Some l => if l <=? processed st' then Some st'
                    else schedule_loop catalogue limit rest st'
        | None => schedule_loop catalogue limit rest st'
        end
      end
    end
  end.

(** Lines 331-370: the four connectors of a station. *)
Definition ground_edges_of (item : string * StationMetadata) : list edge :=
  let '(station_id, meta) := item in
  let hub_id := hub_id_for_station meta in
  [ mkEdge station_id "GROUND" station_id "HUB" GROUND_TO_HUB_MINUTES;
    mkEdge station_id "HUB" station_id "GROUND" GROUND_TO_HUB_MINUTES;
    mkEdge hub_id "HUB" station_id "HUB" GROUND_TO_HUB_MINUTES;
    mkEdge station_id "HUB" hub_id "HUB" GROUND_TO_HUB_MINUTES ].

(** Lines 292-302. *)
Definition platform_edge_of (item : EdgeKey * Q) : edge :=
  let '((a, l, b, l'), value) := item in mkEdge a l b l' (Qceiling value).

(** [build_national_graph], from the catalogue that
    [build_station_catalogue] returns and the schedules that
    [iter_schedules] yields. *)
Definition build_national_graph (catalogue : gmap string StationMetadata)
    (schedules : list schedule) (limit : option Z) : option NationalGraphResult :=
  st ← schedule_loop catalogue limit schedules (mkBuild [] [] [] 0);
  let headways := compute_headways (departures st) in
  let platform_edges := platform_edge_of <$> edge_costs st in
  let platform_edges := platform_edges ++ hub_edges (station_usage st) headways in
  let platform_edges := platform_edges ++ flat_map ground_edges_of (station_usage st) in
  Some (mkResult platform_edges headways (station_usage st)).

Definition example_schedule : schedule :=
  mkSchedule (Some example_segment) (Some "GW").

(** A time of day in minutes. *)
Definition in_day (x : Q) : Prop := (0 <= x < 1440)%Q.

(** What holds of the three dictionaries after every schedule: a cost is
    never below the least travel time and joins two used stations; a used
    station comes from the catalogue and carries the id of its location;
    the departures are times of day at used stations. *)
Definition build_ok (catalogue : gmap string StationMetadata) (st : build_state) : Prop :=
  (∀ key value, (key, value) ∈ edge_costs st →
     (MIN_TRAVEL_MINUTES <= value)%Q ∧
     key.1.1.1 ∈ (fst <$> station_usage st) ∧ key.1.2 ∈ (fst <$> station_usage st)) ∧
  (∀ station_id meta, (station_id, meta) ∈ station_usage st →
     ∃ t, catalogue !! t = Some meta ∧ station_id = station_id_from_tiploc t) ∧
  (∀ key times, (key, times) ∈ departures st →
     Forall in_day times ∧ key.1 ∈ (fst <$> station_usage st)).

(** * Properties *)

(** ** Rational comparisons *)

Lemma Qltb_lt x y : Qltb x y = true <-> (x < y)%Q.
Proof.
  unfold Qltb. rewrite negb_true_iff. split.
  - intros H. apply Qnot_le_lt. intros Hle.
    apply Qle_bool_iff in Hle. congruence.
  - intros H. destruct (Qle_bool y x) eqn:E; [|done].
    apply Qle_bool_iff in E. exfalso. eapply Qlt_not_le; eauto.
Qed.

Lemma Qltb_ge x y : Qltb x y = false <-> (y <= x)%Q.
Proof.
  unfold Qltb. rewrite negb_false_iff. apply Qle_bool_iff.
Qed.

Lemma Qleb_le x y : Qleb x y = true <-> (x <= y)%Q.
Proof. apply Qle_bool_iff. Qed.

(** ** TimeNormalizer *)

Lemma half_integral_inject z : half_integral (inject_Z z).
Proof.
  exists (2 * z). rewrite inject_Z_mult. change (inject_Z 2) with 2%Q. lra.
Qed.

Lemma half_integral_plus a b : half_integral a → half_integral b → half_integral (a + b).
Proof.
  intros [x Hx] [y Hy]. exists (x + y). rewrite inject_Z_plus, Hx, Hy. lra.
Qed.

Lemma half_integral_half : half_integral (1 # 2).
Proof. exists 1. change (inject_Z 1) with 1%Q. lra. Qed.

Lemma half_integral_zero : half_integral 0.
Proof. exists 0. change (inject_Z 0) with 0%Q. lra. Qed.

(** Two half-integral values that the epsilon test does not separate are in
    order. *)
Lemma half_integral_epsilon a b :
  half_integral a → half_integral b → (b <= a + epsilon)%Q → (b <= a)%Q.
Proof.
  intros [x Hx] [y Hy] H.
  destruct (Z_lt_le_dec x y) as [Hlt | Hle].
  - exfalso. assert (inject_Z (x + 1) <= inject_Z y)%Q as H1.
    { rewrite <- Zle_Qle. lia. }
    rewrite inject_Z_plus in H1. change (inject_Z 1) with 1%Q in H1.
    unfold epsilon in H. lra.
  - rewrite Zle_Qle in Hle. lra.
Qed.

Lemma day_minutes_succ d : (day_minutes (d + 1) == day_minutes d + 1440)%Q.
Proof.
  unfold day_minutes.
  replace ((d + 1) * 24 * 60) with (d * 24 * 60 + 1440) by lia.
  rewrite inject_Z_plus. reflexivity.
Qed.

Lemma half_integral_day d : half_integral (day_minutes d).
Proof. apply half_integral_inject. Qed.

Lemma int_of_digits_acc_nonneg l acc :
  forallb Py.is_digit_char l = true → 0 <= acc →
  0 <= fold_left (fun acc c => 10 * acc + Py.digit_value c) l acc.
Proof.
  revert acc. induction l as [|c l IH]; simpl; intros acc Hd Hacc; [done|].
  apply andb_true_iff in Hd as [Hc Hl]. apply IH; [done|].
  unfold Py.is_digit_char in Hc. apply andb_true_iff in Hc as [Hc1 Hc2].
  apply Nat.leb_le in Hc1. unfold Py.digit_value. lia.
Qed.

Lemma int_of_digits_nonneg l :
  forallb Py.is_digit_char l = true → 0 <= Py.int_of_digits l.
Proof. intros. apply int_of_digits_acc_nonneg; [done|lia]. Qed.

Lemma forallb_take {A} (f : A → bool) n l :
  forallb f l = true → forallb f (take n l) = true.
Proof.
  revert n. induction l as [|x l IH]; intros [|n]; simpl; try done.
  intros H. apply andb_true_iff in H as [-> Hl]. simpl. by apply IH.
Qed.

Lemma forallb_drop {A} (f : A → bool) n l :
  forallb f l = true → forallb f (drop n l) = true.
Proof.
  revert n. induction l as [|x l IH]; intros [|n]; simpl; try done.
  intros H. apply andb_true_iff in H as [_ Hl]. by apply IH.
Qed.

Lemma chars_str l : Py.chars (Py.str l) = l.
Proof. apply String.list_ascii_of_string_of_list_ascii. Qed.

Lemma str_chars s : Py.str (Py.chars s) = s.
Proof. apply String.string_of_list_ascii_of_string. Qed.

Lemma isdigit_forallb l : Py.isdigit (Py.str l) = true → forallb Py.is_digit_char l = true.
Proof.
  unfold Py.isdigit. rewrite chars_str. by destruct l.
Qed.

(** What [parse] reads off a token is a non-negative number of half
    minutes. *)
Lemma base_minutes_shape raw b :
  base_minutes raw = Some b → (0 <= b)%Q ∧ half_integral b.
Proof.
  unfold base_minutes. destruct raw as [r|]; [|done].
  case_bool_decide; [done|].
  set (half := Py.endswith _ _). set (token := if half then _ else _).
  destruct (_ || _)%bool eqn:E; [done|]. intros [= <-].
  apply orb_false_iff in E as [_ Hd]. apply negb_false_iff in Hd.
  apply isdigit_forallb in Hd.
  assert (0 <= Py.int_of_digits (Py.drop_last 2 token)) as Hh.
  { apply int_of_digits_nonneg. by apply forallb_take. }
  assert (0 <= Py.int_of_digits (Py.last_n 2 token)) as Hm.
  { apply int_of_digits_nonneg. by apply forallb_drop. }
  split.
  - assert (0 <= inject_Z (Py.int_of_digits (Py.drop_last 2 token) * 60
                           + Py.int_of_digits (Py.last_n 2 token)))%Q.
    { change 0%Q with (inject_Z 0). rewrite <- Zle_Qle. lia. }
    destruct half; lra.
  - apply half_integral_plus; [apply half_integral_inject|].
    destruct half; [apply half_integral_half | apply half_integral_zero].
Qed.

Lemma parse_none self raw :
  base_minutes raw = None → parse self raw = (None, self).
Proof. unfold parse. by intros ->. Qed.

(** One call on a time of day: the value returned is not below the last
    value, the new last value is not below the value returned, and the
    instance stays well-formed. *)
Lemma parse_step self raw b :
  normalizer_ok self → base_minutes raw = Some b → (b < 1440)%Q →
  ∃ v self', parse self raw = (Some v, self') ∧ normalizer_ok self' ∧
    bounded_below (_last_value self) [v] ∧
    ∃ last', _last_value self' = Some last' ∧ (v <= last')%Q ∧
      bounded_below (_last_value self) [last'].
Proof.
  intros Hok Hb Hday. destruct (base_minutes_shape _ _ Hb) as [Hpos Hhalf].
  unfold parse. rewrite Hb. destruct self as [d [last|]];
    unfold normalizer_ok, bounded_below in *; simpl in *.
  - destruct Hok as [Hlast Hl].
    pose proof (day_minutes_succ d) as Hd.
    pose proof (day_minutes_succ (d + 1)) as Hd'.
    destruct (Qltb (b + day_minutes d + epsilon) last) eqn:Hroll.
    + apply Qltb_lt in Hroll.
      assert (last < b + day_minutes (d + 1))%Q as Hlt by lra.
      apply Qltb_lt in Hlt as Hlt'. rewrite Hlt'.
      eexists _, _. split; [reflexivity|]. simpl. repeat split.
      * lra.
      * apply half_integral_plus; [done | apply half_integral_day].
      * constructor; [lra | constructor].
      * eexists. split; [reflexivity|]. split; [lra|].
        constructor; [lra | constructor].
    + apply Qltb_ge in Hroll.
      assert (last <= b + day_minutes d)%Q as Hle.
      { apply half_integral_epsilon; [|done|done].
        apply half_integral_plus; [done | apply half_integral_day]. }
      destruct (Qltb last (b + day_minutes d)) eqn:Hnew.
      * eexists _, _. split; [reflexivity|]. simpl. repeat split.
        -- lra.
        -- apply half_integral_plus; [done | apply half_integral_day].
        -- constructor; [lra | constructor].
        -- eexists. split; [reflexivity|]. split; [lra|].
           constructor; [lra | constructor].
      * apply Qltb_ge in Hnew.
        eexists _, _. split; [reflexivity|]. simpl. repeat split.
        -- lra.
        -- done.
        -- constructor; [lra | constructor].
        -- eexists. split; [reflexivity|]. split; [lra|].
           constructor; [lra | constructor].
  - pose proof (day_minutes_succ d) as Hd.
    eexists _, _. split; [reflexivity|]. simpl. repeat split.
    + lra.
    + apply half_integral_plus; [done | apply half_integral_day].
    + eexists. split; [reflexivity|]. split; [lra | done].
Qed.

Lemma bounded_below_weaken a b l :
  bounded_below (Some b) l → (a <= b)%Q → bounded_below (Some a) l.
Proof.
  simpl. intros H Hab. eapply Forall_impl; [exact H|].
  intros x Hx. simpl in Hx. lra.
Qed.

(** The values returned from a well-formed instance on: in order, and none
    below the last value. *)
Lemma returned_sorted raws : ∀ self,
  normalizer_ok self → Forall time_of_day raws →
  StronglySorted Qle (returned self raws) ∧
  bounded_below (_last_value self) (returned self raws).
Proof.
  induction raws as [|raw raws IH]; intros self Hok Hraws.
  - split; [constructor|]. unfold bounded_below, returned. simpl.
    by destruct (_last_value self).
  - apply Forall_cons in Hraws as [Hraw Hraws].
    unfold returned. simpl.
    destruct (base_minutes raw) as [b|] eqn:Hb.
    + destruct (parse_step self raw b Hok Hb (Hraw b Hb))
        as (v & self' & Hp & Hok' & Hlow & last' & Hlast' & Hv & Hlow').
      rewrite Hp. simpl.
      destruct (IH self' Hok' Hraws) as [Hs Hbd].
      rewrite Hlast' in Hbd. fold (returned self' raws).
      split.
      * constructor; [done|]. eapply bounded_below_weaken; eauto.
      * destruct (_last_value self) as [last|]; simpl in *; [|done].
        constructor.
        -- by apply Forall_cons in Hlow as [? _].
        -- apply Forall_cons in Hlow' as [? _].
           eapply bounded_below_weaken; eauto.
    + rewrite (parse_none _ _ Hb). simpl. by apply IH.
Qed.

(** C2 (as amended): fed tokens that are times of day (same-day value below
    1440 minutes), one [TimeNormalizer] instance returns non-[None] values
    that never decrease; and the tokens "2350" then "0010" return 1430 and
    then 1450, which is 1440 more than the same-day value 10. *)
Theorem parse_monotone_on_times_of_day (raws : list (option string)) :
  Forall time_of_day raws →
  StronglySorted Qle (returned TimeNormalizer_init raws) ∧
  parse_all TimeNormalizer_init [tok "2350"; tok "0010"] = [Some 1430%Q; Some 1450%Q] ∧
  base_minutes (tok "0010") = Some 10%Q.
Proof.
  intros Hraws. split; [|split].
  - by apply returned_sorted.
  - vm_compute. reflexivity.
  - vm_compute. reflexivity.
Qed.

Lemma parse_monotone_witness :
  StronglySorted Qle (returned TimeNormalizer_init [tok "2350"; tok "0010"; tok "0015H"; None]) ∧
  parse_all TimeNormalizer_init [tok "2350"; tok "0010"] = [Some 1430%Q; Some 1450%Q] ∧
  base_minutes (tok "0010") = Some 10%Q.
Proof.
  apply (parse_monotone_on_times_of_day [tok "2350"; tok "0010"; tok "0015H"; None]).
  repeat constructor; intros b Hb; vm_compute in Hb; inversion Hb; reflexivity.
Defined.

(** C2 (as stated) fails: "2399" is read as 23 hours 99 minutes, 1479, and
    the "0000" that follows is moved by one day only, to 1440. *)
Lemma parse_not_monotone :
  returned TimeNormalizer_init [tok "2399"; tok "0000"] = [1479%Q; 1440%Q] ∧
  ¬ StronglySorted Qle (returned TimeNormalizer_init [tok "2399"; tok "0000"]).
Proof.
  split; [vm_compute; reflexivity|].
  intros H. assert (returned TimeNormalizer_init [tok "2399"; tok "0000"] = [1479%Q; 1440%Q]) as E
    by (vm_compute; reflexivity).
  rewrite E in H. inversion H as [|? ? _ Hall]; subst.
  apply Forall_cons in Hall as [Hle _]. revert Hle. apply Qlt_not_le. reflexivity.
Qed.

(** ** classify_service *)

Lemma classify_rejected seg ratio toc :
  rejected_category (category_of seg) = true → classify_service seg ratio toc = None.
Proof. unfold classify_service. by intros ->. Qed.

Lemma classify_slow seg ratio toc :
  rejected_category (category_of seg) = false → (7 # 10 <= ratio)%Q →
  classify_service seg ratio toc = Some "slow".
Proof.
  unfold classify_service. intros -> H.
  apply Qleb_le in H. unfold MIN_RATIO_FOR_SLOW. by rewrite H.
Qed.

Lemma classify_express seg ratio toc :
  rejected_category (category_of seg) = false → (ratio < 7 # 10)%Q →
  classify_service seg ratio toc = Some "express".
Proof.
  unfold classify_service. intros -> H.
  destruct (Qleb MIN_RATIO_FOR_SLOW ratio) eqn:E; [|done].
  apply Qleb_le in E. unfold MIN_RATIO_FOR_SLOW in E. lra.
Qed.

(** C6: a schedule whose category code is "BR" is rejected whatever the
    stop-ratio; a schedule whose category is not rejected is "slow" at a
    stop-ratio of exactly 0.70 and "express" at 0.69. *)
Theorem classify_service_thresholds
    (seg_br seg : schedule_segment) (toc : string) (ratio r70 r69 : Q) :
  CIF_train_category seg_br = Some "BR" →
  rejected_category (category_of seg) = false →
  (r70 == 7 # 10)%Q → (r69 == 69 # 100)%Q →
  classify_service seg_br ratio toc = None ∧
  classify_service seg r70 toc = Some "slow" ∧
  classify_service seg r69 toc = Some "express".
Proof.
  intros Hbr Hok H70 H69. split; [|split].
  - apply classify_rejected. unfold category_of. rewrite Hbr. reflexivity.
  - apply classify_slow; [done | lra].
  - apply classify_express; [done | lra].
Qed.

Lemma classify_service_thresholds_witness :
  classify_service (mkSegment (Some "BR") None) 1 "gw" = None ∧
  classify_service (mkSegment (Some "OO") None) (70 # 100) "gw" = Some "slow" ∧
  classify_service (mkSegment (Some "OO") None) (69 # 100) "gw" = Some "express".
Proof.
  apply (classify_service_thresholds (mkSegment (Some "BR") None)
           (mkSegment (Some "OO") None) "gw" 1 (70 # 100) (69 # 100));
    reflexivity.
Defined.

(** ** extract_stop_events *)

(** The two counters after the loop count the known timing points and the
    public stops among them. *)
Lemma extract_counts metadata locations : ∀ st,
  let st' := fold_left (extract_step metadata) locations st in
  total_points st' =
    total_points st + Z.of_nat (length (List.filter (in_catalogue metadata) locations)) ∧
  public_stops st' =
    public_stops st + Z.of_nat (length (List.filter has_public_time
                                  (List.filter (in_catalogue metadata) locations))).
Proof.
  induction locations as [|loc locations IH]; intros st; simpl.
  - split; lia.
  - specialize (IH (extract_step metadata st loc)). simpl in IH.
    destruct IH as [IHt IHp]. rewrite IHt, IHp. clear IHt IHp.
    unfold extract_step.
    destruct (in_catalogue metadata loc) eqn:Hin; simpl; [|split; lia].
    destruct (has_public_time loc) eqn:Hpub; simpl.
    + destruct (parse (normaliser st) _) as [a n1].
      destruct (parse n1 _) as [d n2].
      destruct a, d; simpl; split; lia.
    + split; lia.
Qed.



(** ** compute_headways *)

Lemma py_min_fold l : ∀ x,
  let m := fold_left (fun best y => if Qltb y best then y else best) l x in
  In m (x :: l) ∧ (m <= x)%Q ∧ Forall (Qle m) l.
Proof.
  induction l as [|y l IH]; intros x; simpl.
  - split; [by left|]. split; [lra | constructor].
  - destruct (Qltb y x) eqn:E.
    + apply Qltb_lt in E. destruct (IH y) as (Hin & Hle & Hall). simpl in *.
      split; [tauto|]. split; [lra|]. constructor; [lra | done].
    + apply Qltb_ge in E. destruct (IH x) as (Hin & Hle & Hall). simpl in *.
      split; [tauto|]. split; [lra|]. constructor; [lra | done].
Qed.

(** [min] answers the least element of a non-empty list. *)
Lemma py_min_least l : l ≠ [] → is_least (py_min l) l.
Proof.
  destruct l as [|x l]; [done|]. intros _.
  destruct (py_min_fold l x) as (Hin & Hle & Hall).
  split; [exact Hin|]. constructor; [exact Hle | exact Hall].
Qed.

Lemma Qltb_minus a b : Qltb a b = Qltb 0 (b - a).
Proof.
  destruct (Qltb a b) eqn:E1, (Qltb 0 (b - a)) eqn:E2; try done.
  - apply Qltb_lt in E1. apply Qltb_ge in E2. lra.
  - apply Qltb_ge in E1. apply Qltb_lt in E2. lra.
Qed.

(** The comprehension [[b - a for a, b in ... if b > a]] keeps the positive
    differences. *)
Lemma diffs_positive_gaps (pairs : list (Q * Q)) :
  map (fun '(a, b) => (b - a)%Q) (List.filter (fun '(a, b) => Qltb a b) pairs)
  = List.filter (Qltb 0) (map (fun '(a, b) => (b - a)%Q) pairs).
Proof.
  induction pairs as [|[a b] pairs IH]; simpl; [done|].
  rewrite <- Qltb_minus. destruct (Qltb a b); simpl; by rewrite IH.
Qed.

(** The list [diffs] of [compute_headways], after the wrap-around gap has
    been considered, is the positive part of the gaps of the
    specification. *)
Lemma headway_of_unfold times :
  (2 <= length times)%nat →
  headway_of times =
    match positive_gaps times with
    | [] => 30%Q
    | _ => py_min (positive_gaps times)
    end.
Proof.
  intros Hlen. unfold headway_of, positive_gaps, all_gaps.
  destruct (length times <? 2)%nat eqn:E; [apply Nat.ltb_lt in E; lia|].
  cbv zeta. rewrite diffs_positive_gaps, List.filter_app. simpl.
  destruct (Qltb 0 _); [reflexivity|]. by rewrite app_nil_r.
Qed.

(** When no consecutive gap is positive, the last element is not above the
    first. *)
Lemma no_positive_gap_last (s : list Q) : ∀ x,
  List.filter (Qltb 0) (map (fun '(a, b) => (b - a)%Q) (zip (x :: s) s)) = [] →
  (default x (last (x :: s)) <= x)%Q.
Proof.
  induction s as [|y s IH]; intros x; simpl.
  - intros _. lra.
  - destruct (Qltb 0 (y - x)) eqn:E; [done|]. apply Qltb_ge in E.
    intros H. specialize (IH y H).
    change (last (x :: y :: s)) with (last (y :: s)).
    destruct (last (y :: s)) as [z|] eqn:El; simpl in *; lra.
Qed.

Lemma sorted_length times : length (sorted times) = length times.
Proof. unfold sorted. by rewrite merge_sort_Permutation. Qed.

(** With two departures or more, some gap is positive: the fallback after
    [if not diffs] is never taken. *)
Lemma positive_gaps_nonempty times :
  (2 <= length times)%nat → positive_gaps times ≠ [].
Proof.
  intros Hlen. unfold positive_gaps, all_gaps. cbv zeta.
  rewrite List.filter_app. simpl.
  pose proof (sorted_length times) as Hs.
  destruct (sorted times) as [|x s] eqn:Es; [simpl in Hs; lia|].
  unfold consecutive_pairs. simpl tail. simpl head. simpl default at 1.
  destruct (Qltb 0 (x + inject_Z (24 * 60) - default 0%Q (last (x :: s)))) eqn:E.
  - intros H. apply app_eq_nil in H as [_ H]. discriminate.
  - rewrite app_nil_r. intros H. apply no_positive_gap_last in H.
    apply Qltb_ge in E.
    assert (default 0%Q (last (x :: s)) = default x (last (x :: s))) as Hd.
    { destruct (last (x :: s)) eqn:El; [done|].
      apply last_None in El. discriminate. }
    rewrite Hd in E. change (inject_Z (24 * 60)) with 1440%Q in E. lra.
Qed.

Lemma headway_of_least times :
  (2 <= length times)%nat → is_least (headway_of times) (positive_gaps times).
Proof.
  intros Hlen. rewrite headway_of_unfold by done.
  pose proof (positive_gaps_nonempty times Hlen) as Hne.
  destruct (positive_gaps times) eqn:E; [done|].
  rewrite <- E. apply py_min_least. by rewrite E.
Qed.

Lemma compute_headways_lookup departures key h :
  (key, h) ∈ compute_headways departures ↔
  ∃ times, (key, times) ∈ departures ∧ h = headway_of times.
Proof.
  unfold compute_headways. rewrite list_elem_of_fmap. split.
  - intros [[k times] [[= -> ->] Hin]]. eauto.
  - intros (times & Hin & ->). by exists (key, times).
Qed.

Lemma Sorted_weaken {A} (R1 R2 : A → A → Prop) l :
  (∀ x y, R1 x y → R2 x y) → Sorted R1 l → Sorted R2 l.
Proof.
  intros HR. induction 1 as [|x l Hs IH Hhd]; constructor; [done|].
  destruct Hhd; constructor. by apply HR.
Qed.

Lemma Qle_total_bool_total : Total Qle_total_bool.
Proof.
  intros x y. unfold Qle_total_bool.
  destruct (Qlt_le_dec y x) as [H | H].
  - right. apply Qleb_le. lra.
  - left. by apply Qleb_le.
Qed.

(** [sorted] does sort. *)
Lemma sorted_spec times :
  Sorted Qle (sorted times) ∧ Permutation (sorted times) times.
Proof.
  split.
  - apply (Sorted_weaken Qle_total_bool).
    + intros x y Hxy. by apply Qleb_le.
    + apply (@Sorted_merge_sort _ _ _ Qle_total_bool_total).
  - apply merge_sort_Permutation.
Qed.

(** C7 (as amended): a key with fewer than two departures gets the fallback
    30; a key with two or more gets the least of the strictly positive gaps
    among the consecutive gaps of the sorted departures and the wrap-around
    gap; the departures 100, 130, 160 give 30. *)
Theorem compute_headways_least_positive_gap
    (departures : list ((string * string) * list Q))
    (key : string * string) (times : list Q) :
  (key, times) ∈ departures →
  ∃ h, (key, h) ∈ compute_headways departures ∧
    ((length times < 2)%nat → h = 30%Q) ∧
    ((2 <= length times)%nat → is_least h (positive_gaps times)) ∧
    compute_headways [(key, [100; 130; 160]%Q)] = [(key, 30%Q)].
Proof.
  intros Hin. exists (headway_of times). split; [|split; [|split]].
  - apply compute_headways_lookup. eauto.
  - intros Hlen. unfold headway_of.
    apply Nat.ltb_lt in Hlen. by rewrite Hlen.
  - apply headway_of_least.
  - reflexivity.
Qed.

Lemma compute_headways_least_positive_gap_witness :
  ∃ h, (("910GPADTON", "gw-slow"), h)
         ∈ compute_headways [(("910GPADTON", "gw-slow"), [160; 100; 130]%Q)] ∧
    ((length [160; 100; 130]%Q < 2)%nat → h = 30%Q) ∧
    ((2 <= length [160; 100; 130]%Q)%nat →
       is_least h (positive_gaps [160; 100; 130]%Q)) ∧
    compute_headways [(("910GPADTON", "gw-slow"), [100; 130; 160]%Q)]
      = [(("910GPADTON", "gw-slow"), 30%Q)].
Proof.
  apply (compute_headways_least_positive_gap
           [(("910GPADTON", "gw-slow"), [160; 100; 130]%Q)]).
  constructor.
Defined.

(** C7 (as stated) fails: two equal departures make a gap of zero, which the
    code leaves out; the least of all the gaps is 0 and the headway is 30. *)
Lemma compute_headways_skips_zero_gap :
  compute_headways [(("910GPADTON", "gw-slow"), [100; 100; 130]%Q)]
    = [(("910GPADTON", "gw-slow"), 30%Q)] ∧
  (headway_as_specified [100; 100; 130]%Q == 0)%Q ∧
  ¬ (headway_of [100; 100; 130]%Q == headway_as_specified [100; 100; 130]%Q)%Q.
Proof.
  split; [|split].
  - vm_compute. reflexivity.
  - vm_compute. reflexivity.
  - vm_compute. discriminate.
Qed.

(** The headway of any list of departures is positive. *)
Lemma headway_of_positive times : (0 < headway_of times)%Q.
Proof.
  destruct (Nat.lt_ge_cases (length times) 2) as [Hlt | Hge].
  - unfold headway_of. apply Nat.ltb_lt in Hlt. rewrite Hlt. reflexivity.
  - destruct (headway_of_least times Hge) as [Hin _].
    unfold positive_gaps in Hin. apply List.filter_In in Hin as [_ Hpos].
    by apply Qltb_lt.
Qed.

Lemma In_zip_tail (l : list Q) a b :
  In (a, b) (zip l (tail l)) → In a l ∧ In b l.
Proof.
  intros H. apply list_elem_of_In in H. split; apply list_elem_of_In.
  - by apply elem_of_zip_l in H.
  - apply elem_of_zip_r in H. simpl in H.
    destruct l as [|x l]; simpl in *; [by apply elem_of_nil in H|].
    by right.
Qed.

(** Two or more departures at one and the same time: the only positive gap
    is the full day. *)
Lemma headway_of_identical times t :
  (2 <= length times)%nat → Forall (fun x => (x == t)%Q) times →
  (headway_of times == 1440)%Q.
Proof.
  intros Hlen Hall.
  assert (Forall (fun x => (x == t)%Q) (sorted times)) as Hs.
  { destruct (sorted_spec times) as [_ Hp].
    eapply Permutation_Forall; [|exact Hall]. by symmetry. }
  assert (∀ g, In g (all_gaps times) → (g == 0)%Q ∨ (g == 1440)%Q) as Hg.
  { intros g. unfold all_gaps. cbv zeta. rewrite in_app_iff.
    rewrite Forall_forall in Hs.
    intros [Hin | [<- | []]].
    - left. apply in_map_iff in Hin as ([a b] & <- & Hab).
      apply In_zip_tail in Hab as [Ha Hb].
      apply list_elem_of_In in Ha, Hb.
      rewrite (Hs a Ha), (Hs b Hb). lra.
    - right. pose proof (sorted_length times) as Hl.
      destruct (sorted times) as [|x s] eqn:Es; [simpl in Hl; lia|].
      assert (x == t)%Q as Hx by (apply Hs; by left).
      destruct (last (x :: s)) as [z|] eqn:El.
      + assert (z == t)%Q as Hz.
        { apply Hs. apply last_Some in El as [l' ->].
          apply elem_of_app. right. by left. }
        simpl. change (inject_Z (24 * 60)) with 1440%Q. rewrite Hx, Hz. lra.
      + apply last_None in El. discriminate. }
  destruct (headway_of_least times Hlen) as [Hin _].
  unfold positive_gaps in Hin. apply List.filter_In in Hin as [Hin Hpos].
  apply Qltb_lt in Hpos. destruct (Hg _ Hin) as [H0 | H]; [|done].
  rewrite H0 in Hpos. by apply Qlt_irrefl in Hpos.
Qed.

Lemma wait_minutes_positive h : (0 < h)%Q → (0 < wait_minutes h)%Q.
Proof.
  intros Hh. unfold wait_minutes, MAX_WAIT_MINUTES. cbv zeta.
  destruct (Qltb 25 (h / 2)); [reflexivity|].
  apply Qlt_shift_div_l; lra.
Qed.

Lemma Qceiling_positive x : (0 < x)%Q → 1 <= Qceiling x.
Proof.
  intros Hx. pose proof (Qle_ceiling x) as Hc.
  assert (0 < inject_Z (Qceiling x))%Q as H by lra.
  change 0%Q with (inject_Z 0) in H. rewrite <- Zlt_Qlt in H. lia.
Qed.

(** Every edge built from the headways costs a minute or more. *)
Lemma hub_edges_positive station_usage departures e :
  e ∈ hub_edges station_usage (compute_headways departures) → 1 <= time e.
Proof.
  unfold hub_edges. rewrite list_elem_of_In, in_flat_map.
  intros ([[station_id line_name] h] & Hin & He).
  apply list_elem_of_In, compute_headways_lookup in Hin as (times & _ & ->).
  unfold hub_edges_of in He. destruct (negb _); [destruct He|].
  destruct He as [<- | [<- | []]]; simpl.
  - unfold PLATFORM_TO_HUB_MINUTES. lia.
  - apply Qceiling_positive, wait_minutes_positive, headway_of_positive.
Qed.

(** C10: every headway that [compute_headways] assigns is strictly
    positive; two or more departures that are all at the same time get the
    full day, 1440; and every edge built from the headways, the wait edge
    from the hub onto the line among them, costs at least one minute. *)
Theorem compute_headways_never_zero
    (departures : list ((string * string) * list Q)) :
  (∀ key h, (key, h) ∈ compute_headways departures → (0 < h)%Q) ∧
  (∀ key times t, (key, times) ∈ departures → (2 <= length times)%nat →
     Forall (fun x => (x == t)%Q) times →
     ∃ h, (key, h) ∈ compute_headways departures ∧ (h == 1440)%Q) ∧
  (∀ station_usage e,
     e ∈ hub_edges station_usage (compute_headways departures) → 1 <= time e).
Proof.
  split; [|split].
  - intros key h Hin. apply compute_headways_lookup in Hin as (times & _ & ->).
    apply headway_of_positive.
  - intros key times t Hin Hlen Hall. exists (headway_of times). split.
    + apply compute_headways_lookup. eauto.
    + by apply headway_of_identical with t.
  - intros station_usage e. apply hub_edges_positive.
Qed.

Lemma compute_headways_never_zero_witness :
  let key : string * string := ("910GPADTON", "gw-slow") in
  let departures := [(key, [615; 615; 615]%Q)] in
  let usage := [("910GPADTON", mkStationMetadata "PADTON" None None None None None None None)] in
  (∃ h, (key, h) ∈ compute_headways departures ∧ (h == 1440)%Q) ∧
  1 <= time (mkEdge "910GPADTON" "HUB" "910GPADTON" "gw-slow" 25).
Proof.
  intros key departures usage.
  destruct (compute_headways_never_zero departures) as (_ & Hsame & Hedge).
  split.
  - apply (Hsame key [615; 615; 615]%Q 615%Q).
    + constructor.
    + simpl. lia.
    + repeat constructor.
  - apply (Hedge usage). vm_compute. right. left.
Defined.

(** ** merge_line_edges *)

Lemma least_observed_some w offers :
  ∃ m, least_observed (Some w) offers = Some m ∧ m <= w ∧ Forall (Z.le m) offers.
Proof.
  unfold least_observed. revert w.
  induction offers as [|t offers IH]; intros w; simpl.
  - exists w. split; [done|]. split; [lia | constructor].
  - destruct (IH (Z.min w t)) as (m & -> & Hle & Hall).
    exists m. split; [done|]. split; [lia|]. constructor; [lia | done].
Qed.

Lemma least_observed_app before l1 l2 :
  least_observed before (l1 ++ l2) = least_observed (least_observed before l1) l2.
Proof. unfold least_observed. apply fold_left_app. Qed.

Lemma offered_cons key e rest :
  offered key (e :: rest) =
  if bool_decide (edge_key e = key) then time e :: offered key rest
  else offered key rest.
Proof. unfold offered. simpl. by destruct (bool_decide _). Qed.

Lemma stored_lookup records index key idx r :
  index !! key = Some idx → records !! idx = Some r →
  stored records index key = Some (time r).
Proof. unfold stored. by intros -> ->. Qed.

(** One edge merged into a well-formed store: the call returns, the store
    stays well-formed, the key of the edge holds the lesser of the weight it
    held and the new one, and every other key holds what it held. *)
Lemma merge_line_edge_spec st e :
  index_ok (st_records st) (st_index st) →
  ∃ st', merge_line_edge st e = Some st' ∧
    index_ok (st_records st') (st_index st') ∧
    ∀ key, stored (st_records st') (st_index st') key =
      if bool_decide (edge_key e = key)
      then least_observed (stored (st_records st) (st_index st) key) [time e]
      else stored (st_records st) (st_index st) key.
Proof.
  intros Hok. unfold merge_line_edge.
  destruct (st_index st !! edge_key e) as [idx|] eqn:Hidx.
  - destruct (Hok _ _ Hidx) as (r & Hr & Hkey). rewrite Hr.
    destruct (time e <? time r) eqn:Hlt.
    + apply Z.ltb_lt in Hlt. eexists. split; [reflexivity|]. simpl. split.
      * intros key idx' Hidx'. destruct (Hok _ _ Hidx') as (r' & Hr' & Hkey').
        destruct (decide (idx' = idx)) as [->|Hne].
        -- exists (set_time r (time e)). split.
           ++ apply list_lookup_insert_eq. by eapply lookup_lt_Some.
           ++ rewrite Hr in Hr'. by injection Hr' as ->.
        -- exists r'. split; [|done]. by rewrite list_lookup_insert_ne.
      * intros key. case_bool_decide as Hk.
        -- subst key. unfold stored at 1. rewrite Hidx.
           rewrite list_lookup_insert_eq by (by eapply lookup_lt_Some).
           rewrite (stored_lookup _ _ _ _ _ Hidx Hr). simpl. f_equal. lia.
        -- unfold stored. destruct (st_index st !! key) as [idx'|] eqn:Hidx'; [|done].
           destruct (decide (idx' = idx)) as [->|Hne].
           ++ destruct (Hok _ _ Hidx') as (r' & Hr' & Hkey').
              rewrite Hr in Hr'. injection Hr' as ->. congruence.
           ++ by rewrite list_lookup_insert_ne.
    + apply Z.ltb_ge in Hlt. eexists. split; [reflexivity|]. split; [done|].
      intros key. case_bool_decide as Hk; [|done].
      subst key. rewrite (stored_lookup _ _ _ _ _ Hidx Hr). simpl. f_equal. lia.
  - eexists. split; [reflexivity|]. simpl.
    rewrite length_app. simpl.
    replace (length (st_records st) + 1 - 1)%nat with (length (st_records st)) by lia.
    split.
    + intros key idx'. rewrite lookup_insert. case_decide as Hk.
      * intros [= <-]. eexists. split.
        -- rewrite lookup_app_r by lia. rewrite Nat.sub_diag. reflexivity.
        -- by subst key.
      * intros Hidx'. destruct (Hok _ _ Hidx') as (r' & Hr' & Hkey').
        exists r'. split; [|done]. rewrite lookup_app_l; [done|].
        by eapply lookup_lt_Some.
    + intros key. unfold stored. rewrite lookup_insert.
      case_decide as Hk; case_bool_decide; try done.
      * subst key. rewrite Hidx. simpl.
        rewrite lookup_app_r by lia. rewrite Nat.sub_diag. reflexivity.
      * destruct (st_index st !! key) as [idx'|] eqn:Hidx'; [|done].
        destruct (Hok _ _ Hidx') as (r' & Hr' & Hkey').
        rewrite lookup_app_l; [done|]. by eapply lookup_lt_Some.
Qed.

(** A list of edges merged into a well-formed store: every key ends at the
    least weight observed for it. *)
Lemma merge_loop_spec new_edges : ∀ st,
  index_ok (st_records st) (st_index st) →
  ∃ st', merge_loop st new_edges = Some st' ∧
    index_ok (st_records st') (st_index st') ∧
    ∀ key, stored (st_records st') (st_index st') key =
      least_observed (stored (st_records st) (st_index st) key) (offered key new_edges).
Proof.
  induction new_edges as [|e rest IH]; intros st Hok; simpl.
  - exists st. by repeat split.
  - destruct (merge_line_edge_spec st e Hok) as (st1 & -> & Hok1 & H1).
    destruct (IH st1 Hok1) as (st' & -> & Hok' & H').
    exists st'. split; [done|]. split; [done|].
    intros key. rewrite H', H1, offered_cons.
    by case_bool_decide.
Qed.

Lemma least_observed_le before offers t :
  t ∈ offers → ∃ m, least_observed before offers = Some m ∧ m <= t.
Proof.
  revert before. induction offers as [|u offers IH]; intros before Hin.
  - by apply elem_of_nil in Hin.
  - apply elem_of_cons in Hin as [<- | Hin].
    + change (least_observed before (t :: offers)) with
        (least_observed (Some (match before with Some w => Z.min w t | None => t end)) offers).
      destruct (least_observed_some (match before with Some w => Z.min w t | None => t end) offers)
        as (m & -> & Hle & _).
      exists m. split; [done|]. destruct before; lia.
    + apply (IH (Some (match before with Some w => Z.min w u | None => u end)) Hin).
Qed.

Lemma offered_elem key e new_edges :
  e ∈ new_edges → edge_key e = key → time e ∈ offered key new_edges.
Proof.
  intros Hin Hk. unfold offered. apply list_elem_of_fmap. exists e. split; [done|].
  apply list_elem_of_In, List.filter_In. split; [by apply list_elem_of_In|].
  by apply bool_decide_eq_true.
Qed.

(** Edges that offer nothing below what the store holds leave it as it is,
    counters included. *)
Lemma merge_loop_noop new_edges st :
  Forall (fun e => ∃ w, stored (st_records st) (st_index st) (edge_key e) = Some w
                        ∧ w <= time e) new_edges →
  merge_loop st new_edges = Some st.
Proof.
  induction 1 as [|e rest (w & Hw & Hle) _ IH]; simpl; [done|].
  unfold merge_line_edge. unfold stored in Hw.
  destruct (st_index st !! edge_key e) as [idx|]; [|done].
  destruct (st_records st !! idx) as [r|]; [|done].
  injection Hw as <-. apply Z.ltb_ge in Hle. by rewrite Hle.
Qed.

Lemma load_line_loop_ok (edges : list edge) : ∀ records index,
  index_ok records index →
  let '(records', index') :=
    fold_left load_line_step
      (imap (fun idx line => (length records + idx, line)%nat) (Some <$> edges))
      (records, index) in
  index_ok records' index'.
Proof.
  induction edges as [|e edges IH]; intros records index Hok; simpl; [done|].
  rewrite Nat.add_0_r.
  assert (index_ok (records ++ [e]) (<[edge_key e := length records]> index)) as Hok'.
  { intros key idx. rewrite lookup_insert. case_decide as Hk.
    - intros [= <-]. exists e. split; [|done].
      rewrite lookup_app_r by lia. by rewrite Nat.sub_diag.
    - intros Hidx. destruct (Hok _ _ Hidx) as (r & Hr & Hkey).
      exists r. split; [|done]. rewrite lookup_app_l; [done|].
      by eapply lookup_lt_Some. }
  specialize (IH _ _ Hok'). rewrite length_app in IH. simpl in IH.
  erewrite imap_ext; [exact IH|].
  intros i x _. simpl. f_equal. lia.
Qed.

(** A file without blank lines loads into a well-formed store. *)
Lemma load_line_records_ok (edges : list edge) :
  let '(records, index) := load_line_records (Some <$> edges) in
  index_ok records index.
Proof.
  unfold load_line_records.
  assert (index_ok [] (∅ : gmap EdgeKey nat)) as H0.
  { intros key idx. by rewrite lookup_empty. }
  apply (load_line_loop_ok edges [] ∅ H0).
Qed.

(** On a store whose index points at records of the indexed key
    [merge_line_edges] returns; every key then holds the least weight
    observed, that is the weight it held and the weights offered for it (so
    a key already present changes only to a strictly smaller weight, and a
    key not present is inserted); no stored weight goes up; merging the same
    edges once more changes nothing and counts no update and no insert.
    Merging 10 then 7 for one key leaves 7, and 10 then 12 leaves 10. *)
Theorem merge_line_edges_keeps_minimum
    (records : list edge) (index : gmap EdgeKey nat) (new_edges : list edge) :
  index_ok records index →
  ∃ records' index' counts,
    merge_line_edges records index new_edges = Some (records', index', counts) ∧
    index_ok records' index' ∧
    (∀ key, stored records' index' key =
            least_observed (stored records index key) (offered key new_edges)) ∧
    (∀ key w, stored records index key = Some w →
       ∃ w', stored records' index' key = Some w' ∧ w' <= w) ∧
    (∀ e, e ∈ new_edges →
       ∃ w', stored records' index' (edge_key e) = Some w' ∧ w' <= time e) ∧
    merge_line_edges records' index' new_edges = Some (records', index', (0, 0)) ∧
    (∀ e, ∃ records1 index1 counts1,
       merge_line_edges records index [e] = Some (records1, index1, counts1) ∧
       stored records1 index1 (edge_key e) =
         Some (match stored records index (edge_key e) with
               | Some w => if time e <? w then time e else w
               | None => time e
               end) ∧
       ∀ key, key ≠ edge_key e → stored records1 index1 key = stored records index key) ∧
    (∀ a l b t,
       (fun result => result.1.1) <$> merge_line_edges [] ∅ [mkEdge a l b l 10; mkEdge a l b l t]
       = Some [mkEdge a l b l (if t <? 10 then t else 10)]).
Proof.
  intros Hok. unfold merge_line_edges.
  destruct (merge_loop_spec new_edges (mkMerge records index 0 0) Hok)
    as (st' & Hrun & Hok' & Hmin). simpl in Hmin.
  rewrite Hrun. eexists _, _, _. split; [reflexivity|].
  assert (∀ e, e ∈ new_edges →
     ∃ w', stored (st_records st') (st_index st') (edge_key e) = Some w' ∧ w' <= time e)
    as Hoffer.
  { intros e He. rewrite Hmin. apply least_observed_le. by apply offered_elem. }
  split; [done|]. split; [done|]. split; [|split; [done|split; [|split]]].
  - intros key w Hw. rewrite Hmin, Hw.
    destruct (least_observed_some w (offered key new_edges)) as (m & -> & Hle & _).
    eauto.
  - rewrite (merge_loop_noop new_edges (mkMerge (st_records st') (st_index st') 0 0)).
    + reflexivity.
    + apply Forall_forall. intros e He. simpl. by apply Hoffer.
  - intros e. unfold merge_loop.
    destruct (merge_line_edge_spec (mkMerge records index 0 0) e Hok)
      as (st1 & -> & _ & H1). simpl in H1.
    eexists _, _, _. split; [reflexivity|]. split.
    + rewrite H1, bool_decide_eq_true_2 by done.
      destruct (stored records index (edge_key e)) as [w|]; simpl; [|done].
      f_equal. destruct (Z.ltb_spec (time e) w); lia.
    + intros key Hk. rewrite H1, bool_decide_eq_false_2; congruence.
  - intros a l b t. unfold merge_loop, merge_line_edge. simpl.
    rewrite lookup_empty. simpl. rewrite lookup_insert_eq. simpl.
    by destruct (t <? 10).
Qed.

Lemma merge_line_edges_keeps_minimum_witness :
  let e10 := mkEdge "910GPADTON" "gw-slow" "910GRDNGSTN" "gw-slow" 10 in
  let e7 := mkEdge "910GPADTON" "gw-slow" "910GRDNGSTN" "gw-slow" 7 in
  let e12 := mkEdge "910GPADTON" "gw-slow" "910GRDNGSTN" "gw-slow" 12 in
  let other := mkEdge "910GRDNGSTN" "gw-slow" "910GPADTON" "gw-slow" 25 in
  let index : gmap EdgeKey nat := {[ edge_key e10 := 0%nat ]} in
  ∃ records' index' counts,
    merge_line_edges [e10] index [e12; e7; other] = Some (records', index', counts) ∧
    stored records' index' (edge_key e10) = Some 7 ∧
    stored records' index' (edge_key other) = Some 25.
Proof.
  intros e10 e7 e12 other index.
  destruct (merge_line_edges_keeps_minimum [e10] index [e12; e7; other])
    as (records' & index' & counts & Hrun & _ & Hmin & _).
  { intros key idx H. apply lookup_singleton_Some in H as [<- <-].
    exists e10. split; reflexivity. }
  exists records', index', counts. split; [exact Hrun|].
  rewrite !Hmin. split; vm_compute; reflexivity.
Defined.

(** C1: the claim fails on a [lines.jsonl] with a blank line inside.
    [load_line_records] numbers the lines of the file and not the records it
    keeps, so after a blank line every index entry points one record too
    far, and the store is not one whose index points at records of the
    indexed key.  Merging B->C at 1 into the file A->B 10, blank, B->C 20,
    C->D 30 counts one update, leaves B->C at 20, above the weight offered,
    and writes 1 onto C->D, a weight never observed for that key; the same
    file without its blank line ends with B->C at 1 and C->D at 30. *)
Theorem merge_line_edges_after_blank_line :
  let records := (load_line_records blank_line_file).1 in
  let index := (load_line_records blank_line_file).2 in
  records = [ mkEdge "A" "GROUND" "B" "GROUND" 10;
              mkEdge "B" "GROUND" "C" "GROUND" 20;
              mkEdge "C" "GROUND" "D" "GROUND" 30 ] ∧
  index !! edge_key blank_line_offer = Some 2%nat ∧
  ¬ index_ok records index ∧
  (fun result => (result.1.1, result.2)) <$> merge_line_edges records index [blank_line_offer]
    = Some ([ mkEdge "A" "GROUND" "B" "GROUND" 10;
              mkEdge "B" "GROUND" "C" "GROUND" 20;
              mkEdge "C" "GROUND" "D" "GROUND" 1 ], (1, 0)) ∧
  main_lines blank_line_file [blank_line_offer]
    = Some ([ mkEdge "A" "GROUND" "B" "GROUND" 10;
              mkEdge "B" "GROUND" "C" "GROUND" 20;
              mkEdge "C" "GROUND" "D" "GROUND" 1 ], (1, 0)) ∧
  main_lines (Some <$> records) [blank_line_offer]
    = Some ([ mkEdge "A" "GROUND" "B" "GROUND" 10;
              mkEdge "B" "GROUND" "C" "GROUND" 1;
              mkEdge "C" "GROUND" "D" "GROUND" 30 ], (1, 0)).
Proof.
  intros records index.
  assert (records = [ mkEdge "A" "GROUND" "B" "GROUND" 10;
                      mkEdge "B" "GROUND" "C" "GROUND" 20;
                      mkEdge "C" "GROUND" "D" "GROUND" 30 ]) as Hrecords
    by (vm_compute; reflexivity).
  assert (index !! edge_key blank_line_offer = Some 2%nat) as Hindex
    by (vm_compute; reflexivity).
  split; [exact Hrecords|]. split; [exact Hindex|]. split; [|split; [|split]].
  - intros Hok. destruct (Hok _ _ Hindex) as (r & Hr & Hkey).
    rewrite Hrecords in Hr. injection Hr as <-. discriminate Hkey.
  - vm_compute. reflexivity.
  - vm_compute. reflexivity.
  - rewrite Hrecords. vm_compute. reflexivity.
Qed.

(** ** merge_station_metadata *)

Lemma get_insert (r : record) k v f :
  get (<[k := v]> r) f = if decide (k = f) then v else get r f.
Proof. unfold get. rewrite lookup_insert. by case_decide. Qed.

Lemma get_set_if (r : record) k v f :
  get (set_if k v r) f =
  if decide (k = f) then (if truthy v then v else get r f) else get r f.
Proof.
  unfold set_if. destruct (truthy v); [apply get_insert|]. by case_decide; subst.
Qed.

Lemma get_setdefault (r : record) k f : get (setdefault k JNull r) f = get r f.
Proof.
  unfold setdefault. destruct (r !! k) eqn:E; [done|].
  rewrite get_insert. case_decide; [|done]. subst. unfold get. by rewrite E.
Qed.

Lemma get_set_defaults (r : record) f : get (set_defaults r) f = get r f.
Proof. unfold set_defaults. by rewrite !get_setdefault. Qed.




Ltac field_cases :=
  repeat (rewrite ?get_insert, ?get_set_if; case_decide; subst; try done).




Lemma merge_loop_other national : ∀ (existing : gmap string record) sid,
  sid ∉ (fst <$> national) →
  fold_left merge_station national existing !! sid = existing !! sid.
Proof.
  induction national as [|[s meta] national IH]; intros existing sid Hsid; simpl; [done|].
  rewrite fmap_cons, not_elem_of_cons in Hsid. destruct Hsid as [Hne Hsid].
  rewrite IH by done. by rewrite lookup_insert_ne.
Qed.

Lemma merged_record_coordinates station_id meta (r : record) :
  get (merged_record station_id meta r) "latitude" = of_float (latitude meta) ∧
  get (merged_record station_id meta r) "longitude" = of_float (longitude meta) ∧
  get (merged_record station_id meta r) "tiploc" = JStr (tiploc meta).
Proof. unfold merged_record. cbv zeta. repeat split; by field_cases. Qed.

(** A station of the national list, each id once, ends with the
    coordinates and the tiploc of its metadata. *)
Lemma merge_station_metadata_sets
    (existing : gmap string record) (national_stations : list (string * StationMetadata))
    (sid : string) (meta : StationMetadata) :
  NoDup (fst <$> national_stations) → (sid, meta) ∈ national_stations →
  ∃ r, merge_station_metadata existing national_stations !! sid = Some r ∧
    get r "latitude" = of_float (latitude meta) ∧
    get r "longitude" = of_float (longitude meta) ∧
    get r "tiploc" = JStr (tiploc meta).
Proof.
  unfold merge_station_metadata. intros Hnd Hin.
  apply list_elem_of_split in Hin as (l1 & l2 & ->).
  rewrite fmap_app, fmap_cons in Hnd. simpl in Hnd.
  apply NoDup_app in Hnd as (_ & _ & Hnd2). apply NoDup_cons in Hnd2 as [Hsid _].
  rewrite fold_left_app. simpl.
  rewrite lookup_fmap, merge_loop_other by done. rewrite lookup_insert_eq. simpl.
  eexists. split; [reflexivity|]. rewrite !get_set_defaults.
  apply merged_record_coordinates.
Qed.




(** ** The station pipeline *)

Lemma load_station_step_none lines : fold_left load_station_step lines None = None.
Proof. by induction lines. Qed.

Lemma load_station_loop_keyed lines : ∀ records records',
  keyed records →
  fold_left load_station_step lines (Some records) = Some records' →
  keyed records'.
Proof.
  induction lines as [|data lines IH]; intros records records' Hk; simpl.
  - by intros [= <-].
  - destruct (truthy (get data "station_id")) eqn:Ht; simpl; [|by apply IH].
    destruct (get data "station_id") as [| | | |s] eqn:Hid;
      try (by rewrite load_station_step_none).
    apply IH. intros sid r. rewrite lookup_insert. case_decide as Hs.
    + intros [= <-]. subst. unfold get in Hid.
      destruct (data !! "station_id") as [v|]; simpl in Hid; by subst.
    + by apply Hk.
Qed.

Lemma load_station_records_keyed lines records :
  load_station_records lines = Some records → keyed records.
Proof.
  apply load_station_loop_keyed. intros sid r. by rewrite lookup_empty.
Qed.

Lemma merged_record_station_id station_id meta (r : record) :
  merged_record station_id meta r !! "station_id" = r !! "station_id".
Proof.
  unfold merged_record, set_if. cbv zeta.
  repeat case_match; by rewrite ?lookup_insert_ne by done.
Qed.

Lemma merge_loop_keyed national : ∀ existing,
  keyed existing → keyed (fold_left merge_station national existing).
Proof.
  induction national as [|[sid meta] national IH]; intros existing Hk; simpl; [done|].
  apply IH. intros sid' r. rewrite lookup_insert. case_decide as Hs.
  - intros [= <-]. subst. rewrite merged_record_station_id.
    destruct (existing !! sid') as [r0|] eqn:E; simpl; [by apply Hk|].
    apply lookup_singleton_eq.
  - by apply Hk.
Qed.

Lemma set_defaults_station_id (r : record) :
  set_defaults r !! "station_id" = r !! "station_id".
Proof.
  unfold set_defaults, setdefault.
  repeat case_match; by rewrite ?lookup_insert_ne by done.
Qed.

Lemma merge_station_metadata_keyed existing national :
  keyed existing → keyed (merge_station_metadata existing national).
Proof.
  intros Hk sid r. unfold merge_station_metadata. rewrite lookup_fmap.
  destruct (fold_left merge_station national existing !! sid) as [r0|] eqn:E; [|done].
  intros [= <-]. rewrite set_defaults_station_id.
  by apply (merge_loop_keyed national existing Hk).
Qed.

(** [filter_ground_nodes] leaves no hub. *)
Lemma filter_ground_nodes_ok records :
  keyed records → stations_ok (filter_ground_nodes records).
Proof.
  intros Hk sid r. unfold filter_ground_nodes.
  rewrite map_lookup_filter_Some. simpl. intros [Hr Hhub]. split; [|done].
  by apply Hk.
Qed.

Lemma fold_left_option_inv {S A} (step : option S → A → option S)
    (P : S → Prop) (Q : A → Prop) :
  (∀ a, step None a = None) →
  (∀ s a s', P s → Q a → step (Some s) a = Some s' → P s') →
  ∀ l s s', P s → Forall Q l → fold_left step l (Some s) = Some s' → P s'.
Proof.
  intros Hnone Hstep. induction l as [|a l IH]; intros s s' Hs Hl; simpl.
  - by intros [= <-].
  - apply Forall_cons in Hl as [Ha Hl].
    destruct (step (Some s) a) as [s1|] eqn:E.
    + apply IH; [|done]. by eapply Hstep.
    + assert (fold_left step l None = None) as ->; [|done].
      clear -Hnone. induction l; simpl; [done|]. by rewrite Hnone.
Qed.

Lemma station_name_station_id (r : record) v :
  <["station_name" := v]> r !! "station_id" = r !! "station_id".
Proof. by rewrite lookup_insert_ne. Qed.

Lemma stations_ok_insert (records : gmap string record) sid (r : record) v :
  stations_ok records →
  r !! "station_id" = Some (JStr sid) → is_hub_id sid = false →
  stations_ok (<[sid := <["station_name" := v]> r]> records).
Proof.
  intros Hok Hr Hhub sid' r'. rewrite lookup_insert. case_decide as Hs.
  - intros [= <-]. subst. by rewrite station_name_station_id.
  - by apply Hok.
Qed.

Lemma fold_left_option_total {S A} (step : option S → A → option S)
    (P : S → Prop) (Q : A → Prop) :
  (∀ s a, P s → Q a → ∃ s', step (Some s) a = Some s' ∧ P s') →
  ∀ l s, P s → Forall Q l → ∃ s', fold_left step l (Some s) = Some s' ∧ P s'.
Proof.
  intros Hstep. induction l as [|a l IH]; intros s Hs Hl; simpl; [eauto|].
  apply Forall_cons in Hl as [Ha Hl].
  destruct (Hstep s a Hs Ha) as (s1 & -> & Hs1). by apply IH.
Qed.

Lemma str_or_unset_py_or v s : str_or_unset v → ∃ s', py_or v (JStr s) = JStr s'.
Proof.
  unfold py_or. destruct v; simpl; intros H; try rewrite H; eauto.
  destruct (negb _); eauto.
Qed.

(** *** The names stay strings *)

Lemma load_station_records_total lines :
  Forall typed_line lines →
  ∃ records, load_station_records lines = Some records ∧ names_ok records.
Proof.
  unfold load_station_records.
  apply (fold_left_option_total load_station_step names_ok typed_line).
  - intros records data Hn [Hid Hname]. simpl.
    destruct (truthy (get data "station_id")) eqn:Ht; simpl; [|eauto].
    destruct (get data "station_id") as [| | | |s]; simpl in Hid, Ht; try congruence.
    eexists. split; [done|].
    intros sid r. rewrite lookup_insert.
    destruct (decide (s = sid)); [|exact (Hn sid r)].
    by intros [= <-].
  - intros sid r. by rewrite lookup_empty.
Qed.

Lemma merged_record_name station_id meta (r : record) :
  get (merged_record station_id meta r) "station_name"
  = py_or (py_or (of_str (name meta)) (get r "station_name")) (JStr station_id).
Proof. unfold merged_record. cbv zeta. by field_cases. Qed.

Lemma merged_record_name_ok station_id meta (r : record) :
  str_or_unset (get r "station_name") →
  str_or_unset (get (merged_record station_id meta r) "station_name").
Proof.
  intros Hr. rewrite merged_record_name.
  destruct (name meta) as [nm|]; simpl.
  - unfold py_or at 2. simpl. destruct (negb (bool_decide (nm = ""))); simpl.
    + unfold py_or. simpl. by destruct (negb (bool_decide (nm = ""))).
    + by destruct (str_or_unset_py_or _ station_id Hr) as [s' ->].
  - unfold py_or at 2. simpl.
    by destruct (str_or_unset_py_or _ station_id Hr) as [s' ->].
Qed.

Lemma merge_loop_names_ok national : ∀ existing,
  names_ok existing → names_ok (fold_left merge_station national existing).
Proof.
  induction national as [|[sid meta] national IH]; intros existing Hn; simpl; [done|].
  apply IH. intros sid' r. rewrite lookup_insert. case_decide as Hs; [|exact (Hn sid' r)].
  intros [= <-]. apply merged_record_name_ok.
  destruct (existing !! sid) as [r0|] eqn:E; simpl; [by eapply Hn|done].
Qed.

Lemma merge_station_metadata_names_ok existing national :
  names_ok existing → names_ok (merge_station_metadata existing national).
Proof.
  intros Hn sid r. unfold merge_station_metadata. rewrite lookup_fmap.
  destruct (fold_left merge_station national existing !! sid) as [r0|] eqn:E; [|done].
  intros [= <-]. rewrite get_set_defaults.
  by apply (merge_loop_names_ok national existing Hn sid).
Qed.

Lemma filter_ground_nodes_names_ok records :
  names_ok records → names_ok (filter_ground_nodes records).
Proof.
  intros Hn sid r. unfold filter_ground_nodes.
  rewrite map_lookup_filter_Some. intros [Hr _]. by eapply Hn.
Qed.

Lemma names_ok_insert (records : gmap string record) sid (r : record) s :
  names_ok records → names_ok (<[sid := <["station_name" := JStr s]> r]> records).
Proof.
  intros Hn sid' r'. rewrite lookup_insert. case_decide; [|exact (Hn sid' r')].
  intros [= <-]. by rewrite get_insert, decide_True.
Qed.

(** *** The [while] loop of the renaming ends *)

Lemma chars_app a b : Py.chars (a +:+ b) = Py.chars a ++ Py.chars b.
Proof. induction a as [|c a IH]; simpl; [done|]. by rewrite <- IH. Qed.

Lemma chars_inj a b : Py.chars a = Py.chars b → a = b.
Proof. intros H. by rewrite <- (str_chars a), <- (str_chars b), H. Qed.

Lemma casefold_chars s : Py.chars (Py.casefold s) = map Py.lower_char (Py.chars s).
Proof. unfold Py.casefold, Py.lower. by rewrite chars_str. Qed.

Lemma pretty_N_char_lower x : Py.lower_char (pretty_N_char x) = pretty_N_char x.
Proof. unfold pretty_N_char. by repeat case_match. Qed.

Lemma pretty_N_go_lower x : ∀ s,
  map Py.lower_char (Py.chars s) = Py.chars s →
  map Py.lower_char (Py.chars (pretty_N_go x s)) = Py.chars (pretty_N_go x s).
Proof.
  induction (N.lt_wf_0 x) as [x _ IH]; intros s Hs.
  destruct (decide (x = 0)%N) as [->|Hx].
  - by rewrite pretty_N_go_0.
  - rewrite pretty_N_go_step by lia. apply IH.
    + apply N.div_lt; lia.
    + unfold Py.chars in *. simpl. by rewrite pretty_N_char_lower, Hs.
Qed.

Lemma pretty_N_lower (x : N) :
  map Py.lower_char (Py.chars (pretty x)) = Py.chars (pretty x).
Proof.
  unfold pretty, pretty_N. case_decide; [done|]. by apply pretty_N_go_lower.
Qed.

(** The decimal form of a counter has no letter for [casefold] to change. *)
Lemma pretty_Z_lower (z : Z) :
  map Py.lower_char (Py.chars (pretty z)) = Py.chars (pretty z).
Proof.
  destruct z as [|p|p]; [done|apply (pretty_N_lower (Npos p))|].
  unfold pretty, pretty_Z. rewrite chars_app, map_app. f_equal.
  apply (pretty_N_lower (Npos p)).
Qed.

(** The folded form of the candidate with counter [j]. *)
Lemma casefold_numbered new_name (j : Z) :
  Py.chars (Py.casefold (new_name +:+ " #" +:+ pretty j))
  = map Py.lower_char (Py.chars new_name) ++ Py.chars " #" ++ Py.chars (pretty j).
Proof.
  rewrite casefold_chars, !chars_app, !map_app, pretty_Z_lower. done.
Qed.

Lemma casefold_numbered_inj new_name (j k : Z) :
  Py.casefold (new_name +:+ " #" +:+ pretty j)
  = Py.casefold (new_name +:+ " #" +:+ pretty k) → j = k.
Proof.
  intros H. apply (f_equal Py.chars) in H. rewrite !casefold_numbered in H.
  do 2 apply app_inv_head in H. apply chars_inj in H.
  by apply (inj pretty) in H.
Qed.

Lemma casefold_numbered_ne new_name (j : Z) :
  Py.casefold (new_name +:+ " #" +:+ pretty j) ≠ Py.casefold new_name.
Proof.
  intros H. apply (f_equal Py.chars) in H.
  rewrite casefold_numbered, casefold_chars in H.
  apply (f_equal length) in H. rewrite !length_app in H. simpl in H. lia.
Qed.

(** The loop reads [seen] only at the folded candidates still to come. *)
Lemma find_candidate_ext fuel : ∀ (seen seen' : gset string) new_name candidate counter,
  (Py.casefold candidate ∈ seen ↔ Py.casefold candidate ∈ seen') →
  (∀ j, counter <= j →
     Py.casefold (new_name +:+ " #" +:+ pretty j) ∈ seen ↔
     Py.casefold (new_name +:+ " #" +:+ pretty j) ∈ seen') →
  find_candidate fuel seen new_name candidate counter
  = find_candidate fuel seen' new_name candidate counter.
Proof.
  induction fuel as [|fuel IH]; intros seen seen' new_name candidate counter Hc Hj; simpl.
  - by rewrite (bool_decide_ext _ _ Hc).
  - rewrite (bool_decide_ext _ _ Hc). case_bool_decide; [|done].
    apply IH; [apply Hj; lia|]. intros j Hle. apply Hj. lia.
Qed.

Lemma find_candidate_total_gen fuel : ∀ (seen : gset string) new_name candidate counter,
  (size seen < fuel)%nat →
  (∀ j, counter <= j →
     Py.casefold (new_name +:+ " #" +:+ pretty j) ≠ Py.casefold candidate) →
  is_Some (find_candidate fuel seen new_name candidate counter).
Proof.
  induction fuel as [|fuel IH]; intros seen new_name candidate counter Hsize Hfresh;
    [lia|].
  simpl. case_bool_decide as Hin; [|done].
  rewrite (find_candidate_ext fuel seen (seen ∖ {[ Py.casefold candidate ]})).
  - apply IH.
    + apply elem_of_subseteq_singleton in Hin.
      pose proof (size_union_alt {[ Py.casefold candidate ]} seen) as Hs.
      rewrite (subseteq_union_1_L _ _ Hin), size_singleton in Hs. lia.
    + intros j Hle Heq. apply casefold_numbered_inj in Heq. lia.
  - rewrite elem_of_difference, not_elem_of_singleton.
    assert (Py.casefold (new_name +:+ " #" +:+ pretty counter) ≠ Py.casefold candidate)
      by (apply Hfresh; lia).
    tauto.
  - intros j Hle. rewrite elem_of_difference, not_elem_of_singleton.
    assert (Py.casefold (new_name +:+ " #" +:+ pretty j) ≠ Py.casefold candidate)
      by (apply Hfresh; lia).
    tauto.
Qed.

(** The fuel [rename_step] gives the loop is enough: it always finds a
    candidate. *)
Lemma find_candidate_total (seen : gset string) new_name :
  is_Some (find_candidate (S (size seen)) seen new_name new_name 1).
Proof.
  apply find_candidate_total_gen; [lia|].
  intros j _. apply casefold_numbered_ne.
Qed.

Section Pipeline.

Variable float_repr : Q → string.

(** [ensure_unique_station_names] writes names only: the records stay under
    their ids. *)
Lemma ensure_unique_station_names_ok records records' :
  stations_ok records →
  ensure_unique_station_names float_repr records = Some records' →
  stations_ok records'.
Proof.
  intros Hok. unfold ensure_unique_station_names.
  destruct (fold_left group_step (map_to_list records) (Some (records, ∅)))
    as [[records1 name_groups]|] eqn:E1; simpl; [|done].
  assert (stations_ok records1) as Hok1.
  { refine (fold_left_option_inv group_step
             (fun s => stations_ok s.1)
             (fun item => item.2 !! "station_id" = Some (JStr item.1)
                          ∧ is_hub_id item.1 = false)
             _ _ (map_to_list records) (records, ∅) (records1, name_groups) Hok _ E1).
    - done.
    - intros [recs groups] [sid r] [recs' groups'] Hs [Hr Hhub]. simpl in *.
      destruct (as_str _) as [nm|]; simpl; [|done].
      intros [= <- <-]. by apply stations_ok_insert.
    - apply Forall_forall. intros [sid r] Hin.
      apply elem_of_map_to_list in Hin. by apply Hok. }
  refine (fold_left_option_inv (rename_group float_repr) stations_ok (fun _ => True)
            _ _ _ records1 records' Hok1 _); [done| |by apply Forall_true].
  intros recs ids recs' Hrecs _. unfold rename_group. simpl.
  destruct (length ids <=? 1)%nat; [by intros [= <-]|].
  destruct (fold_left (rename_step float_repr) _ _) as [[recs2 seen]|] eqn:E2; [|done].
  intros H. injection H as <-.
  refine (fold_left_option_inv (rename_step float_repr)
            (fun s => stations_ok s.1) (fun _ => True) _ _
            _ (recs, ∅) (recs2, seen) Hrecs _ E2); [done| |by apply Forall_true].
  intros [rs sn] [idx sid] [rs' sn'] Hs _. cbn -[find_candidate] in *.
  destruct (rs !! sid) as [r|] eqn:Er; cbn -[find_candidate]; [|done].
  destruct (if bool_decide (idx = 0%nat) then _ else _) as [new_name|];
    cbn -[find_candidate]; [|done].
  destruct (find_candidate _ _ _ _ _) as [candidate|]; cbn; [|done].
  intros [= <- <-]. destruct (Hs _ _ Er). by apply stations_ok_insert.
Qed.

Lemma write_station_records_elem (records : gmap string record) r :
  r ∈ write_station_records records → ∃ station_id, records !! station_id = Some r.
Proof.
  unfold write_station_records. rewrite list_elem_of_omap.
  intros (sid & _ & Hr). eauto.
Qed.

(** One renaming step goes through on a catalogue whose names are
    strings. *)
Lemma rename_step_total (domain : gmap string record) rs seen idx sid :
  names_ok rs → (∀ id, is_Some (domain !! id) → is_Some (rs !! id)) →
  is_Some (domain !! sid) →
  ∃ st', rename_step float_repr (Some (rs, seen)) (idx, sid) = Some st' ∧
    names_ok st'.1 ∧ (∀ id, is_Some (domain !! id) → is_Some (st'.1 !! id)).
Proof.
  intros Hn Hdom Hsid. destruct (Hdom sid Hsid) as [r Hr].
  cbn -[find_candidate]. rewrite Hr. cbn -[find_candidate].
  assert (∃ new_name,
    (if bool_decide (idx = 0%nat)
     then as_str (py_or (get r "station_name") (JStr sid))
     else Some (format_value float_repr (py_or (get r "station_name") (JStr sid))
                +:+ " [" +:+ format_value float_repr
                  (py_or (py_or (get r "code") (get r "tiploc")) (JStr sid)) +:+ "]"))
    = Some new_name) as [new_name ->].
  { case_bool_decide; [|eauto].
    destruct (str_or_unset_py_or _ sid (Hn sid r Hr)) as [s' ->]. simpl. eauto. }
  cbn -[find_candidate].
  destruct (find_candidate_total seen new_name) as [candidate ->].
  eexists. split; [reflexivity|]. simpl. split.
  - by apply names_ok_insert.
  - intros id Hid. rewrite lookup_insert. case_decide; [eauto | by apply Hdom].
Qed.

Lemma rename_group_total (domain : gmap string record) recs ids :
  names_ok recs → (∀ id, is_Some (domain !! id) → is_Some (recs !! id)) →
  (∀ id, id ∈ ids → is_Some (domain !! id)) →
  ∃ recs', rename_group float_repr (Some recs) ids = Some recs' ∧
    names_ok recs' ∧ (∀ id, is_Some (domain !! id) → is_Some (recs' !! id)).
Proof.
  intros Hn Hdom Hids. unfold rename_group. simpl.
  destruct (length ids <=? 1)%nat; [eauto|].
  destruct (fold_left_option_total (rename_step float_repr)
              (fun st => names_ok st.1 ∧ ∀ id, is_Some (domain !! id) → is_Some (st.1 !! id))
              (fun item => is_Some (domain !! item.2)))
    with (l := imap (fun idx station_id => (idx, station_id)) (sorted_ids ids))
         (s := (recs, (∅ : gset string))) as ([recs' seen'] & -> & Hn' & Hdom').
  - intros [rs seen] [idx sid] [Hrs Hd] Hsid. cbn [fst snd] in *.
    destruct (rename_step_total domain rs seen idx sid Hrs Hd Hsid) as (st' & -> & H1 & H2).
    eauto.
  - done.
  - apply Forall_forall. intros [idx sid] Hin.
    apply elem_of_lookup_imap in Hin as (i & y & [= -> ->] & Hy). simpl.
    apply Hids. apply list_elem_of_lookup_2 in Hy.
    unfold sorted_ids in Hy. by rewrite merge_sort_Permutation in Hy.
  - simpl. eauto.
Qed.

(** [ensure_unique_station_names] returns on a catalogue whose names are
    strings. *)
Lemma ensure_unique_station_names_total records :
  names_ok records →
  ∃ records', ensure_unique_station_names float_repr records = Some records'.
Proof.
  intros Hn. unfold ensure_unique_station_names.
  destruct (fold_left_option_total group_step
              (fun st => names_ok st.1 ∧
                 ∀ key ids id, st.2 !! key = Some ids → id ∈ ids → is_Some (st.1 !! id))
              (fun item => records !! item.1 = Some item.2))
    with (l := map_to_list records)
         (s := (records, (∅ : gmap string (list string))))
    as ([records1 name_groups] & -> & Hn1 & Hg).
  - intros [recs groups] [sid r] [Hrecs Hgroups] Hr. simpl in *.
    destruct (str_or_unset_py_or _ sid (Hn sid r Hr)) as [s' ->]. simpl.
    eexists. split; [reflexivity|]. simpl. split.
    + by apply names_ok_insert.
    + intros key ids id. rewrite lookup_insert. case_decide as Hk.
      * intros [= <-]. rewrite elem_of_app, list_elem_of_singleton.
        intros [Hid | ->].
        -- rewrite lookup_insert. case_decide; [eauto|].
           destruct (groups !! Py.casefold s') as [ids0|] eqn:E; simpl in Hid.
           ++ by eapply Hgroups.
           ++ by apply elem_of_nil in Hid.
        -- rewrite lookup_insert_eq. eauto.
      * intros Hids Hid. rewrite lookup_insert. case_decide; [eauto|].
        by eapply Hgroups.
  - split; [done|]. cbn [fst snd]. intros key ids id. by rewrite lookup_empty.
  - apply Forall_forall. intros [sid r] Hin. by apply elem_of_map_to_list in Hin.
  - simpl in *.
    destruct (fold_left_option_total (rename_group float_repr)
                (fun recs => names_ok recs ∧
                   ∀ id, is_Some (records1 !! id) → is_Some (recs !! id))
                (fun ids => ∀ id, id ∈ ids → is_Some (records1 !! id)))
      with (l := snd <$> map_to_list name_groups) (s := records1)
      as (records' & -> & _).
    + intros recs ids [Hrecs Hd] Hids.
      destruct (rename_group_total records1 recs ids Hrecs Hd Hids) as (recs' & -> & H1 & H2).
      eauto.
    + done.
    + apply Forall_forall. intros ids Hin.
      apply list_elem_of_fmap in Hin as ([key ids'] & -> & Hin). simpl.
      apply elem_of_map_to_list in Hin. intros id Hid. by eapply Hg.
    + eauto.
Qed.

Lemma main_stations_no_hub lines national_stations written :
  main_stations float_repr lines national_stations = Some written →
  ∀ r, r ∈ written →
    ∃ station_id, r !! "station_id" = Some (JStr station_id) ∧
                  Py.startswith station_id "HUB" = false.
Proof.
  unfold main_stations.
  destruct (load_station_records lines) as [loaded|] eqn:Hload; simpl; [|done].
  destruct (ensure_unique_station_names _ _) as [named|] eqn:Hnames; simpl; [|done].
  intros [= <-] r Hr.
  apply write_station_records_elem in Hr as [sid Hsid].
  exists sid. eapply ensure_unique_station_names_ok; [|exact Hnames|exact Hsid].
  apply filter_ground_nodes_ok, merge_station_metadata_keyed.
  by eapply load_station_records_keyed.
Qed.

Lemma main_stations_total lines national_stations :
  Forall typed_line lines →
  ∃ written, main_stations float_repr lines national_stations = Some written.
Proof.
  intros Hl. unfold main_stations.
  destruct (load_station_records_total lines Hl) as (loaded & -> & Hn). simpl.
  destruct (ensure_unique_station_names_total
              (filter_ground_nodes (merge_station_metadata loaded national_stations)))
    as [named ->].
  - by apply filter_ground_nodes_names_ok, merge_station_metadata_names_ok.
  - simpl. eauto.
Qed.

(** C9: whatever stations were persisted before and whatever stations the
    national graph brings, the station pipeline (load, merge the metadata,
    filter the hub nodes, disambiguate the names, write) runs to its end
    when the ids and names of the persisted lines are strings, and no record
    it writes carries a station identifier beginning with "HUB". *)
Theorem persisted_catalogue_has_no_hub
    (lines : list record) (national_stations : list (string * StationMetadata)) :
  Forall typed_line lines →
  ∃ written,
    main_stations float_repr lines national_stations = Some written ∧
    ∀ r, r ∈ written →
      ∃ station_id, r !! "station_id" = Some (JStr station_id) ∧
                    Py.startswith station_id "HUB" = false.
Proof.
  intros Hl. destruct (main_stations_total lines national_stations Hl) as [written Hw].
  exists written. split; [done|].
  by apply (main_stations_no_hub lines national_stations).
Qed.

End Pipeline.

(** ** dijkstra *)

(** More fuel does not change what a run returns. *)
Lemma dijkstra_loop_fuel fuel : ∀ graph distances pq result extra,
  dijkstra_loop fuel graph distances pq = Some result →
  dijkstra_loop (fuel + extra) graph distances pq = Some result.
Proof.
  induction fuel as [|fuel IH]; intros graph distances pq result extra.
  - simpl. destruct (heappop pq) as [[[d current] pq']|] eqn:E; [done|].
    intros [= <-]. destruct extra; simpl; by rewrite E.
  - simpl. destruct (heappop pq) as [[[d current] pq']|]; [|done].
    destruct (dist_gt d (distances !! current)); [apply IH|].
    destruct (fold_left _ _ _) as [distances' pq'']. apply IH.
Qed.

Lemma dijkstra_fuel fuel fuel' graph start result :
  dijkstra fuel graph start = Some result → (fuel <= fuel')%nat →
  dijkstra fuel' graph start = Some result.
Proof.
  unfold dijkstra. intros H Hle.
  replace fuel' with (fuel + (fuel' - fuel))%nat by lia.
  by apply dijkstra_loop_fuel.
Qed.

Lemma some_default {A} (o : option A) (d : A) :
  match o with Some _ => true | None => false end = true → o = Some (default d o).
Proof. by destruct o. Qed.

(** C4: on the graph GROUND_A -> HUB_A (2), HUB_A -> LINE1_A (3),
    LINE1_A -> LINE1_B (10), LINE1_B -> HUB_B (2), HUB_B -> GROUND_B (2),
    [dijkstra] from GROUND_A returns after six iterations of its loop, and
    the distance it holds for GROUND_B is exactly 19. *)
Theorem dijkstra_four_stations :
  ∃ distances,
    (∀ fuel, (6 <= fuel)%nat →
       dijkstra fuel (build_graph four_station_lines) ("A", "GROUND") = Some distances) ∧
    distances !! ("B", "GROUND") = Some 19 ∧
    (main 6 four_station_lines).1 = [mkRow "A" "B" 19].
Proof.
  exists (default ∅ (dijkstra 6 (build_graph four_station_lines) ("A", "GROUND"))).
  split; [|split].
  - intros fuel Hfuel. apply (dijkstra_fuel 6); [|done].
    apply some_default. vm_compute. reflexivity.
  - vm_compute. reflexivity.
  - vm_compute. reflexivity.
Qed.

(** ** main of graph_times.py *)

Lemma rows_from_elem nodes start distances row :
  row ∈ rows_from nodes start distances →
  ∃ stop d, stop ∈ nodes ∧ distances !! stop = Some d ∧ start ≠ stop ∧
    is_ground_node stop = true ∧ row = mkRow start.1 stop.1 d.
Proof.
  unfold rows_from. rewrite list_elem_of_omap. intros (stop & Hin & Hrow).
  destruct (distances !! stop) as [d|] eqn:Hd; [|done].
  destruct (negb (bool_decide (start = stop)) && is_ground_node stop) eqn:Hc; [|done].
  apply andb_true_iff in Hc as [Hne Hg]. apply negb_true_iff, bool_decide_eq_false in Hne.
  injection Hrow as <-. exists stop, d. done.
Qed.

Lemma main_loop_rows fuel graph nodes sources : ∀ row,
  row ∈ (main_loop fuel graph nodes sources).1 →
  ∃ start stop distances,
    start ∈ sources ∧ stop ∈ nodes ∧
    is_ground_node start = true ∧ is_ground_node stop = true ∧ start ≠ stop ∧
    dijkstra fuel graph start = Some distances ∧
    distances !! stop = Some (row_time row) ∧
    from_station row = start.1 ∧ to_station row = stop.1.
Proof.
  induction sources as [|start rest IH]; intros row; simpl.
  - intros H. by apply elem_of_nil in H.
  - destruct (is_ground_node start) eqn:Hg; simpl.
    + destruct (dijkstra fuel graph start) as [distances|] eqn:Hd.
      * destruct (main_loop fuel graph nodes rest) as [rows finished]. simpl in *.
        rewrite elem_of_app. intros [Hrow | Hrow].
        -- apply rows_from_elem in Hrow as (stop & d & Hin & Hdist & Hne & Hgs & ->).
           exists start, stop, distances. simpl. repeat split; try done. by left.
        -- destruct (IH row Hrow) as (s & t & ds & Hs & H).
           exists s, t, ds. split; [by right | done].
      * simpl. intros H. by apply elem_of_nil in H.
    + intros Hrow. destruct (IH row Hrow) as (s & t & ds & Hs & H).
      exists s, t, ds. split; [by right | done].
Qed.

Lemma ground_nodes_differ (start stop : node) :
  is_ground_node start = true → is_ground_node stop = true → start ≠ stop →
  start.1 ≠ stop.1.
Proof.
  unfold is_ground_node. intros H1 H2 Hne Heq.
  apply bool_decide_eq_true in H1, H2. apply Hne.
  destruct start, stop; simpl in *; congruence.
Qed.

(** C5: whatever the lines of the graph and however far the run gets, every
    row written comes from a GROUND source node and a GROUND destination
    node of the graph, the two stations differ, and the time is the finite
    distance [dijkstra] holds for the destination. *)
Theorem main_rows_ground_to_ground (fuel : nat) (lines : list edge) (row : path_row) :
  row ∈ (main fuel lines).1 →
  ∃ start stop distances,
    start ∈ graph_nodes (build_graph lines) ∧ stop ∈ graph_nodes (build_graph lines) ∧
    start.2 = "GROUND" ∧ stop.2 = "GROUND" ∧
    from_station row = start.1 ∧ to_station row = stop.1 ∧
    from_station row ≠ to_station row ∧
    dijkstra fuel (build_graph lines) start = Some distances ∧
    distances !! stop = Some (row_time row).
Proof.
  unfold main. intros Hrow.
  apply main_loop_rows in Hrow
    as (start & stop & distances & Hs & Ht & Hgs & Hgt & Hne & Hd & Hdist & Hfrom & Hto).
  exists start, stop, distances.
  apply elem_of_elements in Hs, Ht.
  pose proof (ground_nodes_differ start stop Hgs Hgt Hne) as Hdiff.
  unfold is_ground_node in Hgs, Hgt. apply bool_decide_eq_true in Hgs, Hgt.
  rewrite Hfrom, Hto. done.
Qed.

Lemma main_rows_ground_to_ground_witness :
  ∃ start stop distances,
    start ∈ graph_nodes (build_graph four_station_lines) ∧
    stop ∈ graph_nodes (build_graph four_station_lines) ∧
    start.2 = "GROUND" ∧ stop.2 = "GROUND" ∧
    from_station (mkRow "A" "B" 19) = start.1 ∧ to_station (mkRow "A" "B" 19) = stop.1 ∧
    from_station (mkRow "A" "B" 19) ≠ to_station (mkRow "A" "B" 19) ∧
    dijkstra 6 (build_graph four_station_lines) start = Some distances ∧
    distances !! stop = Some (row_time (mkRow "A" "B" 19)).
Proof.
  apply (main_rows_ground_to_ground 6 four_station_lines (mkRow "A" "B" 19)).
  vm_compute. left.
Defined.

Lemma persisted_catalogue_has_no_hub_witness :
  ∃ written,
    main_stations (fun _ => "") example_station_lines [] = Some written ∧
    ∀ r, r ∈ written →
      ∃ station_id, r !! "station_id" = Some (JStr station_id) ∧
                    Py.startswith station_id "HUB" = false.
Proof.
  apply (persisted_catalogue_has_no_hub (fun _ => "") example_station_lines []).
  repeat constructor.
Defined.

(** ** The loop of dijkstra ends on a graph without negative weights *)

Lemma heappop_none pq : heappop pq = None → pq = [].
Proof.
  destruct pq as [|y pq]; [done|]. simpl.
  destruct (heappop pq) as [[z rest]|]; [by destruct (entry_leb y z)|done].
Qed.

Lemma heappop_spec pq x rest :
  heappop pq = Some (x, rest) →
  length pq = S (length rest) ∧ x ∈ pq ∧ ∀ y, y ∈ rest → y ∈ pq.
Proof.
  revert x rest. induction pq as [|y pq IH]; intros x rest; simpl; [done|].
  destruct (heappop pq) as [[z rest']|] eqn:E.
  - destruct (IH z rest' eq_refl) as (Hlen & Hz & Hrest).
    destruct (entry_leb y z); intros [= <- <-].
    + split; [done|]. split; [by left|]. intros w Hw. by right.
    + simpl. split; [lia|]. split; [by right|].
      intros w Hw. apply elem_of_cons in Hw as [->|Hw]; [by left|].
      right. by apply Hrest.
  - intros [= <- <-]. apply heappop_none in E as ->.
    split; [done|]. split; [by left|]. intros w Hw. by apply elem_of_nil in Hw.
Qed.

Lemma dist_total_insert_new (distances : gmap node Z) v d :
  distances !! v = None → dist_total (<[v := d]> distances) = d + dist_total distances.
Proof.
  intros Hv. unfold dist_total. apply map_fold_insert_L; [|done]. intros. lia.
Qed.

Lemma dist_total_insert_old (distances : gmap node Z) v d old :
  distances !! v = Some old →
  dist_total (<[v := d]> distances) = dist_total distances - old + d.
Proof.
  intros Hv. rewrite <- (insert_delete_eq distances).
  rewrite dist_total_insert_new by apply lookup_delete_eq.
  unfold dist_total.
  rewrite (map_fold_delete_L _ _ v old distances); [lia | intros; lia | done].
Qed.

Lemma unreached_insert_new (nodes : gset node) (distances : gmap node Z) v d :
  distances !! v = None → v ∈ nodes →
  (unreached nodes (<[v := d]> distances) < unreached nodes distances)%nat.
Proof.
  intros Hv Hin. unfold unreached. apply subset_size.
  rewrite dom_insert_L. apply not_elem_of_dom in Hv.
  split.
  - intros x. rewrite !elem_of_difference, elem_of_union. tauto.
  - intros Hsub. assert (v ∈ nodes ∖ ({[v]} ∪ dom distances)) as Hbad.
    { apply Hsub. by apply elem_of_difference. }
    apply elem_of_difference in Hbad as [_ Hbad]. apply Hbad.
    apply elem_of_union. left. by apply elem_of_singleton.
Qed.

Lemma unreached_insert_old (nodes : gset node) (distances : gmap node Z) v d old :
  distances !! v = Some old →
  unreached nodes (<[v := d]> distances) = unreached nodes distances.
Proof.
  intros Hv. unfold unreached. rewrite dom_insert_lookup_L; [done|]. eauto.
Qed.

Lemma relaxed_trans (nodes : gset node) d1 d2 d3 :
  relaxed nodes d1 d2 → relaxed nodes d2 d3 → relaxed nodes d1 d3.
Proof. unfold relaxed. intros [?|[? ?]] [?|[? ?]]; [left; lia..|right; lia]. Qed.

(** One relaxation keeps the loop well-formed, and either leaves the state
    as it is or makes progress. *)
Lemma relax_spec (nodes : gset node) current_distance distances pq v w :
  loop_ok nodes distances pq → 0 <= current_distance → 0 <= w → v ∈ nodes →
  ∃ distances' pq', relax current_distance (distances, pq) (v, w) = (distances', pq') ∧
    loop_ok nodes distances' pq' ∧
    ((distances', pq') = (distances, pq) ∨ relaxed nodes distances' distances).
Proof.
  intros (Hd & Hq & Hdom) Hcd Hw Hv. unfold relax, heappush.
  destruct (dist_lt (current_distance + w) (distances !! v)) eqn:Hlt.
  - eexists _, _. split; [reflexivity|]. split.
    + split; [|split].
      * intros u d. rewrite lookup_insert. case_decide; [intros [= <-]; lia | apply Hd].
      * intros d u Hin. apply elem_of_cons in Hin as [[= -> ->]|Hin]; [lia|].
        by eapply Hq.
      * rewrite dom_insert_L. apply union_subseteq. split; [|done].
        by apply singleton_subseteq_l.
    + right. destruct (distances !! v) as [old|] eqn:Hv'; simpl in Hlt.
      * right. split; [by eapply unreached_insert_old|].
        rewrite (dist_total_insert_old _ _ _ old) by done.
        apply Z.ltb_lt in Hlt. lia.
      * left. by apply unreached_insert_new.
  - eexists _, _. split; [reflexivity|]. split; [done | by left].
Qed.

Lemma relax_loop_spec (nodes : gset node) current_distance (adj : adjacency) : ∀ distances pq,
  loop_ok nodes distances pq → 0 <= current_distance →
  (∀ v w, (v, w) ∈ adj → v ∈ nodes ∧ 0 <= w) →
  ∃ distances' pq',
    fold_left (relax current_distance) adj (distances, pq) = (distances', pq') ∧
    loop_ok nodes distances' pq' ∧
    ((distances', pq') = (distances, pq) ∨ relaxed nodes distances' distances).
Proof.
  induction adj as [|[v w] adj IH]; intros distances pq Hok Hcd Hadj; cbn [fold_left].
  - eexists _, _. split; [reflexivity|]. split; [done | by left].
  - assert ((v, w) ∈ (v, w) :: adj) as Hhere by (by left).
    destruct (Hadj v w Hhere) as [Hv Hw].
    destruct (relax_spec nodes current_distance distances pq v w Hok Hcd Hw Hv)
      as (d1 & q1 & -> & Hok1 & Hstep1).
    destruct (IH d1 q1 Hok1 Hcd) as (d2 & q2 & -> & Hok2 & Hstep2).
    { intros v' w' Hin. apply Hadj. by right. }
    eexists _, _. split; [reflexivity|]. split; [done|].
    destruct Hstep1 as [[= -> ->]|H1], Hstep2 as [[= -> ->]|H2]; auto.
    right. by eapply relaxed_trans.
Qed.

Lemma dist_total_nonneg (distances : gmap node Z) :
  (∀ v d, distances !! v = Some d → 0 <= d) → 0 <= dist_total distances.
Proof.
  induction distances as [|v d m Hv IH] using map_ind; intros Hd.
  - unfold dist_total. by rewrite map_fold_empty.
  - rewrite dist_total_insert_new by done.
    assert (0 <= d) by (apply (Hd v); apply lookup_insert_eq).
    assert (0 <= dist_total m); [|lia].
    apply IH. intros u du Hu. apply (Hd u). rewrite lookup_insert_ne; [done|].
    intros ->. congruence.
Qed.

Lemma graph_nodes_neighbour (graph : gmap node adjacency) u adj v w :
  graph !! u = Some adj → (v, w) ∈ adj → v ∈ graph_nodes graph.
Proof.
  intros Hu Hin. unfold graph_nodes. apply elem_of_union. right.
  apply elem_of_union_list. exists (list_to_set (fst <$> adj)). split.
  - apply list_elem_of_fmap. exists adj. split; [done|].
    apply list_elem_of_fmap. exists (u, adj). split; [done|].
    by apply elem_of_map_to_list.
  - apply elem_of_list_to_set, list_elem_of_fmap. by exists (v, w).
Qed.

(** The loop ends from every well-formed state: by induction on the nodes
    still at infinity, then on the sum of the distances, then on the length
    of the queue. *)
Lemma dijkstra_loop_ends (graph : gmap node adjacency) (nodes : gset node) :
  nonneg_graph graph → graph_nodes graph ⊆ nodes →
  ∀ a b c distances pq,
    (unreached nodes distances <= a)%nat →
    (Z.to_nat (dist_total distances) <= b)%nat →
    (length pq <= c)%nat →
    loop_ok nodes distances pq →
    ∃ fuel result, dijkstra_loop fuel graph distances pq = Some result.
Proof.
  intros Hg Hn.
  induction a as [a IHa] using lt_wf_ind.
  induction b as [b IHb] using lt_wf_ind.
  induction c as [c IHc] using lt_wf_ind.
  intros distances pq Ha Hb Hc Hok.
  destruct (heappop pq) as [[[cd current] rest]|] eqn:Hpop.
  - destruct (heappop_spec _ _ _ Hpop) as (Hlen & Hin & Hrest).
    assert (loop_ok nodes distances rest) as Hok_rest.
    { destruct Hok as (H1 & H2 & H3). split; [done|]. split; [|done].
      intros d v Hv. apply (H2 d v). by apply Hrest. }
    assert (0 <= cd) as Hcd by (destruct Hok as (_ & H2 & _); by eapply H2).
    destruct (dist_gt cd (distances !! current)) eqn:Hstale.
    + destruct (IHc (length rest) ltac:(lia) distances rest Ha Hb (le_n _) Hok_rest)
        as (fuel & result & Hrun).
      exists (S fuel), result. simpl. by rewrite Hpop, Hstale.
    + destruct (relax_loop_spec nodes cd (default [] (graph !! current)) distances rest
                  Hok_rest Hcd) as (d' & q' & Hfold & Hok' & Hstep).
      { intros v w Hvw. destruct (graph !! current) as [adj|] eqn:Hadj; simpl in Hvw.
        - split; [|by eapply Hg]. apply Hn. by eapply graph_nodes_neighbour.
        - by apply elem_of_nil in Hvw. }
      assert (∃ fuel result, dijkstra_loop fuel graph d' q' = Some result)
        as (fuel & result & Hrun).
      { destruct Hstep as [[= -> ->] | [Hlt | [Heq Hlt]]].
        - apply (IHc (length rest) ltac:(lia) distances rest Ha Hb (le_n _) Hok_rest).
        - apply (IHa (unreached nodes d') ltac:(lia) (Z.to_nat (dist_total d'))
                     (length q') d' q' (le_n _) (le_n _) (le_n _) Hok').
        - assert (0 <= dist_total d') by (apply dist_total_nonneg; apply Hok').
          apply (IHb (Z.to_nat (dist_total d')) ltac:(lia) (length q') d' q'
                     ltac:(lia) (le_n _) (le_n _) Hok'). }
      exists (S fuel), result. simpl. by rewrite Hpop, Hstale, Hfold.
  - exists 0%nat, distances. simpl. by rewrite Hpop.
Qed.

Lemma dijkstra_returns (graph : gmap node adjacency) (start : node) :
  nonneg_graph graph → ∃ fuel distances, dijkstra fuel graph start = Some distances.
Proof.
  intros Hg. unfold dijkstra.
  eapply (dijkstra_loop_ends graph (reachable_nodes graph start) Hg);
    [unfold reachable_nodes; apply union_subseteq_l | done..|].
  split; [|split].
  - intros v d. rewrite lookup_singleton. case_decide; [by intros [= <-]|done].
  - intros d v Hin. apply list_elem_of_singleton in Hin. by injection Hin as -> ->.
  - rewrite dom_singleton_L. unfold reachable_nodes. apply union_subseteq_r.
Qed.

(** On a graph without negative weights [dijkstra] returns. *)
Theorem dijkstra_ends (graph : gmap node adjacency) (start : node) :
  nonneg_graph graph → ∃ fuel distances, dijkstra fuel graph start = Some distances.
Proof. apply dijkstra_returns. Qed.

(** ** The distances of dijkstra are the shortest *)

Lemma heappop_permutation pq x rest :
  heappop pq = Some (x, rest) → pq ≡ₚ x :: rest.
Proof.
  revert x rest. induction pq as [|y pq IH]; intros x rest; simpl; [done|].
  destruct (heappop pq) as [[z rest']|] eqn:E.
  - specialize (IH z rest' eq_refl).
    destruct (entry_leb y z); intros [= <- <-]; [done|].
    rewrite IH. apply Permutation_swap.
  - intros [= <- <-]. by apply heappop_none in E as ->.
Qed.

Lemma settled_lowered (graph : gmap node adjacency) (before after : gmap node Z)
    (u : node) (d : Z) :
  lowered before after → settled graph before u d → settled graph after u d.
Proof.
  intros Hl Hs adj v w Hu Hvw.
  destruct (Hs adj v w Hu Hvw) as (d1 & Hd1 & Hle).
  destruct (Hl v d1 Hd1) as (d2 & Hd2 & Hle2). exists d2. split; [done | lia].
Qed.

(** One relaxation in the middle of the loop over the neighbours. *)
Lemma relax_inv_step (graph : gmap node adjacency) (start current : node) (cd : Z)
    (adj done_edges : adjacency) (distances : gmap node Z) (pq : list (Z * node))
    (v : node) (w : Z) :
  graph !! current = Some adj → (v, w) ∈ adj → walk graph start current cd →
  relax_inv graph start current cd done_edges distances pq →
  ∃ distances' pq', relax cd (distances, pq) (v, w) = (distances', pq') ∧
    relax_inv graph start current cd (done_edges ++ [(v, w)]) distances' pq'.
Proof.
  intros Hadj Hvw Hwalk (Hsound & Hq & Hstart & Hset & Hdone).
  unfold relax, heappush.
  destruct (dist_lt (cd + w) (distances !! v)) eqn:Hlt.
  - eexists _, _. split; [reflexivity|].
    assert (lowered distances (<[v := cd + w]> distances)) as Hlow.
    { intros u d Hu. rewrite lookup_insert. case_decide as Huv.
      - subst u. rewrite Hu in Hlt. simpl in Hlt. apply Z.ltb_lt in Hlt.
        exists (cd + w). split; [done | lia].
      - exists d. split; [done | lia]. }
    split; [|split; [|split; [|split]]].
    + intros u d. rewrite lookup_insert. case_decide as Huv; [|apply Hsound].
      intros [= <-]. subst u. by eapply walk_step.
    + intros d u Hin. apply elem_of_cons in Hin as [[= -> ->] | Hin].
      * exists (cd + w). by rewrite lookup_insert_eq.
      * destruct (Hq d u Hin) as (d1 & Hd1 & Hle).
        destruct (Hlow u d1 Hd1) as (d2 & Hd2 & Hle2). exists d2. split; [done | lia].
    + destruct Hstart as (d0 & Hd0 & Hle).
      destruct (Hlow start d0 Hd0) as (d1 & Hd1 & Hle1). exists d1. split; [done | lia].
    + intros u d. rewrite lookup_insert. case_decide as Huv.
      * intros [= <-] _. subst u. left. by left.
      * intros Hu Hne. destruct (Hset u d Hu Hne) as [Hin | Hs].
        -- left. by right.
        -- right. by eapply settled_lowered.
    + intros v' w' Hin. apply elem_of_app in Hin as [Hin | Hin].
      * destruct (Hdone v' w' Hin) as (d1 & Hd1 & Hle).
        destruct (Hlow v' d1 Hd1) as (d2 & Hd2 & Hle2). exists d2. split; [done | lia].
      * apply list_elem_of_singleton in Hin. injection Hin as -> ->.
        exists (cd + w). by rewrite lookup_insert_eq.
  - eexists _, _. split; [reflexivity|].
    split; [done|]. split; [done|]. split; [done|]. split; [done|].
    intros v' w' Hin. apply elem_of_app in Hin as [Hin | Hin]; [by apply Hdone|].
    apply list_elem_of_singleton in Hin. injection Hin as -> ->.
    destruct (distances !! v) as [c|]; simpl in Hlt; [|done].
    apply Z.ltb_ge in Hlt. exists c. split; [done | lia].
Qed.

Lemma relax_inv_loop (graph : gmap node adjacency) (start current : node) (cd : Z)
    (adj todo : adjacency) :
  graph !! current = Some adj → walk graph start current cd →
  ∀ (done_edges : adjacency) (distances : gmap node Z) (pq : list (Z * node)),
    (∀ e, e ∈ todo → e ∈ adj) →
    relax_inv graph start current cd done_edges distances pq →
    ∃ distances' pq', fold_left (relax cd) todo (distances, pq) = (distances', pq') ∧
      relax_inv graph start current cd (done_edges ++ todo) distances' pq'.
Proof.
  intros Hadj Hwalk. induction todo as [|[v w] todo IH];
    intros done_edges distances pq Hsub Hinv; cbn [fold_left].
  - eexists _, _. split; [reflexivity|]. by rewrite app_nil_r.
  - assert ((v, w) ∈ adj) as Hvw by (apply Hsub; by left).
    destruct (relax_inv_step graph start current cd adj done_edges distances pq v w
                Hadj Hvw Hwalk Hinv) as (d1 & q1 & -> & Hinv1).
    destruct (IH (done_edges ++ [(v, w)]) d1 q1) as (d2 & q2 & -> & Hinv2); [|done|].
    { intros e He. apply Hsub. by right. }
    eexists _, _. split; [reflexivity|]. by rewrite <- app_assoc in Hinv2.
Qed.

(** One iteration of the [while] loop keeps the invariant. *)
Lemma loop_inv_step (graph : gmap node adjacency) (start : node)
    (distances : gmap node Z) (pq : list (Z * node)) (cd : Z) (current : node)
    (rest : list (Z * node)) :
  loop_inv graph start distances pq → heappop pq = Some ((cd, current), rest) →
  if dist_gt cd (distances !! current) then loop_inv graph start distances rest
  else ∃ distances' pq',
    fold_left (relax cd) (default [] (graph !! current)) (distances, rest)
      = (distances', pq') ∧ loop_inv graph start distances' pq'.
Proof.
  intros (Hsound & Hq & Hstart & Hset) Hpop.
  pose proof (heappop_permutation _ _ _ Hpop) as Hperm.
  assert (∀ e, e ∈ rest → e ∈ pq) as Hrest.
  { intros e He. rewrite Hperm. by right. }
  assert (∀ e, e ∈ pq → e = (cd, current) ∨ e ∈ rest) as Hsplit.
  { intros e He. rewrite Hperm in He. by apply elem_of_cons in He. }
  destruct (Hq cd current) as (dc & Hdc & Hle).
  { rewrite Hperm. by left. }
  rewrite Hdc. simpl. destruct (dc <? cd) eqn:Hstale.
  - apply Z.ltb_lt in Hstale. split; [done|]. split; [|split; [done|]].
    + intros d v Hin. apply Hq. by apply Hrest.
    + intros u d Hu. destruct (Hset u d Hu) as [Hin | Hs]; [|by right].
      left. destruct (Hsplit _ Hin) as [[= -> ->] | Hin']; [|done].
      rewrite Hdc in Hu. injection Hu as ->. lia.
  - apply Z.ltb_ge in Hstale. assert (dc = cd) as -> by lia.
    assert (relax_inv graph start current cd [] distances rest) as Hinv.
    { split; [done|]. split; [|split; [done|split]].
      - intros d v Hin. apply Hq. by apply Hrest.
      - intros u d Hu Hne. destruct (Hset u d Hu) as [Hin | Hs]; [|by right].
        left. destruct (Hsplit _ Hin) as [[= -> ->] | Hin']; [done | done].
      - intros v w Hin. by apply elem_of_nil in Hin. }
    destruct (graph !! current) as [adj|] eqn:Hadj; simpl.
    + destruct (relax_inv_loop graph start current cd adj adj Hadj (Hsound _ _ Hdc)
                  [] distances rest ltac:(done) Hinv)
        as (d' & q' & -> & (Hs' & Hq' & Hst' & Hset' & Hdone')).
      eexists _, _. split; [reflexivity|].
      split; [done|]. split; [done|]. split; [done|].
      intros u d Hu. destruct (decide ((u, d) = (current, cd))) as [[= -> ->] | Hne].
      * right. intros adj' v w Hadj' Hvw.
        pose proof (eq_trans (eq_sym Hadj') Hadj) as [= ->]. by apply Hdone'.
      * by apply Hset'.
    + eexists _, _. split; [reflexivity|].
      destruct Hinv as (Hs' & Hq' & Hst' & Hset' & _).
      split; [done|]. split; [done|]. split; [done|].
      intros u d Hu. destruct (decide ((u, d) = (current, cd))) as [[= -> ->] | Hne].
      * right. intros adj' v w Hadj'.
        pose proof (eq_trans (eq_sym Hadj') Hadj) as Hbad. discriminate Hbad.
      * by apply Hset'.
Qed.

Lemma dijkstra_loop_inv (fuel : nat) (graph : gmap node adjacency) (start : node) :
  ∀ (distances : gmap node Z) (pq : list (Z * node)) (result : gmap node Z),
  loop_inv graph start distances pq →
  dijkstra_loop fuel graph distances pq = Some result →
  loop_inv graph start result [].
Proof.
  induction fuel as [|fuel IH]; intros distances pq result Hinv; simpl.
  - destruct (heappop pq) as [[[cd current] rest]|] eqn:Hpop; [done|].
    intros [= <-]. by apply heappop_none in Hpop as ->.
  - destruct (heappop pq) as [[[cd current] rest]|] eqn:Hpop.
    + pose proof (loop_inv_step graph start distances pq cd current rest Hinv Hpop) as Hstep.
      destruct (dist_gt cd (distances !! current)); [by apply IH|].
      destruct Hstep as (d' & q' & -> & Hinv'). by apply IH.
    + intros [= <-]. by apply heappop_none in Hpop as ->.
Qed.

Lemma dijkstra_result_shortest (fuel : nat) (graph : gmap node adjacency)
    (start : node) (distances : gmap node Z) :
  dijkstra fuel graph start = Some distances →
  (∀ v d, distances !! v = Some d → walk graph start v d) ∧
  (∀ v len, walk graph start v len → ∃ d, distances !! v = Some d ∧ d <= len).
Proof.
  unfold dijkstra. intros Hrun.
  assert (loop_inv graph start {[ start := 0 ]} [(0, start)]) as H0.
  { split; [|split; [|split]].
    - intros v d. rewrite lookup_singleton. case_decide; [|done].
      intros [= <-]. subst. constructor.
    - intros d v Hin. apply list_elem_of_singleton in Hin. injection Hin as -> ->.
      exists 0. by rewrite lookup_singleton_eq.
    - exists 0. by rewrite lookup_singleton_eq.
    - intros u d. rewrite lookup_singleton. case_decide; [|done].
      intros [= <-]. subst. left. by left. }
  destruct (dijkstra_loop_inv fuel graph start _ _ _ H0 Hrun)
    as (Hsound & _ & Hstart & Hset).
  split; [done|].
  induction 1 as [|v x adj w len Hwalk IH Hadj Hxw].
  - destruct Hstart as (d0 & Hd0 & Hle). eauto.
  - destruct IH as (d & Hd & Hle).
    destruct (Hset v d Hd) as [Hin | Hs]; [by apply elem_of_nil in Hin|].
    destruct (Hs adj x w Hadj Hxw) as (d' & Hd' & Hle'). exists d'. split; [done | lia].
Qed.

(** What [dijkstra] returns is sound and least: every distance it holds is
    the weight of a walk from the start, and every walk from the start
    weighs at least the distance held for its end. *)
Theorem dijkstra_shortest (fuel : nat) (graph : gmap node adjacency)
    (start : node) (distances : gmap node Z) :
  dijkstra fuel graph start = Some distances →
  (∀ v d, distances !! v = Some d → walk graph start v d) ∧
  (∀ v len, walk graph start v len → ∃ d, distances !! v = Some d ∧ d <= len).
Proof. apply dijkstra_result_shortest. Qed.

Lemma dijkstra_shortest_witness :
  ∃ distances, dijkstra 6 (build_graph four_station_lines) ("A", "GROUND") = Some distances ∧
    (∀ v d, distances !! v = Some d →
       walk (build_graph four_station_lines) ("A", "GROUND") v d) ∧
    (∀ v len, walk (build_graph four_station_lines) ("A", "GROUND") v len →
       ∃ d, distances !! v = Some d ∧ d <= len).
Proof.
  assert (dijkstra 6 (build_graph four_station_lines) ("A", "GROUND")
          = Some (default ∅ (dijkstra 6 (build_graph four_station_lines) ("A", "GROUND"))))
    as E by (apply some_default; vm_compute; reflexivity).
  eexists. split; [exact E|].
  exact (dijkstra_shortest 6 _ _ _ E).
Defined.

(** ** build_graph *)

Lemma assoc_get_set (k k' : node) (v : Z) (d : adjacency) :
  assoc_get k' (assoc_set k v d) = if bool_decide (k = k') then Some v else assoc_get k' d.
Proof.
  induction d as [|[k0 v0] d IH]; simpl.
  - by repeat case_bool_decide.
  - destruct (decide (k0 = k)) as [->|Hne].
    + rewrite bool_decide_eq_true_2 by done. simpl. by repeat case_bool_decide.
    + rewrite bool_decide_eq_false_2 by done. simpl. rewrite IH.
      repeat case_bool_decide; congruence.
Qed.

Lemma assoc_set_keys (k : node) (v : Z) (d : adjacency) :
  NoDup (fst <$> d) → NoDup (fst <$> assoc_set k v d) ∧
  ∀ k', k' ∈ (fst <$> assoc_set k v d) ↔ k' = k ∨ k' ∈ (fst <$> d).
Proof.
  induction d as [|[k0 v0] d IH]; simpl; intros Hnd.
  - split; [apply NoDup_singleton|]. intros k'. rewrite list_elem_of_singleton.
    split; [auto|]. intros [?|H]; [done|]. by apply elem_of_nil in H.
  - apply NoDup_cons in Hnd as [Hk0 Hnd]. destruct (IH Hnd) as [IHnd IHin].
    case_bool_decide as Hk; simpl.
    + subst k0. split; [by apply NoDup_cons|]. intros k'. rewrite !elem_of_cons. tauto.
    + split.
      * apply NoDup_cons. split; [|done]. rewrite IHin. intros [?|?]; [by apply Hk | by apply Hk0].
      * intros k'. rewrite !elem_of_cons, IHin. tauto.
Qed.

Lemma assoc_get_elem (k : node) (v : Z) (d : adjacency) :
  NoDup (fst <$> d) → (k, v) ∈ d ↔ assoc_get k d = Some v.
Proof.
  induction d as [|[k0 v0] d IH]; simpl; intros Hnd.
  - split; [intros H; by apply elem_of_nil in H | done].
  - apply NoDup_cons in Hnd as [Hk0 Hnd]. rewrite elem_of_cons.
    case_bool_decide as Hk.
    + subst k0. split.
      * intros [[= ->] | Hin]; [done|]. exfalso. apply Hk0.
        apply list_elem_of_fmap. by exists (k, v).
      * intros [= ->]. by left.
    + rewrite <- (IH Hnd). split; [|auto]. intros [[= ? ?] | Hin]; [congruence | done].
Qed.

Lemma last_weight_snoc lines data u v :
  last_weight (lines ++ [data]) u v =
  if bool_decide ((from_id data, from_line data) = u ∧ (to_id data, to_line data) = v)
  then Some (time data) else last_weight lines u v.
Proof. unfold last_weight. by rewrite fold_left_app. Qed.

Lemma build_graph_snoc lines data :
  build_graph (lines ++ [data]) = build_graph_step (build_graph lines) data.
Proof. unfold build_graph. by rewrite fold_left_app. Qed.

Lemma build_graph_weights (lines : list edge) :
  (∀ u v, graph_weight (build_graph lines) u v = last_weight lines u v) ∧
  (∀ u adj, build_graph lines !! u = Some adj → NoDup (fst <$> adj)) ∧
  (∀ u adj v w, build_graph lines !! u = Some adj →
     (v, w) ∈ adj ↔ last_weight lines u v = Some w).
Proof.
  assert ((∀ u v, graph_weight (build_graph lines) u v = last_weight lines u v) ∧
          (∀ u adj, build_graph lines !! u = Some adj → NoDup (fst <$> adj))) as [Hw Hnd].
  { induction lines as [|data lines [IHw IHnd]] using rev_ind.
    - split; [done|]. intros u adj. unfold build_graph. simpl. by rewrite lookup_empty.
    - rewrite build_graph_snoc. unfold build_graph_step. split.
      + intros u v. rewrite last_weight_snoc. unfold graph_weight.
        rewrite lookup_insert. case_decide as Hu.
        * rewrite assoc_get_set. subst u.
          specialize (IHw (from_id data, from_line data) v). unfold graph_weight in IHw.
          assert (assoc_get v (default [] (build_graph lines !! (from_id data, from_line data)))
                  = last_weight lines (from_id data, from_line data) v) as ->.
          { rewrite <- IHw. by destruct (build_graph lines !! _). }
          destruct (decide ((to_id data, to_line data) = v)) as [Hv|Hv].
          -- by rewrite !bool_decide_eq_true_2.
          -- rewrite !bool_decide_eq_false_2; [done| |done]. intros [_ ?]. by apply Hv.
        * rewrite <- IHw. unfold graph_weight.
          rewrite bool_decide_eq_false_2; [done|]. intros [? _]. by apply Hu.
      + intros u adj. rewrite lookup_insert. case_decide as Hu; [|apply IHnd].
        intros [= <-]. apply assoc_set_keys.
        destruct (build_graph lines !! (from_id data, from_line data)) as [adj0|] eqn:E;
          simpl; [by eapply IHnd | apply NoDup_nil_2]. }
  split; [done|]. split; [done|].
  intros u adj v w Hadj. rewrite <- Hw. unfold graph_weight. rewrite Hadj.
  apply assoc_get_elem. by eapply Hnd.
Qed.

(** [build_graph] keeps, for every ordered pair of nodes, the weight of the
    last line that names the pair, and lists every neighbour once. *)
Theorem build_graph_last_line_wins (lines : list edge) :
  (∀ u v, graph_weight (build_graph lines) u v = last_weight lines u v) ∧
  (∀ u adj, build_graph lines !! u = Some adj → NoDup (fst <$> adj)) ∧
  (∀ u adj v w, build_graph lines !! u = Some adj →
     (v, w) ∈ adj ↔ last_weight lines u v = Some w).
Proof. apply build_graph_weights. Qed.

(** ** main of graph_times.py, to the end *)

Lemma last_weight_elem (lines : list edge) (u v : node) (w : Z) :
  last_weight lines u v = Some w → ∃ data, data ∈ lines ∧ time data = w.
Proof.
  induction lines as [|data lines IH] using rev_ind; [done|].
  rewrite last_weight_snoc. case_bool_decide.
  - intros [= <-]. exists data. split; [|done]. apply elem_of_app. right. by left.
  - intros Hw. destruct (IH Hw) as (e & He & Ht). exists e. split; [|done].
    apply elem_of_app. by left.
Qed.

(** Lines without negative times give a graph without negative weights. *)
Lemma build_graph_nonneg (lines : list edge) :
  Forall (fun data => 0 <= time data) lines → nonneg_graph (build_graph lines).
Proof.
  intros Hl u adj v w Hadj Hvw.
  destruct (build_graph_weights lines) as (_ & _ & Hlast).
  apply (Hlast u adj v w Hadj) in Hvw.
  destruct (last_weight_elem lines u v w Hvw) as (data & Hin & <-).
  rewrite Forall_forall in Hl. by apply Hl.
Qed.

Lemma rows_from_intro (nodes : list node) (start stop : node)
    (distances : gmap node Z) (d : Z) :
  stop ∈ nodes → distances !! stop = Some d → start ≠ stop →
  is_ground_node stop = true →
  mkRow start.1 stop.1 d ∈ rows_from nodes start distances.
Proof.
  intros Hin Hd Hne Hg. unfold rows_from. apply list_elem_of_omap.
  exists stop. split; [done|]. rewrite Hd, Hg.
  by rewrite bool_decide_eq_false_2.
Qed.

(** A run of the loop of [main] that got to its end has written the rows of
    every GROUND source. *)
Lemma main_loop_complete (fuel : nat) (graph : gmap node adjacency)
    (nodes sources : list node) (start : node) :
  (main_loop fuel graph nodes sources).2 = true →
  start ∈ sources → is_ground_node start = true →
  ∃ distances, dijkstra fuel graph start = Some distances ∧
    ∀ row, row ∈ rows_from nodes start distances →
           row ∈ (main_loop fuel graph nodes sources).1.
Proof.
  induction sources as [|s rest IH]; intros Hfin Hin Hg.
  - by apply elem_of_nil in Hin.
  - simpl in *. destruct (is_ground_node s) eqn:Hs; simpl in *.
    + destruct (dijkstra fuel graph s) as [ds|] eqn:Hd; [|done].
      destruct (main_loop fuel graph nodes rest) as [rows finished] eqn:Hrest.
      simpl in *. apply elem_of_cons in Hin as [-> | Hin].
      * exists ds. split; [done|]. intros row Hrow. apply elem_of_app. by left.
      * destruct (IH Hfin Hin Hg) as (distances & Hrun & Hrows).
        exists distances. split; [done|]. intros row Hrow.
        apply elem_of_app. right. by apply Hrows.
    + apply elem_of_cons in Hin as [-> | Hin]; [congruence|]. by apply IH.
Qed.

Lemma main_loop_finishes (graph : gmap node adjacency) (nodes sources : list node) :
  nonneg_graph graph →
  ∃ fuel, ∀ fuel', (fuel <= fuel')%nat →
    (main_loop fuel' graph nodes sources).2 = true.
Proof.
  intros Hg. induction sources as [|s rest (fuel_rest & IH)]; simpl.
  - by exists 0%nat.
  - destruct (is_ground_node s); simpl; [|by exists fuel_rest].
    destruct (dijkstra_returns graph s Hg) as (fuel_s & ds & Hs).
    exists (fuel_s `max` fuel_rest)%nat. intros fuel' Hle.
    rewrite (dijkstra_fuel fuel_s fuel' graph s ds Hs) by lia.
    specialize (IH fuel' ltac:(lia)).
    by destruct (main_loop fuel' graph nodes rest).
Qed.

Lemma walk_end_in_graph (graph : gmap node adjacency) (u v : node) (len : Z) :
  walk graph u v len → u ≠ v → v ∈ graph_nodes graph.
Proof.
  destruct 1 as [|x y adj w len' _ Hadj Hyw]; [done|]. intros _.
  by eapply graph_nodes_neighbour.
Qed.

(** On lines without negative times [main] gets to its end with enough
    fuel, and then holds, for every GROUND node and every other GROUND node
    that a walk of the graph reaches from it, a row whose time is the weight
    of a walk and is not above the weight of any walk between the two. *)
Theorem main_writes_shortest_times (lines : list edge) :
  Forall (fun data => 0 <= time data) lines →
  ∃ fuel, ∀ fuel', (fuel <= fuel')%nat →
    (main fuel' lines).2 = true ∧
    ∀ start stop len,
      start ∈ graph_nodes (build_graph lines) →
      is_ground_node start = true → is_ground_node stop = true → start ≠ stop →
      walk (build_graph lines) start stop len →
      ∃ t, mkRow start.1 stop.1 t ∈ (main fuel' lines).1 ∧ t <= len ∧
           walk (build_graph lines) start stop t.
Proof.
  intros Hl. unfold main.
  destruct (main_loop_finishes (build_graph lines)
              (elements (graph_nodes (build_graph lines)))
              (elements (graph_nodes (build_graph lines)))
              (build_graph_nonneg lines Hl)) as (fuel & Hfin).
  exists fuel. intros fuel' Hle. split; [by apply Hfin|].
  intros start stop len Hstart Hgs Hgt Hne Hwalk.
  destruct (main_loop_complete fuel' _ _ _ start (Hfin fuel' Hle)) as (ds & Hrun & Hrows);
    [by apply elem_of_elements | done |].
  destruct (dijkstra_result_shortest fuel' _ _ _ Hrun) as [Hsound Hleast].
  destruct (Hleast stop len Hwalk) as (t & Ht & Htle).
  exists t. split; [|split; [done | by apply Hsound]].
  apply Hrows. apply rows_from_intro; try done.
  apply elem_of_elements. by eapply walk_end_in_graph.
Qed.

Lemma main_writes_shortest_times_witness :
  ∃ fuel, ∀ fuel', (fuel <= fuel')%nat →
    (main fuel' four_station_lines).2 = true ∧
    ∀ start stop len,
      start ∈ graph_nodes (build_graph four_station_lines) →
      is_ground_node start = true → is_ground_node stop = true → start ≠ stop →
      walk (build_graph four_station_lines) start stop len →
      ∃ t, mkRow start.1 stop.1 t ∈ (main fuel' four_station_lines).1 ∧ t <= len ∧
           walk (build_graph four_station_lines) start stop t.
Proof.
  apply (main_writes_shortest_times four_station_lines).
  unfold four_station_lines. repeat constructor; simpl; lia.
Defined.

(** Every row [main] writes, finished or not, carries the weight of a walk
    between its two GROUND nodes, and no walk between them weighs less. *)
Theorem main_rows_are_shortest (fuel : nat) (lines : list edge) (row : path_row) :
  row ∈ (main fuel lines).1 →
  ∃ start stop,
    is_ground_node start = true ∧ is_ground_node stop = true ∧
    from_station row = start.1 ∧ to_station row = stop.1 ∧
    walk (build_graph lines) start stop (row_time row) ∧
    ∀ len, walk (build_graph lines) start stop len → row_time row <= len.
Proof.
  unfold main. intros Hrow.
  apply main_loop_rows in Hrow
    as (start & stop & distances & Hs & Ht & Hgs & Hgt & Hne & Hd & Hdist & Hfrom & Hto).
  destruct (dijkstra_result_shortest fuel _ _ _ Hd) as [Hsound Hleast].
  exists start, stop. repeat split; try done.
  - by apply Hsound.
  - intros len Hwalk. destruct (Hleast stop len Hwalk) as (d & Hd' & Hle).
    rewrite Hdist in Hd'. by injection Hd' as <-.
Qed.

Lemma main_rows_are_shortest_witness :
  ∃ start stop : node,
    is_ground_node start = true ∧ is_ground_node stop = true ∧
    from_station (mkRow "A" "B" 19) = start.1 ∧ to_station (mkRow "A" "B" 19) = stop.1 ∧
    walk (build_graph four_station_lines) start stop (row_time (mkRow "A" "B" 19)) ∧
    ∀ len, walk (build_graph four_station_lines) start stop len →
           row_time (mkRow "A" "B" 19) <= len.
Proof.
  apply (main_rows_are_shortest 6 four_station_lines (mkRow "A" "B" 19)).
  vm_compute. left.
Defined.

Lemma dijkstra_ends_witness :
  ∃ fuel distances,
    dijkstra fuel (build_graph four_station_lines) ("A", "GROUND") = Some distances.
Proof.
  apply (dijkstra_ends (build_graph four_station_lines) ("A", "GROUND")).
  apply build_graph_nonneg. unfold four_station_lines. repeat constructor; simpl; lia.
Defined.

(** ** merge_line_edges: the shape of the result *)

Lemma grown_refl st : grown st st.
Proof.
  split; [|split; [done|]].
  - intros i r Hr. exists r. split; [done|]. split; [done | lia].
  - lia.
Qed.

Lemma grown_trans st1 st2 st3 : grown st1 st2 → grown st2 st3 → grown st1 st3.
Proof.
  intros (Hr1 & Hi1 & Hu1 & Hn1 & Hl1) (Hr2 & Hi2 & Hu2 & Hn2 & Hl2).
  split; [|split; [|split; [lia | split; lia]]].
  - intros i r Hr. destruct (Hr1 i r Hr) as (r' & Hr' & Hk & Hw).
    destruct (Hr2 i r' Hr') as (r'' & Hr'' & Hk' & Hw').
    exists r''. split; [done|]. split; [congruence | lia].
  - intros key idx Hidx. by apply Hi2, Hi1.
Qed.

Lemma merge_line_edge_grown st e st' :
  merge_line_edge st e = Some st' →
  grown st st' ∧ (updates st' - updates st) + (inserts st' - inserts st) <= 1.
Proof.
  unfold merge_line_edge.
  destruct (st_index st !! edge_key e) as [idx|] eqn:Hidx.
  - destruct (st_records st !! idx) as [r|] eqn:Hr; [|done].
    destruct (time e <? time r) eqn:Hlt.
    + intros [= <-]. simpl. apply Z.ltb_lt in Hlt. split; [|lia].
      split; [|split; [done|]]; simpl.
      * intros i r0 Hr0. destruct (decide (i = idx)) as [->|Hne].
        -- exists (set_time r (time e)). rewrite list_lookup_insert_eq
             by (by eapply lookup_lt_Some).
           rewrite Hr in Hr0. injection Hr0 as <-. split; [done|]. split; [done|].
           simpl. lia.
        -- exists r0. rewrite list_lookup_insert_ne by done.
           split; [done|]. split; [done | lia].
      * rewrite length_insert. lia.
    + intros [= <-]. split; [apply grown_refl | lia].
  - intros [= <-]. simpl. split; [|lia].
    split; [|split]; simpl.
    + intros i r Hr. exists r. rewrite lookup_app_l by (by eapply lookup_lt_Some).
      split; [done|]. split; [done | lia].
    + intros key idx Hk. rewrite lookup_insert_ne; [done|]. congruence.
    + rewrite length_app. simpl. lia.
Qed.

Lemma merge_loop_grown new_edges : ∀ st st',
  merge_loop st new_edges = Some st' →
  grown st st' ∧
  (updates st' - updates st) + (inserts st' - inserts st) <= Z.of_nat (length new_edges).
Proof.
  induction new_edges as [|e rest IH]; intros st st'; simpl.
  - intros [= <-]. split; [apply grown_refl | lia].
  - destruct (merge_line_edge st e) as [st1|] eqn:E; [|done]. intros Hrest.
    destruct (merge_line_edge_grown st e st1 E) as [Hg1 Hc1].
    destruct (IH st1 st' Hrest) as [Hg2 Hc2].
    split; [by eapply grown_trans | lia].
Qed.

(** Whenever [merge_line_edges] returns: every record is still at its place
    with its key and a weight not above the old one, every index entry is
    kept, the list has grown by exactly the number of inserts reported, and
    updates and inserts together are at most one per new edge. *)
Theorem merge_line_edges_shape
    (records : list edge) (index : gmap EdgeKey nat) (new_edges : list edge)
    (records' : list edge) (index' : gmap EdgeKey nat) (n_updates n_inserts : Z) :
  merge_line_edges records index new_edges
    = Some (records', index', (n_updates, n_inserts)) →
  (∀ i r, records !! i = Some r →
     ∃ r', records' !! i = Some r' ∧ edge_key r' = edge_key r ∧ time r' <= time r) ∧
  (∀ key idx, index !! key = Some idx → index' !! key = Some idx) ∧
  length records' = (length records + Z.to_nat n_inserts)%nat ∧
  0 <= n_updates ∧ 0 <= n_inserts ∧
  n_updates + n_inserts <= Z.of_nat (length new_edges).
Proof.
  unfold merge_line_edges.
  destruct (merge_loop (mkMerge records index 0 0) new_edges) as [st'|] eqn:E; [|done].
  intros [= <- <- <- <-].
  destruct (merge_loop_grown new_edges _ _ E) as [(Hr & Hi & Hu & Hn & Hl) Hc].
  simpl in *. repeat split; try done; lia.
Qed.

Lemma merge_line_edges_shape_witness :
  let e10 := mkEdge "910GPADTON" "gw-slow" "910GRDNGSTN" "gw-slow" 10 in
  let e7 := mkEdge "910GPADTON" "gw-slow" "910GRDNGSTN" "gw-slow" 7 in
  length [e7] = (length (@nil edge) + Z.to_nat 1)%nat ∧ 1 + 1 <= Z.of_nat (length [e10; e7]).
Proof.
  intros e10 e7.
  destruct (merge_line_edges_shape [] ∅ [e10; e7] [e7] (<[edge_key e7 := 0%nat]> ∅) 1 1)
    as (_ & _ & Hlen & _ & _ & Hcount).
  { unfold merge_line_edges, merge_loop, merge_line_edge. simpl.
    rewrite lookup_empty. simpl. rewrite lookup_insert_eq. reflexivity. }
  split; [exact Hlen | exact Hcount].
Defined.

(** ** merge_line_edges: the order of the new edges *)

Lemma least_observed_perm (l l' : list Z) :
  l ≡ₚ l' → ∀ before, least_observed before l = least_observed before l'.
Proof.
  unfold least_observed.
  induction 1 as [|x l l' _ IH|x y l|l1 l2 l3 _ IH1 _ IH2]; intros before; simpl.
  - done.
  - apply IH.
  - f_equal. destruct before; f_equal; lia.
  - by rewrite IH1.
Qed.

Lemma offered_perm key (l l' : list edge) :
  l ≡ₚ l' → offered key l ≡ₚ offered key l'.
Proof.
  unfold offered.
  induction 1 as [|x l l' _ IH|x y l|l1 l2 l3 _ IH1 _ IH2]; simpl.
  - done.
  - destruct (bool_decide (edge_key x = key)); simpl; by rewrite IH.
  - destruct (bool_decide (edge_key x = key)), (bool_decide (edge_key y = key));
      simpl; try done. apply Permutation_swap.
  - by rewrite IH1.
Qed.

(** The weight stored for a key after a merge does not depend on the order
    in which the new edges come. *)
Theorem merge_line_edges_order_independent
    (records : list edge) (index : gmap EdgeKey nat) (new_edges new_edges' : list edge) :
  index_ok records index → new_edges ≡ₚ new_edges' →
  ∃ records1 index1 counts1 records2 index2 counts2,
    merge_line_edges records index new_edges = Some (records1, index1, counts1) ∧
    merge_line_edges records index new_edges' = Some (records2, index2, counts2) ∧
    ∀ key, stored records1 index1 key = stored records2 index2 key.
Proof.
  intros Hok Hperm. unfold merge_line_edges.
  destruct (merge_loop_spec new_edges (mkMerge records index 0 0) Hok)
    as (st1 & -> & _ & H1).
  destruct (merge_loop_spec new_edges' (mkMerge records index 0 0) Hok)
    as (st2 & -> & _ & H2).
  eexists _, _, _, _, _, _. split; [reflexivity|]. split; [reflexivity|].
  intros key. rewrite H1, H2. apply least_observed_perm. by apply offered_perm.
Qed.

Lemma merge_line_edges_order_independent_witness :
  let e10 := mkEdge "910GPADTON" "gw-slow" "910GRDNGSTN" "gw-slow" 10 in
  let e7 := mkEdge "910GPADTON" "gw-slow" "910GRDNGSTN" "gw-slow" 7 in
  ∃ records1 index1 counts1 records2 index2 counts2,
    merge_line_edges [] ∅ [e10; e7] = Some (records1, index1, counts1) ∧
    merge_line_edges [] ∅ [e7; e10] = Some (records2, index2, counts2) ∧
    ∀ key, stored records1 index1 key = stored records2 index2 key.
Proof.
  intros e10 e7.
  apply (merge_line_edges_order_independent [] ∅ [e10; e7] [e7; e10]).
  - intros key idx H. rewrite lookup_empty in H. discriminate H.
  - apply Permutation_swap.
Defined.

(** ** The line half of main, and what graph_times reads afterwards *)

Lemma last_pos_keys_snoc keys k key :
  last_pos_keys (keys ++ [k]) key =
  if bool_decide (k = key) then Some (length keys) else last_pos_keys keys key.
Proof.
  unfold last_pos_keys. rewrite imap_app, fold_left_app. simpl.
  by rewrite Nat.add_0_r.
Qed.

Lemma last_pos_snoc records r key :
  last_pos (records ++ [r]) key =
  if bool_decide (edge_key r = key) then Some (length records) else last_pos records key.
Proof.
  unfold last_pos. rewrite fmap_app. simpl. rewrite last_pos_keys_snoc.
  by rewrite length_fmap.
Qed.

Lemma last_pos_lookup records key i :
  last_pos records key = Some i →
  ∃ r, records !! i = Some r ∧ edge_key r = key.
Proof.
  induction records as [|r records IH] using rev_ind; [done|].
  rewrite last_pos_snoc. case_bool_decide as Hk.
  - intros [= <-]. exists r. split; [|done].
    rewrite lookup_app_r by lia. by rewrite Nat.sub_diag.
  - intros Hi. destruct (IH Hi) as (r' & Hr' & Hk'). exists r'. split; [|done].
    rewrite lookup_app_l; [done|]. by eapply lookup_lt_Some.
Qed.

Lemma key_nodes_eq (r : edge) (key : EdgeKey) :
  ((from_id r, from_line r) = key_from key ∧ (to_id r, to_line r) = key_to key)
  ↔ edge_key r = key.
Proof.
  destruct key as [[[a l] b] l']. unfold key_from, key_to, edge_key. simpl.
  split; [intros [[= -> ->] [= -> ->]]; done | intros [= -> -> -> ->]; done].
Qed.

(** The weight of the last line of a key is the weight at its last place. *)
Lemma last_weight_last_pos records key :
  last_weight records (key_from key) (key_to key)
  = match last_pos records key with
    | Some i => time <$> records !! i
    | None => None
    end.
Proof.
  induction records as [|r records IH] using rev_ind; [done|].
  rewrite last_weight_snoc, last_pos_snoc.
  rewrite (bool_decide_ext _ _ (key_nodes_eq r key)).
  case_bool_decide as Hk.
  - rewrite lookup_app_r by lia. by rewrite Nat.sub_diag.
  - rewrite IH. destruct (last_pos records key) as [i|] eqn:Hi; [|done].
    destruct (last_pos_lookup _ _ _ Hi) as (r' & Hr' & _).
    rewrite lookup_app_l; [done|]. by eapply lookup_lt_Some.
Qed.

Lemma index_last_ok records index : index_last records index → index_ok records index.
Proof.
  intros Hl key idx Hidx. rewrite Hl in Hidx. by apply last_pos_lookup.
Qed.

Lemma index_last_stored records index key :
  index_last records index →
  stored records index key = last_weight records (key_from key) (key_to key).
Proof.
  intros Hl. unfold stored. by rewrite Hl, last_weight_last_pos.
Qed.

Lemma load_line_records_snoc (lines : list (option edge)) (line : option edge) :
  load_line_records (lines ++ [line])
  = load_line_step (load_line_records lines) (length lines, line).
Proof.
  unfold load_line_records. rewrite imap_app, fold_left_app. simpl.
  by rewrite Nat.add_0_r.
Qed.

(** A file without blank lines loads as it is, with every key indexed at its
    last line. *)
Lemma load_line_records_last (edges : list edge) :
  ∃ index, load_line_records (Some <$> edges) = (edges, index) ∧ index_last edges index.
Proof.
  induction edges as [|e edges (index & Hload & Hlast)] using rev_ind.
  - exists ∅. split; [done|]. intros key. by rewrite lookup_empty.
  - rewrite fmap_app. simpl. rewrite load_line_records_snoc, Hload. simpl.
    rewrite length_fmap. eexists. split; [reflexivity|].
    intros key. rewrite lookup_insert, last_pos_snoc.
    case_decide as Hk; [by rewrite bool_decide_eq_true_2|].
    by rewrite bool_decide_eq_false_2.
Qed.

Lemma merge_line_edge_index_last st e st' :
  index_last (st_records st) (st_index st) →
  merge_line_edge st e = Some st' →
  index_last (st_records st') (st_index st').
Proof.
  intros Hl. unfold merge_line_edge.
  destruct (st_index st !! edge_key e) as [idx|] eqn:Hidx.
  - destruct (st_records st !! idx) as [r|] eqn:Hr; [|done].
    destruct (time e <? time r); intros [= <-]; [|done]. simpl.
    intros key. rewrite Hl. unfold last_pos. f_equal.
    rewrite list_fmap_insert. simpl. symmetry.
    apply list_insert_id. by rewrite list_lookup_fmap, Hr.
  - intros [= <-]. simpl. intros key.
    rewrite length_app. simpl.
    replace (length (st_records st) + 1 - 1)%nat with (length (st_records st)) by lia.
    rewrite lookup_insert. rewrite (last_pos_snoc (st_records st)). simpl.
    fold (edge_key e).
    case_decide as Hk; [by rewrite bool_decide_eq_true_2|].
    by rewrite bool_decide_eq_false_2.
Qed.

Lemma merge_loop_index_last new_edges : ∀ st st',
  index_last (st_records st) (st_index st) →
  merge_loop st new_edges = Some st' →
  index_last (st_records st') (st_index st').
Proof.
  induction new_edges as [|e rest IH]; intros st st' Hl; simpl.
  - by intros [= <-].
  - destruct (merge_line_edge st e) as [st1|] eqn:E; [|done].
    apply IH. by eapply merge_line_edge_index_last.
Qed.

(** From a [lines.jsonl] without blank lines the line half of [main]
    returns, and the graph that [graph_times] then builds from the lines
    written holds, for every pair of nodes, the least of the weight the old
    file gave the pair and the weights the new edges offer for it. *)
Theorem main_lines_graph_keeps_minimum (edges new_edges : list edge) :
  ∃ written counts,
    main_lines (Some <$> edges) new_edges = Some (written, counts) ∧
    ∀ key,
      graph_weight (build_graph written) (key_from key) (key_to key)
      = least_observed (graph_weight (build_graph edges) (key_from key) (key_to key))
                       (offered key new_edges).
Proof.
  unfold main_lines, merge_line_edges.
  destruct (load_line_records_last edges) as (index & -> & Hlast).
  destruct (merge_loop_spec new_edges (mkMerge edges index 0 0)
              (index_last_ok _ _ Hlast)) as (st' & Hrun & _ & Hmin).
  rewrite Hrun. eexists _, _. split; [reflexivity|].
  pose proof (merge_loop_index_last new_edges (mkMerge edges index 0 0) st' Hlast Hrun)
    as Hlast'.
  simpl in Hmin. intros key. unfold write_line_records.
  destruct (build_graph_weights (st_records st')) as [-> _].
  destruct (build_graph_weights edges) as [-> _].
  rewrite <- (index_last_stored _ _ key Hlast'), <- (index_last_stored _ _ key Hlast).
  apply Hmin.
Qed.

(** ** extract_stop_events: the stops *)

Lemma returned_cons self raw raws :
  returned self (raw :: raws)
  = option_list (parse self raw).1 ++ returned (parse self raw).2 raws.
Proof.
  unfold returned. simpl. destruct (parse self raw) as [[v|] self']; reflexivity.
Qed.

Lemma returned_app raws1 : ∀ self raws2,
  returned self (raws1 ++ raws2) = returned self raws1 ++ returned (feed self raws1) raws2.
Proof.
  induction raws1 as [|raw raws1 IH]; intros self raws2; [done|].
  rewrite <- app_comm_cons, !returned_cons, IH. by rewrite app_assoc.
Qed.

Lemma stop_times_snoc stops s :
  stop_times (stops ++ [s])
  = stop_times stops ++ option_list (se_arrival s) ++ option_list (se_departure s).
Proof. unfold stop_times. rewrite flat_map_app. simpl. by rewrite app_nil_r. Qed.

(** One iteration of the loop: the stops grow by the values parsed, the
    instance moves on by the tokens parsed, and every new stop is a good
    one. *)
Lemma extract_step_spec metadata st loc :
  let st' := extract_step metadata st loc in
  stop_times (stops st') = stop_times (stops st)
                           ++ returned (normaliser st) (tokens_of metadata loc) ∧
  normaliser st' = feed (normaliser st) (tokens_of metadata loc) ∧
  (Forall (stop_ok metadata) (stops st) → Forall (stop_ok metadata) (stops st')).
Proof.
  unfold extract_step, tokens_of. cbv zeta.
  destruct (in_catalogue metadata loc) eqn:Hin; simpl;
    [|by rewrite app_nil_r].
  destruct (has_public_time loc) eqn:Hpub; simpl; [|by rewrite app_nil_r].
  rewrite !returned_cons. unfold returned at 1. simpl.
  destruct (parse (normaliser st) _) as [a n1] eqn:Ha. simpl.
  destruct (parse n1 _) as [d n2] eqn:Hd. simpl.
  assert (is_Some (metadata !! loc_tiploc loc)) as Hmeta.
  { unfold in_catalogue in Hin. apply andb_true_iff in Hin as [_ Hin].
    by apply bool_decide_eq_true in Hin. }
  destruct a as [a|], d as [d|]; simpl;
    rewrite ?stop_times_snoc, ?app_nil_r; simpl;
    (split; [done|]); (split; [done|]); try done;
    intros Hall; apply Forall_app; (split; [done|]);
    apply Forall_singleton; (split; [done|]); (split; [done|]); simpl; eauto.
Qed.

Lemma extract_loop_spec metadata locations : ∀ st,
  let st' := fold_left (extract_step metadata) locations st in
  stop_times (stops st') = stop_times (stops st)
    ++ returned (normaliser st) (flat_map (tokens_of metadata) locations) ∧
  (Forall (stop_ok metadata) (stops st) → Forall (stop_ok metadata) (stops st')).
Proof.
  induction locations as [|loc locations IH]; intros st; simpl.
  - by rewrite app_nil_r.
  - destruct (extract_step_spec metadata st loc) as (Ht & Hn & Hok).
    destruct (IH (extract_step metadata st loc)) as [IHt IHok].
    split; [|auto].
    rewrite IHt, Ht, Hn, returned_app. by rewrite app_assoc.
Qed.

Lemma known_ratio_bounds metadata seg :
  (0 <= known_ratio metadata seg <= 1)%Q.
Proof.
  unfold known_ratio. cbv zeta. case_bool_decide as Hlen; [lra|].
  set (known := known_points metadata seg) in *.
  pose proof (List.filter_length_le has_public_time known) as Hle.
  assert (0 < inject_Z (Z.of_nat (length known)))%Q as Hpos.
  { change 0%Q with (inject_Z 0). rewrite <- Zlt_Qlt. lia. }
  assert (0 <= inject_Z (Z.of_nat (length (List.filter has_public_time known))))%Q as H0.
  { change 0%Q with (inject_Z 0). rewrite <- Zle_Qle. lia. }
  assert (inject_Z (Z.of_nat (length (List.filter has_public_time known)))
          <= inject_Z (Z.of_nat (length known)))%Q as H1.
  { rewrite <- Zle_Qle. lia. }
  split.
  - apply Qle_shift_div_l; [done|]. lra.
  - apply Qle_shift_div_r; [done|]. lra.
Qed.

(** What [extract_stop_events] returns: the stop-ratio lies between 0 and
    1; every stop is at a location of the catalogue, carries the station id
    of that location and has an arrival or a departure; and when the tokens
    of the schedule are times of day the times of the stops, read in order
    (arrival then departure, stop after stop), never go back. *)
Theorem extract_stop_events_stops
    (seg : schedule_segment) (metadata : gmap string StationMetadata) :
  (0 <= (extract_stop_events seg metadata).2 <= 1)%Q ∧
  Forall (stop_ok metadata) (extract_stop_events seg metadata).1 ∧
  (Forall time_of_day
     (flat_map (tokens_of metadata) (default [] (schedule_location_list seg))) →
   StronglySorted Qle (stop_times (extract_stop_events seg metadata).1)).
Proof.
  split; [|split].
  - assert ((extract_stop_events seg metadata).2 = known_ratio metadata seg) as ->.
    { unfold extract_stop_events, known_ratio, known_points.
      destruct (default [] (schedule_location_list seg)) as [|loc locations] eqn:E;
        [reflexivity|].
      cbv zeta. rewrite <- E. set (locs := default [] (schedule_location_list seg)).
      destruct (extract_counts metadata locs (mkExtract TimeNormalizer_init [] 0 0))
        as [Ht Hp].
      cbn [snd]. simpl total_points in *. simpl public_stops in *.
      rewrite Ht, Hp, !Z.add_0_l.
      repeat case_bool_decide; try reflexivity; lia. }
    apply known_ratio_bounds.
  - unfold extract_stop_events.
    destruct (default [] (schedule_location_list seg)) as [|loc locations] eqn:E;
      [constructor|].
    cbn [fst]. by apply (extract_loop_spec metadata (loc :: locations)).
  - intros Htok. unfold extract_stop_events.
    destruct (default [] (schedule_location_list seg)) as [|loc locations] eqn:E;
      [constructor|].
    cbn [fst].
    destruct (extract_loop_spec metadata (loc :: locations)
                (mkExtract TimeNormalizer_init [] 0 0)) as [Ht _].
    rewrite Ht. simpl stop_times at 1. simpl app at 1.
    by apply returned_sorted.
Qed.

Lemma extract_stop_events_stops_witness :
  (0 <= (extract_stop_events example_segment example_catalogue).2 <= 1)%Q ∧
  Forall (stop_ok example_catalogue) (extract_stop_events example_segment example_catalogue).1 ∧
  StronglySorted Qle (stop_times (extract_stop_events example_segment example_catalogue).1).
Proof.
  destruct (extract_stop_events_stops example_segment example_catalogue)
    as (Hratio & Hstops & Htimes).
  split; [exact Hratio|]. split; [exact Hstops|].
  apply Htimes.
  assert (flat_map (tokens_of example_catalogue)
            (default [] (schedule_location_list example_segment))
          = [None; tok "2350"; tok "0014H"; None]) as ->
    by (vm_compute; reflexivity).
  repeat constructor; intros b Hb; vm_compute in Hb; inversion Hb; reflexivity.
Defined.

(** ** Hub ids and station ids *)

Lemma startswith_app (prefix rest : string) :
  Py.startswith (prefix +:+ rest) prefix = true.
Proof.
  unfold Py.startswith. apply bool_decide_eq_true.
  rewrite chars_app. by rewrite take_app_length.
Qed.

Lemma hub_id_for_station_is_hub meta : is_hub_id (hub_id_for_station meta) = true.
Proof.
  unfold hub_id_for_station, is_hub_id.
  assert (∀ rest, Py.startswith ("HUBNR_" +:+ rest) "HUB" = true) as Hnr.
  { intros rest. apply (startswith_app "HUB" ("NR_" +:+ rest)). }
  destruct (three_alpha meta), (latitude meta), (longitude meta); try apply Hnr.
  destruct (_ && _); [apply startswith_app | apply Hnr].
Qed.

Lemma station_id_from_tiploc_not_hub t : is_hub_id (station_id_from_tiploc t) = false.
Proof.
  unfold is_hub_id, station_id_from_tiploc, Py.startswith.
  apply bool_decide_eq_false. rewrite chars_app. simpl. discriminate.
Qed.

(** ** The station pipeline: what is written *)

Section Catalogue.

Variable float_repr : Q → string.

Lemma renamed_from_insert records current sid (r0 r : record) v :
  renamed_from records current →
  records !! sid = Some r0 → (∀ f, f ≠ "station_name" → r !! f = r0 !! f) →
  renamed_from records (<[sid := <["station_name" := v]> r]> current).
Proof.
  intros [Hdom Hframe] Hr0 Hr. split.
  - intros sid' Hs. rewrite lookup_insert. case_decide; [eauto | by apply Hdom].
  - intros sid' r'. rewrite lookup_insert. case_decide as Hs; [|by apply Hframe].
    intros [= <-]. subst sid'. exists r0. split; [done|].
    intros f Hf. rewrite lookup_insert_ne by done. by apply Hr.
Qed.

Lemma ensure_unique_station_names_frame records records' :
  ensure_unique_station_names float_repr records = Some records' →
  renamed_from records records'.
Proof.
  unfold ensure_unique_station_names.
  destruct (fold_left group_step (map_to_list records) (Some (records, ∅)))
    as [[records1 name_groups]|] eqn:E1; simpl; [|done].
  assert (renamed_from records records) as H0.
  { split; [done|]. intros sid r Hr. eauto. }
  assert (renamed_from records records1) as H1.
  { refine (fold_left_option_inv group_step
             (fun s => renamed_from records s.1)
             (fun item => records !! item.1 = Some item.2)
             _ _ (map_to_list records) (records, ∅) (records1, name_groups) H0 _ E1).
    - done.
    - intros [recs groups] [sid r] [recs' groups'] Hs Hr. simpl in *.
      destruct (as_str _) as [nm|]; simpl; [|done].
      intros [= <- <-]. by eapply renamed_from_insert.
    - apply Forall_forall. intros [sid r] Hin.
      by apply elem_of_map_to_list in Hin. }
  refine (fold_left_option_inv (rename_group float_repr) (renamed_from records)
            (fun _ => True) _ _ _ records1 records' H1 _); [done| |by apply Forall_true].
  intros recs ids recs' Hrecs _. unfold rename_group. simpl.
  destruct (length ids <=? 1)%nat; [by intros [= <-]|].
  destruct (fold_left (rename_step float_repr) _ _) as [[recs2 seen]|] eqn:E2; [|done].
  intros H. injection H as <-.
  refine (fold_left_option_inv (rename_step float_repr)
            (fun s => renamed_from records s.1) (fun _ => True) _ _
            _ (recs, ∅) (recs2, seen) Hrecs _ E2); [done| |by apply Forall_true].
  intros [rs sn] [idx sid] [rs' sn'] Hs _. cbn -[find_candidate] in *.
  destruct (rs !! sid) as [r|] eqn:Er; cbn -[find_candidate]; [|done].
  destruct (if bool_decide (idx = 0%nat) then _ else _) as [new_name|];
    cbn -[find_candidate]; [|done].
  destruct (find_candidate _ _ _ _ _) as [candidate|]; cbn; [|done].
  intros [= <- <-]. destruct Hs as [Hdom Hframe].
  destruct (Hframe sid r Er) as (r0 & Hr0 & Hf).
  by eapply renamed_from_insert.
Qed.

(** Whenever [ensure_unique_station_names] returns, the catalogue holds the
    same station ids as before and every record differs from the one it was
    at most in its station_name. *)
Theorem ensure_unique_station_names_only_renames
    (records records' : gmap string record) :
  ensure_unique_station_names float_repr records = Some records' →
  ∀ sid,
    (is_Some (records' !! sid) ↔ is_Some (records !! sid)) ∧
    ∀ r', records' !! sid = Some r' →
      ∃ r, records !! sid = Some r ∧ ∀ f, f ≠ "station_name" → r' !! f = r !! f.
Proof.
  intros Hrun sid.
  destruct (ensure_unique_station_names_frame records records' Hrun) as [Hdom Hframe].
  split; [split; [|apply Hdom] | apply Hframe].
  intros [r' Hr']. destruct (Hframe sid r' Hr') as (r & Hr & _). eauto.
Qed.

Lemma write_station_records_elem_iff (records : gmap string record) r :
  r ∈ write_station_records records ↔ ∃ station_id, records !! station_id = Some r.
Proof.
  unfold write_station_records. rewrite list_elem_of_omap. split.
  - intros (sid & _ & Hr). eauto.
  - intros (sid & Hr). exists sid. split; [|done].
    unfold sorted_ids. rewrite merge_sort_Permutation.
    apply list_elem_of_fmap. exists (sid, r). split; [done|].
    by apply elem_of_map_to_list.
Qed.

Lemma load_station_loop_dom lines : ∀ (records records' : gmap string record) sid,
  fold_left load_station_step lines (Some records) = Some records' →
  is_Some (records' !! sid) ↔
  is_Some (records !! sid) ∨
  ∃ data, data ∈ lines ∧ get data "station_id" = JStr sid ∧ sid ≠ "".
Proof.
  induction lines as [|data lines IH]; intros records records' sid; simpl.
  - intros [= <-]. split; [auto|]. intros [?|(d & Hd & _)]; [done|].
    by apply elem_of_nil in Hd.
  - destruct (truthy (get data "station_id")) eqn:Ht; simpl.
    + destruct (get data "station_id") as [| | | |s] eqn:Hid;
        try (by rewrite load_station_step_none).
      intros Hrun. rewrite (IH _ _ sid Hrun). rewrite lookup_insert.
      simpl in Ht. apply negb_true_iff, bool_decide_eq_false in Ht.
      split.
      * intros [Hs | (d & Hd & Hg & Hne)].
        -- destruct (decide (s = sid)) as [->|Hne]; [|by left].
           right. exists data. split; [by left|]. done.
        -- right. exists d. split; [by right | done].
      * intros [Hs | (d & Hd & Hg & Hne)].
        -- left. destruct (decide (s = sid)); eauto.
        -- apply elem_of_cons in Hd as [-> | Hd].
           ++ left. rewrite Hid in Hg. injection Hg as ->.
              destruct (decide (sid = sid)); [eauto | done].
           ++ right. eauto.
    + intros Hrun. rewrite (IH _ _ sid Hrun). split.
      * intros [?|(d & Hd & H)]; [by left|]. right. exists d. split; [by right | done].
      * intros [?|(d & Hd & Hg & Hne)]; [by left|].
        apply elem_of_cons in Hd as [-> | Hd]; [|right; eauto].
        rewrite Hg in Ht. simpl in Ht.
        apply negb_false_iff, bool_decide_eq_true in Ht. done.
Qed.

Lemma merge_loop_dom national : ∀ (existing : gmap string record) sid,
  is_Some (fold_left merge_station national existing !! sid) ↔
  is_Some (existing !! sid) ∨ sid ∈ (fst <$> national).
Proof.
  induction national as [|[s meta] national IH]; intros existing sid; simpl.
  - split; [auto|]. intros [?|H]; [done|]. by apply elem_of_nil in H.
  - rewrite IH, lookup_insert, elem_of_cons. destruct (decide (s = sid)) as [->|Hne].
    + split; [auto|]. intros _. left. eauto.
    + split; [intros [?|?]; auto|]. intros [?|[?|?]]; auto. congruence.
Qed.

(** Whenever the station pipeline returns, every record it writes carries a
    station id, and the ids written are exactly those that do not begin with
    "HUB" among the ids of the persisted lines and of the national
    stations. *)
Theorem main_stations_writes_non_hub
    (lines : list record) (national_stations : list (string * StationMetadata))
    (written : list record) :
  main_stations float_repr lines national_stations = Some written →
  (∀ r, r ∈ written → ∃ sid, r !! "station_id" = Some (JStr sid)) ∧
  ∀ sid,
    (∃ r, r ∈ written ∧ r !! "station_id" = Some (JStr sid)) ↔
    is_hub_id sid = false ∧
    (sid ∈ (fst <$> national_stations) ∨
     ∃ data, data ∈ lines ∧ get data "station_id" = JStr sid ∧ sid ≠ "").
Proof.
  unfold main_stations.
  destruct (load_station_records lines) as [loaded|] eqn:Hload; simpl; [|done].
  destruct (ensure_unique_station_names _ _) as [named|] eqn:Hnames; simpl; [|done].
  intros [= <-].
  pose proof (load_station_records_keyed _ _ Hload) as Hkeyed.
  pose proof (filter_ground_nodes_ok _
                (merge_station_metadata_keyed loaded national_stations Hkeyed)) as Hok.
  pose proof (ensure_unique_station_names_ok float_repr _ _ Hok Hnames) as Hok'.
  destruct (ensure_unique_station_names_frame _ _ Hnames) as [Hdom Hframe].
  split.
  { intros r Hr. apply write_station_records_elem_iff in Hr as [sid Hr].
    exists sid. by destruct (Hok' sid r Hr). }
  intros sid.
  assert (is_Some (filter_ground_nodes
                     (merge_station_metadata loaded national_stations) !! sid)
          ↔ is_hub_id sid = false ∧
            (sid ∈ (fst <$> national_stations) ∨
             ∃ data, data ∈ lines ∧ get data "station_id" = JStr sid ∧ sid ≠ "")) as Hfilter.
  { unfold filter_ground_nodes, merge_station_metadata. unfold is_Some.
    setoid_rewrite map_lookup_filter_Some. setoid_rewrite lookup_fmap. simpl.
    pose proof (merge_loop_dom national_stations loaded sid) as Hm.
    pose proof (load_station_loop_dom lines ∅ loaded sid Hload) as Hl.
    rewrite lookup_empty in Hl. unfold is_Some in Hm, Hl. split.
    - intros (r & Hr & Hhub). split; [done|].
      destruct (fold_left merge_station national_stations loaded !! sid) as [r0|] eqn:E;
        [|done].
      destruct (proj1 Hm (ex_intro _ r0 eq_refl)) as [Hs | Hs]; [|by left].
      right. destruct (proj1 Hl Hs) as [[? [=]] | Hd]. done.
    - intros [Hhub Hsrc].
      assert (∃ r0, fold_left merge_station national_stations loaded !! sid = Some r0)
        as [r0 Hr0].
      { apply Hm. destruct Hsrc as [Hn | Hd]; [by right|]. left. apply Hl. by right. }
      exists (set_defaults r0). rewrite Hr0. done. }
  split.
  - intros (r & Hr & Hid). apply write_station_records_elem_iff in Hr as [sid' Hr].
    destruct (Hok' sid' r Hr) as [Hid' Hhub]. rewrite Hid in Hid'. injection Hid' as ->.
    apply Hfilter. destruct (Hframe sid' r Hr) as (r0 & Hr0 & _). eauto.
  - intros Hsrc. apply Hfilter in Hsrc. destruct (Hdom sid Hsrc) as [r Hr].
    exists r. split; [apply write_station_records_elem_iff; eauto|].
    by destruct (Hok' sid r Hr).
Qed.

End Catalogue.

(** ** Ordered dictionaries *)

Section OrderedDictFacts.

Context {K V : Type} `{EqDecision K}.

Lemma od_set_elem (k k' : K) (v v' : V) (d : list (K * V)) :
  (k', v') ∈ od_set k v d → (k', v') = (k, v) ∨ (k', v') ∈ d.
Proof.
  induction d as [|[k0 v0] d IH]; simpl.
  - intros H. apply list_elem_of_singleton in H. by left.
  - case_decide; rewrite !elem_of_cons; [tauto|]. intros [?|?]; [tauto|].
    destruct IH; auto.
Qed.

Lemma od_set_keys (k k' : K) (v : V) (d : list (K * V)) :
  k' ∈ (fst <$> od_set k v d) ↔ k' = k ∨ k' ∈ (fst <$> d).
Proof.
  induction d as [|[k0 v0] d IH]; simpl.
  - rewrite list_elem_of_singleton. split; [auto|]. intros [?|H]; [done|].
    by apply elem_of_nil in H.
  - case_decide as Hk; simpl; rewrite !elem_of_cons; [subst; tauto|].
    rewrite IH. tauto.
Qed.

Lemma od_get_elem (k : K) (v : V) (d : list (K * V)) :
  od_get k d = Some v → (k, v) ∈ d.
Proof.
  induction d as [|[k0 v0] d IH]; simpl; [done|].
  case_decide as Hk; [intros [= <-]; subst; by left|].
  intros H. right. by apply IH.
Qed.

Lemma od_get_set (k k' : K) (v : V) (d : list (K * V)) :
  od_get k' (od_set k v d) = if decide (k = k') then Some v else od_get k' d.
Proof.
  induction d as [|[k0 v0] d IH]; simpl.
  - by repeat case_decide.
  - destruct (decide (k0 = k)) as [->|Hne]; simpl.
    + by repeat case_decide.
    + rewrite IH. repeat case_decide; congruence.
Qed.

Lemma od_setdefault_elem (k k' : K) (v v' : V) (d : list (K * V)) :
  (k', v') ∈ od_setdefault k v d → (k', v') = (k, v) ∨ (k', v') ∈ d.
Proof.
  unfold od_setdefault. destruct (od_get k d); [by right | apply od_set_elem].
Qed.

Lemma od_setdefault_keys (k k' : K) (v : V) (d : list (K * V)) :
  k' ∈ (fst <$> od_setdefault k v d) ↔ k' = k ∨ k' ∈ (fst <$> d).
Proof.
  unfold od_setdefault. destruct (od_get k d) as [v0|] eqn:E; [|apply od_set_keys].
  split; [auto|]. intros [-> | ?]; [|done].
  apply list_elem_of_fmap. exists (k, v0). split; [done|]. by apply od_get_elem.
Qed.

End OrderedDictFacts.

(** ** Times of day *)

Lemma mod_day_in_day x : in_day (mod_day x).
Proof.
  unfold in_day, mod_day. change (inject_Z (24 * 60)) with 1440%Q.
  pose proof (Qfloor_le (x / 1440)) as Hle.
  pose proof (Qlt_floor (x / 1440)) as Hlt.
  rewrite inject_Z_plus in Hlt. change (inject_Z 1) with 1%Q in Hlt.
  assert (x == 1440 * (x / 1440))%Q as Hx by (field).
  set (f := inject_Z (Qfloor (x / 1440))) in *. set (y := (x / 1440)%Q) in *.
  split; lra.
Qed.

Lemma mod_day_shift b d : in_day b → (mod_day (b + day_minutes d) == b)%Q.
Proof.
  unfold in_day, mod_day, day_minutes. intros [H0 H1].
  change (inject_Z (24 * 60)) with 1440%Q.
  replace (d * 24 * 60) with (d * 1440) by lia. rewrite inject_Z_mult.
  change (inject_Z 1440) with 1440%Q.
  set (y := ((b + inject_Z d * 1440) / 1440)%Q).
  assert (y == b / 1440 + inject_Z d)%Q as Hy by (unfold y; field).
  assert (0 <= b / 1440)%Q as Hb0 by (apply Qle_shift_div_l; lra).
  assert (b / 1440 < 1)%Q as Hb1 by (apply Qlt_shift_div_r; lra).
  pose proof (Qfloor_le y) as Hle. pose proof (Qlt_floor y) as Hlt.
  rewrite inject_Z_plus in Hlt. change (inject_Z 1) with 1%Q in Hlt.
  assert (Qfloor y = d) as ->.
  { assert (inject_Z (Qfloor y) < inject_Z (d + 1))%Q as H2
      by (rewrite inject_Z_plus; change (inject_Z 1) with 1%Q; lra).
    assert (inject_Z d < inject_Z (Qfloor y + 1))%Q as H3
      by (rewrite inject_Z_plus; change (inject_Z 1) with 1%Q; lra).
    rewrite <- Zlt_Qlt in H2, H3. lia. }
  lra.
Qed.

(** Whatever day [parse] has moved a time of day to, its remainder by the
    day, which is what the headways are computed from, is the time of day of
    the token. *)
Theorem parse_then_mod_day (self : TimeNormalizer) (raw : option string) (b v : Q) :
  base_minutes raw = Some b → (b < 1440)%Q → (parse self raw).1 = Some v →
  (mod_day v == b)%Q ∧ ∃ k : Z, (v == b + inject_Z k * 1440)%Q.
Proof.
  intros Hb Hday. destruct (base_minutes_shape _ _ Hb) as [Hpos _].
  unfold parse. rewrite Hb. cbv zeta.
  set (rolled := match _last_value self with Some last => _ | None => false end).
  destruct rolled; simpl; intros [= <-].
  - split; [by apply mod_day_shift|]. exists (_day_offset self + 1).
    unfold day_minutes. replace ((_day_offset self + 1) * 24 * 60)
      with ((_day_offset self + 1) * 1440) by lia.
    rewrite inject_Z_mult. reflexivity.
  - split; [by apply mod_day_shift|]. exists (_day_offset self).
    unfold day_minutes. replace (_day_offset self * 24 * 60)
      with (_day_offset self * 1440) by lia.
    rewrite inject_Z_mult. reflexivity.
Qed.

Lemma parse_then_mod_day_witness :
  (mod_day 1450 == 10)%Q ∧ ∃ k : Z, (1450 == 10 + inject_Z k * 1440)%Q.
Proof.
  apply (parse_then_mod_day (mkTimeNormalizer 0 (Some 1430%Q)) (tok "0010") 10 1450).
  - vm_compute. reflexivity.
  - reflexivity.
  - vm_compute. reflexivity.
Defined.

(** ** build_national_graph *)

Lemma extract_stop_events_ok seg (metadata : gmap string StationMetadata) :
  Forall (stop_ok metadata) (extract_stop_events seg metadata).1.
Proof.
  unfold extract_stop_events.
  destruct (default [] (schedule_location_list seg)) as [|loc locations] eqn:E;
    [constructor|].
  cbn [fst]. by apply (extract_loop_spec metadata (loc :: locations)).
Qed.

Lemma schedule_line_stops sch (catalogue : gmap string StationMetadata) line stops_list :
  schedule_line sch catalogue = Some (line, stops_list) →
  Forall (stop_ok catalogue) stops_list.
Proof.
  unfold schedule_line. cbv zeta. case_bool_decide; [done|].
  pose proof (extract_stop_events_ok
                (default (mkSegment None None) (sched_segment sch)) catalogue) as Hok.
  destruct (extract_stop_events _ catalogue) as [stops_list' ratio]. simpl in Hok.
  destruct (length stops_list' <? 2)%nat; [done|].
  destruct (classify_service _ _ _) as [variant|]; [|done].
  case_bool_decide; [done|]. by intros [= _ <-].
Qed.

Lemma register_stops_spec (catalogue : gmap string StationMetadata) stops_list :
  Forall (stop_ok catalogue) stops_list →
  ∀ usage : list (string * StationMetadata),
    (∀ sid meta, (sid, meta) ∈ usage →
       ∃ t, catalogue !! t = Some meta ∧ sid = station_id_from_tiploc t) →
    ∃ usage', fold_left (register_stop catalogue) stops_list (Some usage) = Some usage' ∧
      (∀ sid meta, (sid, meta) ∈ usage' →
         ∃ t, catalogue !! t = Some meta ∧ sid = station_id_from_tiploc t) ∧
      (∀ sid, sid ∈ (fst <$> usage) → sid ∈ (fst <$> usage')) ∧
      (∀ s, s ∈ stops_list → se_station_id s ∈ (fst <$> usage')).
Proof.
  induction 1 as [|s stops_list (Hmeta & Hid & _) _ IH]; intros usage Husage; simpl.
  - exists usage. split; [done|]. split; [done|]. split; [done|].
    intros s H. by apply elem_of_nil in H.
  - destruct Hmeta as [meta Hmeta]. rewrite Hmeta. simpl.
    destruct (IH (od_setdefault (se_station_id s) meta usage)) as (usage' & -> & Hu & Hk & Hs).
    { intros sid m Hin. apply od_setdefault_elem in Hin as [[= -> ->] | Hin];
        [|by apply Husage].
      exists (se_tiploc s). done. }
    exists usage'. split; [done|]. split; [done|]. split.
    + intros sid Hsid. apply Hk, od_setdefault_keys. by right.
    + intros s' Hs'. apply elem_of_cons in Hs' as [-> | Hs']; [|by apply Hs].
      apply Hk, od_setdefault_keys. by left.
Qed.

Lemma record_travel_ok (usage : list (string * StationMetadata)) line costs pair :
  (∀ key value, (key, value) ∈ costs →
     (MIN_TRAVEL_MINUTES <= value)%Q ∧
     key.1.1.1 ∈ (fst <$> usage) ∧ key.1.2 ∈ (fst <$> usage)) →
  se_station_id pair.1 ∈ (fst <$> usage) → se_station_id pair.2 ∈ (fst <$> usage) →
  ∀ key value, (key, value) ∈ record_travel line costs pair →
     (MIN_TRAVEL_MINUTES <= value)%Q ∧
     key.1.1.1 ∈ (fst <$> usage) ∧ key.1.2 ∈ (fst <$> usage).
Proof.
  intros Hc H1 H2 key value. destruct pair as [cur next]. unfold record_travel.
  destruct (se_departure cur) as [dep|]; [|apply Hc].
  destruct (se_arrival next) as [arr|]; [|apply Hc].
  cbv zeta. destruct (Qltb (arr - dep) MIN_TRAVEL_MINUTES) eqn:Hlt; [apply Hc|].
  apply Qltb_ge in Hlt.
  assert ((key, value) ∈ od_set (se_station_id cur, line, se_station_id next, line)
                                (arr - dep)%Q costs →
          (MIN_TRAVEL_MINUTES <= value)%Q ∧
          key.1.1.1 ∈ (fst <$> usage) ∧ key.1.2 ∈ (fst <$> usage)) as Hset.
  { intros Hin. apply od_set_elem in Hin as [[= -> ->] | Hin]; [done | by apply Hc]. }
  destruct (od_get (se_station_id cur, line, se_station_id next, line) costs)
    as [existing|]; [|done].
  destruct (Qltb (arr - dep) existing); [done | apply Hc].
Qed.

Lemma zip_tail_elem {A} (l : list A) (x y : A) :
  (x, y) ∈ zip l (tail l) → x ∈ l ∧ y ∈ l.
Proof.
  intros H. split.
  - by apply elem_of_zip_l in H.
  - apply elem_of_zip_r in H. destruct l; simpl in *; [by apply elem_of_nil in H|].
    by right.
Qed.

Lemma record_travels_ok (usage : list (string * StationMetadata)) line pairs : ∀ costs,
  (∀ key value, (key, value) ∈ costs →
     (MIN_TRAVEL_MINUTES <= value)%Q ∧
     key.1.1.1 ∈ (fst <$> usage) ∧ key.1.2 ∈ (fst <$> usage)) →
  (∀ pair, pair ∈ pairs →
     se_station_id pair.1 ∈ (fst <$> usage) ∧ se_station_id pair.2 ∈ (fst <$> usage)) →
  ∀ key value, (key, value) ∈ fold_left (record_travel line) pairs costs →
     (MIN_TRAVEL_MINUTES <= value)%Q ∧
     key.1.1.1 ∈ (fst <$> usage) ∧ key.1.2 ∈ (fst <$> usage).
Proof.
  induction pairs as [|pair pairs IH]; intros costs Hc Hp; simpl; [done|].
  apply IH.
  - destruct (Hp pair) as [H1 H2]; [by left|]. by apply record_travel_ok.
  - intros p Hin. apply Hp. by right.
Qed.

Lemma record_departures_ok (usage : list (string * StationMetadata)) line stops_list :
  ∀ deps : list ((string * string) * list Q),
  (∀ key times, (key, times) ∈ deps →
     Forall in_day times ∧ key.1 ∈ (fst <$> usage)) →
  (∀ s, s ∈ stops_list → se_station_id s ∈ (fst <$> usage)) →
  ∀ key times, (key, times) ∈ fold_left (record_departure line) stops_list deps →
     Forall in_day times ∧ key.1 ∈ (fst <$> usage).
Proof.
  induction stops_list as [|s stops_list IH]; intros deps Hd Hs; simpl; [done|].
  apply IH; [|intros s' Hin; apply Hs; by right].
  unfold record_departure. destruct (se_departure s) as [dep|]; [|done].
  cbv zeta. intros key times Hin.
  apply od_set_elem in Hin as [[= -> ->] | Hin]; [|by apply Hd].
  split; [|apply Hs; by left].
  apply Forall_app. split; [|apply Forall_singleton, mod_day_in_day].
  destruct (od_get (se_station_id s, line) deps) as [old|] eqn:E; simpl; [|constructor].
  apply od_get_elem in E. by destruct (Hd _ _ E).
Qed.

Lemma process_schedule_ok (catalogue : gmap string StationMetadata) st line stops_list :
  build_ok catalogue st → Forall (stop_ok catalogue) stops_list →
  ∃ st', process_schedule catalogue st line stops_list = Some st' ∧
         build_ok catalogue st' ∧ processed st' = processed st + 1.
Proof.
  intros (Hc & Hu & Hd) Hstops. unfold process_schedule.
  destruct (register_stops_spec catalogue stops_list Hstops (station_usage st) Hu)
    as (usage' & -> & Hu' & Hgrow & Hin). simpl.
  eexists. split; [reflexivity|]. split; [|done].
  split; [|split]; simpl.
  - apply record_travels_ok.
    + intros key value Hkv. destruct (Hc key value Hkv) as (H1 & H2 & H3). auto.
    + intros [cur next] Hp. apply zip_tail_elem in Hp as [H1 H2]. auto.
  - done.
  - apply record_departures_ok; [|done].
    intros key times Hkt. destruct (Hd key times Hkt) as [H1 H2]. auto.
Qed.

Lemma schedule_loop_ok (catalogue : gmap string StationMetadata) limit schedules :
  ∀ st, build_ok catalogue st →
  ∃ st', schedule_loop catalogue limit schedules st = Some st' ∧ build_ok catalogue st'.
Proof.
  induction schedules as [|sch rest IH]; intros st Hok; simpl; [eauto|].
  destruct (schedule_line sch catalogue) as [[line stops_list]|] eqn:Hline; [|by apply IH].
  destruct (process_schedule_ok catalogue st line stops_list Hok
              (schedule_line_stops _ _ _ _ Hline)) as (st' & -> & Hok' & _).
  destruct limit as [l|]; [|by apply IH].
  destruct (l <=? processed st'); [eauto | by apply IH].
Qed.

Lemma build_ok_init (catalogue : gmap string StationMetadata) :
  build_ok catalogue (mkBuild [] [] [] 0).
Proof.
  split; [|split]; simpl; intros ? ? H; by apply elem_of_nil in H.
Qed.



(** The stations [build_national_graph] returns come from the catalogue,
    carry the id of their location, which is never a hub id, and each has
    its two GROUND connectors among the edges; and every edge ends at
    returned stations or at hub ids. *)
Theorem build_national_graph_stations
    (catalogue : gmap string StationMetadata) (schedules : list schedule)
    (limit : option Z) (result : NationalGraphResult) :
  build_national_graph catalogue schedules limit = Some result →
  (∀ sid meta, (sid, meta) ∈ stations result →
     (∃ t, catalogue !! t = Some meta ∧ sid = station_id_from_tiploc t) ∧
     is_hub_id sid = false ∧
     mkEdge sid "GROUND" sid "HUB" 2 ∈ edges result ∧
     mkEdge sid "HUB" sid "GROUND" 2 ∈ edges result) ∧
  (∀ e, e ∈ edges result →
     (from_id e ∈ (fst <$> stations result) ∨ is_hub_id (from_id e) = true) ∧
     (to_id e ∈ (fst <$> stations result) ∨ is_hub_id (to_id e) = true)).
Proof.
  unfold build_national_graph.
  destruct (schedule_loop_ok catalogue limit schedules _ (build_ok_init catalogue))
    as (st & -> & (Hc & Hu & Hd)). simpl. intros [= <-]. simpl. split.
  - intros sid meta Hin. destruct (Hu sid meta Hin) as (t & Ht & ->).
    split; [eauto|]. split; [apply station_id_from_tiploc_not_hub|].
    split; apply elem_of_app; right; apply list_elem_of_In, in_flat_map;
      exists (station_id_from_tiploc t, meta);
      (split; [by apply list_elem_of_In|]); simpl; auto.
  - intros e. rewrite !elem_of_app. intros [[He | He] | He].
    + apply list_elem_of_fmap in He as ([[[[a l] b] l'] value] & -> & Hin). simpl.
      destruct (Hc _ _ Hin) as (_ & H1 & H2). auto.
    + unfold hub_edges in He. apply list_elem_of_In, in_flat_map in He
        as ([[sid line] h] & _ & He).
      unfold hub_edges_of in He. case_bool_decide as Hsid; simpl in He; [|done].
      destruct He as [<- | [<- | []]]; simpl; auto.
    + apply list_elem_of_In, in_flat_map in He as ([sid meta] & Hin & He).
      apply list_elem_of_In in Hin.
      assert (sid ∈ (fst <$> station_usage st)) as Hsid.
      { apply list_elem_of_fmap. by exists (sid, meta). }
      pose proof (hub_id_for_station_is_hub meta) as Hhub.
      simpl in He. destruct He as [<- | [<- | [<- | [<- | []]]]]; simpl; auto.
Qed.

Lemma sorted_head_le_last (l : list Q) (x y : Q) :
  Sorted Qle l → head l = Some x → last l = Some y → (x <= y)%Q.
Proof.
  intros Hs Hx Hy.
  assert (Transitive Qle) as Htrans by (intros a b c; apply Qle_trans).
  apply (Sorted_StronglySorted Qle) in Hs.
  destruct l as [|x' s]; [done|]. injection Hx as ->.
  apply StronglySorted_inv in Hs as [_ Hall].
  destruct s as [|z s]; [injection Hy as ->; lra|].
  rewrite Forall_forall in Hall. apply Hall.
  change (last (x :: z :: s)) with (last (z :: s)) in Hy.
  apply last_Some in Hy as [l' ->]. apply elem_of_app. right. by left.
Qed.

(** Departures that are times of day give a headway of at most a day. *)
Lemma headway_of_in_day times :
  Forall in_day times → (headway_of times <= 1440)%Q.
Proof.
  intros Hday.
  destruct (Nat.lt_ge_cases (length times) 2) as [Hlt | Hge].
  - unfold headway_of. apply Nat.ltb_lt in Hlt. rewrite Hlt. discriminate.
  - destruct (headway_of_least times Hge) as [_ Hall].
    destruct (sorted_spec times) as [Hs Hp].
    assert (Forall in_day (sorted times)) as Hday'.
    { eapply Permutation_Forall; [|exact Hday]. by symmetry. }
    pose proof (sorted_length times) as Hlen.
    destruct (sorted times) as [|x s] eqn:Es; [simpl in Hlen; lia|].
    destruct (last (x :: s)) as [y|] eqn:El; [|by apply last_None in El].
    assert (x <= y)%Q as Hxy by (by eapply sorted_head_le_last).
    assert (in_day x) as [Hx0 _].
    { rewrite Forall_forall in Hday'. apply Hday'. by left. }
    assert (in_day y) as [_ Hy1].
    { rewrite Forall_forall in Hday'. apply Hday'.
      apply last_Some in El as [l' ->]. apply elem_of_app. right. by left. }
    set (wrap := (x + inject_Z (24 * 60) - y)%Q).
    assert (0 < wrap <= 1440)%Q as [Hw0 Hw1].
    { unfold wrap. change (inject_Z (24 * 60)) with 1440%Q. lra. }
    assert (In wrap (positive_gaps times)) as Hin.
    { unfold positive_gaps. apply List.filter_In. split; [|by apply Qltb_lt].
      unfold all_gaps. cbv zeta. rewrite Es, El. simpl default.
      apply in_app_iff. right. by left. }
    rewrite Forall_forall in Hall. apply list_elem_of_In in Hin.
    specialize (Hall _ Hin). simpl in Hall. lra.
Qed.

(** The departures [build_national_graph] collects are times of day, so
    every headway it returns is positive and at most one day. *)
Theorem build_national_graph_headways
    (catalogue : gmap string StationMetadata) (schedules : list schedule)
    (limit : option Z) (result : NationalGraphResult) :
  build_national_graph catalogue schedules limit = Some result →
  ∀ key h, (key, h) ∈ headways result →
    (0 < h <= 1440)%Q ∧ key.1 ∈ (fst <$> stations result).
Proof.
  unfold build_national_graph.
  destruct (schedule_loop_ok catalogue limit schedules _ (build_ok_init catalogue))
    as (st & -> & (Hc & Hu & Hd)). simpl. intros [= <-]. simpl.
  intros key h Hin. apply compute_headways_lookup in Hin as (times & Hin & ->).
  destruct (Hd key times Hin) as [Hday Hkey].
  split; [|done]. split; [apply headway_of_positive | by apply headway_of_in_day].
Qed.

Lemma build_national_graph_example :
  match build_national_graph example_catalogue [example_schedule] None with
  | Some result => true
  | None => false
  end = true.
Proof. vm_compute. reflexivity. Qed.

Lemma build_national_graph_stations_witness :
  let result := default (mkResult [] [] [])
                  (build_national_graph example_catalogue [example_schedule] None) in
  (∀ sid meta, (sid, meta) ∈ stations result →
     (∃ t, example_catalogue !! t = Some meta ∧ sid = station_id_from_tiploc t) ∧
     is_hub_id sid = false ∧
     mkEdge sid "GROUND" sid "HUB" 2 ∈ edges result ∧
     mkEdge sid "HUB" sid "GROUND" 2 ∈ edges result) ∧
  (∀ e, e ∈ edges result →
     (from_id e ∈ (fst <$> stations result) ∨ is_hub_id (from_id e) = true) ∧
     (to_id e ∈ (fst <$> stations result) ∨ is_hub_id (to_id e) = true)).
Proof.
  apply (build_national_graph_stations example_catalogue [example_schedule] None).
  apply some_default. exact build_national_graph_example.
Defined.

Lemma build_national_graph_headways_witness :
  let result := default (mkResult [] [] [])
                  (build_national_graph example_catalogue [example_schedule] None) in
  (0 < 30 <= 1440)%Q ∧ "910GPADTON" ∈ (fst <$> stations result).
Proof.
  intros result.
  refine (build_national_graph_headways example_catalogue [example_schedule] None result
            _ ("910GPADTON", "gw-slow") 30%Q _).
  - apply some_default. exact build_national_graph_example.
  - assert (headways result = [(("910GPADTON", "gw-slow"), 30%Q)]) as ->
      by (vm_compute; reflexivity).
    left.
Defined.

Lemma main_stations_writes_non_hub_witness :
  ∃ r, r ∈ default [] (main_stations (fun _ => "") example_station_lines [])
       ∧ r !! "station_id" = Some (JStr "940GZZLUPAC").
Proof.
  destruct (main_stations_writes_non_hub (fun _ => "") example_station_lines []
              (default [] (main_stations (fun _ => "") example_station_lines [])))
    as [_ Hids].
  { apply some_default. vm_compute. reflexivity. }
  apply Hids. split; [vm_compute; reflexivity|].
  right. eexists. split; [right; left|]. split; [reflexivity | discriminate].
Defined.

Lemma ensure_unique_station_names_only_renames_witness :
  let records : gmap string record :=
    {[ "940GZZLUPAC" := {[ "station_name" := JStr "Paddington" ]} ]} in
  is_Some (default ∅ (ensure_unique_station_names (fun _ => "") records) !! "940GZZLUPAC")
  ↔ is_Some (records !! "940GZZLUPAC").
Proof.
  intros records.
  destruct (ensure_unique_station_names_only_renames (fun _ => "") records
              (default ∅ (ensure_unique_station_names (fun _ => "") records)))
    with (sid := "940GZZLUPAC") as [Hdom _].
  { apply some_default. vm_compute. reflexivity. }
  exact Hdom.
Defined.

(** ** The renaming loop *)

Lemma find_candidate_spec fuel : ∀ (seen : gset string) new_name candidate counter c,
  find_candidate fuel seen new_name candidate counter = Some c →
  (Py.casefold c ∉ seen) ∧
  (c = candidate ∨
   (Py.casefold candidate ∈ seen ∧
    ∃ k, counter <= k ∧ c = new_name +:+ " #" +:+ pretty k ∧
      ∀ j, (counter <= j < k) → Py.casefold (new_name +:+ " #" +:+ pretty j) ∈ seen)).
Proof.
  induction fuel as [|fuel IH]; intros seen new_name candidate counter c; simpl.
  - case_bool_decide; [done|]. intros [= <-]. auto.
  - case_bool_decide as Hin; [|intros [= <-]; auto].
    intros Hrun. destruct (IH _ _ _ _ _ Hrun) as [Hc Hform]. split; [done|].
    right. split; [done|]. destruct Hform as [-> | (Hin' & k & Hk & -> & Hbefore)].
    + exists counter. split; [lia|]. split; [done|]. intros j Hj. lia.
    + exists k. split; [lia|]. split; [done|]. intros j Hj.
      destruct (decide (j = counter)) as [->|Hne]; [done|]. apply Hbefore. lia.
Qed.

(** The [while] loop of the renaming always ends: it returns the first of
    [new_name], [new_name #1], [new_name #2], ... whose folded form is not in
    [seen]. *)
Theorem find_candidate_first_free (seen : gset string) (new_name : string) :
  ∃ c, find_candidate (S (size seen)) seen new_name new_name 1 = Some c ∧
    (Py.casefold c ∉ seen) ∧
    (c = new_name ∨
     (Py.casefold new_name ∈ seen ∧
      ∃ k, 1 <= k ∧ c = new_name +:+ " #" +:+ pretty k ∧
        ∀ j, (1 <= j < k) → Py.casefold (new_name +:+ " #" +:+ pretty j) ∈ seen)).
Proof.
  destruct (find_candidate_total seen new_name) as [c Hc].
  exists c. split; [done|]. by apply (find_candidate_spec _ _ _ _ _ _ Hc).
Qed.

(** ** load_line_records *)

Lemma load_line_records_records (lines : list (option edge)) :
  (load_line_records lines).1 = omap id lines.
Proof.
  induction lines as [|line lines IH] using rev_ind; [done|].
  rewrite load_line_records_snoc, omap_app.
  destruct (load_line_records lines) as [records index]. simpl in *. subst.
  destruct line; simpl; [done | by rewrite app_nil_r].
Qed.

Lemma omap_id_length (lines : list (option edge)) :
  (length (omap id lines) <= length lines)%nat.
Proof. induction lines as [|[e|] lines IH]; csimpl; lia. Qed.

Lemma omap_blank_length (lines : list (option edge)) :
  None ∈ lines → (length (omap id lines) < length lines)%nat.
Proof.
  induction lines as [|line lines IH]; intros Hin; [by apply elem_of_nil in Hin|].
  pose proof (omap_id_length lines) as Hle.
  apply elem_of_cons in Hin as [<- | Hin]; csimpl; [lia|].
  specialize (IH Hin). destruct line; csimpl; lia.
Qed.

(** A file without blank lines loads as it is, every key is indexed at its
    last line, and the weight the store holds for a key is that of the last
    line of the key. *)
Theorem load_line_records_indexes_last_line (edges : list edge) :
  ∃ index, load_line_records (Some <$> edges) = (edges, index) ∧
    index_ok edges index ∧
    ∀ key, index !! key = last_pos edges key ∧
           stored edges index key = last_weight edges (key_from key) (key_to key).
Proof.
  destruct (load_line_records_last edges) as (index & Hload & Hlast).
  exists index. split; [done|]. split; [by apply index_last_ok|].
  intros key. split; [apply Hlast | by apply index_last_stored].
Qed.

(** A blank line shifts the index: when a blank line comes before the last
    line of the file, merging an edge that has the key of that last line
    fails with the [IndexError] of [records[idx]]. *)
Theorem blank_line_breaks_merge
    (before : list (option edge)) (r e : edge) (rest : list edge) :
  None ∈ before → edge_key e = edge_key r →
  main_lines (before ++ [Some r]) (e :: rest) = None.
Proof.
  intros Hblank Hkey. unfold main_lines.
  rewrite load_line_records_snoc.
  pose proof (load_line_records_records before) as Hrec.
  destruct (load_line_records before) as [records index]. simpl in Hrec. subst records.
  simpl. unfold merge_line_edges. simpl. unfold merge_line_edge at 1. simpl.
  rewrite Hkey, lookup_insert_eq.
  rewrite (lookup_ge_None_2 _ (length before)); [done|].
  rewrite length_app. simpl. pose proof (omap_blank_length before Hblank). lia.
Qed.

Lemma blank_line_breaks_merge_witness :
  let r := mkEdge "910GPADTON" "gw-slow" "910GRDNGSTN" "gw-slow" 10 in
  let e := mkEdge "910GPADTON" "gw-slow" "910GRDNGSTN" "gw-slow" 7 in
  main_lines ([None] ++ [Some r]) (e :: []) = None.
Proof.
  intros r e. apply (blank_line_breaks_merge [None] r e []).
  - left.
  - reflexivity.
Defined.

(** ** merge_station_metadata: the fields it always sets *)

Lemma setdefault_self k v (r : record) : is_Some (setdefault k v r !! k).
Proof.
  unfold setdefault. destruct (r !! k) eqn:E; [by rewrite E|].
  rewrite lookup_insert_eq. eauto.
Qed.

Lemma setdefault_keeps k v (r : record) k' :
  is_Some (r !! k') → is_Some (setdefault k v r !! k').
Proof.
  intros Hk. unfold setdefault. destruct (r !! k) eqn:E; [done|].
  destruct (decide (k = k')) as [->|Hne]; [rewrite lookup_insert_eq; eauto|].
  by rewrite lookup_insert_ne.
Qed.

Lemma set_defaults_keys (r : record) :
  is_Some (set_defaults r !! "code") ∧ is_Some (set_defaults r !! "latitude")
  ∧ is_Some (set_defaults r !! "longitude").
Proof.
  unfold set_defaults. repeat split.
  - do 2 apply setdefault_keeps. apply setdefault_self.
  - apply setdefault_keeps. apply setdefault_self.
  - apply setdefault_self.
Qed.

(** After [merge_station_metadata] every record has its code, latitude and
    longitude keys; a station of the national list (each id once) has the
    latitude, the longitude and the tiploc of its metadata, set or not; and
    a station that is not in the list is as it was, the three defaults
    apart. *)
Theorem merge_station_metadata_fields
    (existing : gmap string record) (national_stations : list (string * StationMetadata)) :
  (∀ sid r, merge_station_metadata existing national_stations !! sid = Some r →
     is_Some (r !! "code") ∧ is_Some (r !! "latitude") ∧ is_Some (r !! "longitude")) ∧
  (NoDup (fst <$> national_stations) →
   ∀ sid meta, (sid, meta) ∈ national_stations →
     ∃ r, merge_station_metadata existing national_stations !! sid = Some r ∧
       get r "latitude" = of_float (latitude meta) ∧
       get r "longitude" = of_float (longitude meta) ∧
       get r "tiploc" = JStr (tiploc meta)) ∧
  (∀ sid, sid ∉ (fst <$> national_stations) →
     merge_station_metadata existing national_stations !! sid
     = set_defaults <$> existing !! sid).
Proof.
  unfold merge_station_metadata. split; [|split].
  - intros sid r. rewrite lookup_fmap.
    destruct (fold_left merge_station national_stations existing !! sid) as [r0|];
      [|done].
    intros [= <-]. apply set_defaults_keys.
  - intros Hnd sid meta Hin. fold (merge_station_metadata existing national_stations).
    by apply merge_station_metadata_sets.
  - intros sid Hsid. by rewrite lookup_fmap, merge_loop_other.
Qed.

Lemma merge_station_metadata_fields_witness :
  let old : record :=
    {[ "station_id" := JStr "910GPADTON"; "latitude" := JFloat (515 # 10) ]} in
  let meta := mkStationMetadata "PADTON" (Some "London Paddington") (Some "PAD")
                None None None None None in
  ∃ r, merge_station_metadata {[ "910GPADTON" := old ]} [("910GPADTON", meta)]
         !! "910GPADTON" = Some r ∧
    get r "latitude" = JNull ∧ get r "longitude" = JNull ∧ get r "tiploc" = JStr "PADTON".
Proof.
  intros old meta.
  destruct (merge_station_metadata_fields {[ "910GPADTON" := old ]} [("910GPADTON", meta)])
    as (_ & Hset & _).
  apply (Hset ltac:(repeat constructor; set_solver) "910GPADTON" meta). left.
Defined.

(** ** Line names, hub ids and station ids *)

Lemma length_chars_app a b :
  length (Py.chars (a +:+ b)) = (length (Py.chars a) + length (Py.chars b))%nat.
Proof. by rewrite chars_app, length_app. Qed.

Lemma line_name_not_reserved toc variant :
  toc ≠ "" → variant = "slow" ∨ variant = "express" →
  toc +:+ "-" +:+ variant ≠ "HUB" ∧ toc +:+ "-" +:+ variant ≠ "GROUND".
Proof.
  intros Htoc Hv. split; intros H.
  - apply (f_equal (fun x => length (Py.chars x))) in H.
    rewrite !length_chars_app in H. destruct Hv as [-> | ->]; simpl in H; lia.
  - destruct toc as [|c toc]; [done|]. simpl in H. injection H as _ H.
    assert (toc = "") as ->.
    { apply (f_equal (fun x => length (Py.chars x))) in H.
      rewrite !length_chars_app in H.
      destruct toc; [done|]. destruct Hv as [-> | ->]; simpl in H; lia. }
    destruct Hv as [-> | ->]; simpl in H; discriminate H.
Qed.

(** A schedule the loop keeps has two stops or more, all at locations of
    the catalogue, and a line name made of a non-empty operator code and
    "-slow" or "-express", which is neither of the reserved tokens HUB and
    GROUND. *)
Theorem schedule_line_name (sch : schedule) (catalogue : gmap string StationMetadata)
    (line : string) (stops_list : list StopEvent) :
  schedule_line sch catalogue = Some (line, stops_list) →
  (∃ toc, toc ≠ "" ∧ (line = toc +:+ "-slow" ∨ line = toc +:+ "-express")) ∧
  line ≠ "HUB" ∧ line ≠ "GROUND" ∧
  (2 <= length stops_list)%nat ∧ Forall (stop_ok catalogue) stops_list.
Proof.
  intros Hline. pose proof (schedule_line_stops _ _ _ _ Hline) as Hstops.
  revert Hline. unfold schedule_line. cbv zeta. case_bool_decide as Htoc; [done|].
  destruct (extract_stop_events _ catalogue) as [stops_list' ratio].
  destruct (length stops_list' <? 2)%nat eqn:Hlen; [done|].
  apply Nat.ltb_ge in Hlen.
  set (toc := Py.lower _) in *.
  destruct (classify_service _ _ _) as [variant|] eqn:Hc; [|done].
  case_bool_decide; [done|]. intros [= <- <-].
  assert (variant = "slow" ∨ variant = "express") as Hv.
  { unfold classify_service in Hc. destruct (rejected_category _); [done|].
    destruct (Qleb _ _); injection Hc as <-; auto. }
  destruct (line_name_not_reserved toc variant Htoc Hv) as [H1 H2].
  split; [|done]. exists toc. split; [done|]. destruct Hv as [-> | ->]; auto.
Qed.

Lemma schedule_line_name_witness :
  (∃ toc, toc ≠ "" ∧ ("gw-slow" = toc +:+ "-slow" ∨ "gw-slow" = toc +:+ "-express")) ∧
  "gw-slow" ≠ "HUB" ∧ "gw-slow" ≠ "GROUND" ∧
  (2 <= length (extract_stop_events example_segment example_catalogue).1)%nat ∧
  Forall (stop_ok example_catalogue) (extract_stop_events example_segment example_catalogue).1.
Proof.
  apply (schedule_line_name example_schedule example_catalogue).
  vm_compute. reflexivity.
Defined.

(** A hub id begins with "HUB" and a station id does not, so
    [filter_ground_nodes] drops every hub id and keeps every station id. *)
Theorem hub_ids_and_station_ids (meta : StationMetadata) (t : string)
    (records : gmap string record) :
  is_hub_id (hub_id_for_station meta) = true ∧
  is_hub_id (station_id_from_tiploc t) = false ∧
  filter_ground_nodes records !! hub_id_for_station meta = None ∧
  filter_ground_nodes records !! station_id_from_tiploc t
    = records !! station_id_from_tiploc t.
Proof.
  pose proof (hub_id_for_station_is_hub meta) as Hhub.
  pose proof (station_id_from_tiploc_not_hub t) as Hsid.
  split; [done|]. split; [done|]. unfold filter_ground_nodes. split.
  - apply map_lookup_filter_None. right. intros r _. simpl. congruence.
  - destruct (records !! station_id_from_tiploc t) as [r|] eqn:E.
    + by apply map_lookup_filter_Some.
    + apply map_lookup_filter_None. by left.
Qed.
